(** * The in-memory name index of the repository (src/storage/index.cpp)

    A shallow embedding of [repo::Index]: the name-ordered container of
    entries, the controller operations (insert, erase, find, getStatus,
    hasData, removeDeletedEntry) and the selector resolver
    ([matchesSimpleSelectors], [selectChild]), followed by the properties
    of the specification that were checked against them. *)

From Stdlib Require Import List ZArith NArith Lia Bool Arith.
From Stdlib.Strings Require Import Byte.
Import ListNotations.

(** ** Buffers and name components *)

Definition Buffer := list byte.

Module Component.

(** A name component is its value bytes. *)
Definition t := list byte.

(** Bytes compare as unsigned values, the way [memcmp] sees them. *)
Definition byte_compare (a b : byte) : comparison :=
  N.compare (Byte.to_N a) (Byte.to_N b).

(** Modelled from the spec: the canonical order of components belongs to
    the external name library; a shorter component sorts first and
    components of one length compare bytewise. *)
Definition compare (a b : t) : comparison :=
  match Nat.compare (length a) (length b) with
  | Lt => Lt
  | Gt => Gt
  | Eq => list_compare byte_compare a b
  end.

Definition equals (a b : t) : bool :=
  match compare a b with Eq => true | _ => false end.

(** [(value + 1) & 0xFF] on one byte. *)
Definition byte_succ (b : byte) : byte :=
  match Byte.of_N ((Byte.to_N b + 1) mod 256) with
  | Some b' => b'
  | None => x00
  end.

Definition is_zero (b : byte) : bool := (Byte.to_N b =? 0)%N.

(** Big-endian increment; the boolean is the carry out of the first byte. *)
Fixpoint increment (c : t) : t * bool :=
  match c with
  | [] => ([], true)
  | b :: r =>
      let (r', isOverflow) := increment r in
      if isOverflow
      then (byte_succ b :: r', is_zero (byte_succ b))
      else (b :: r', false)
  end.

(** Modelled from the spec: the successor of a component in canonical
    order, from the external name library: increment, and on overflow
    the component grows by one zero byte. *)
Definition getSuccessor (c : t) : t :=
  let (c', isOverflow) := increment c in
  if isOverflow then c' ++ [x00] else c'.

End Component.

Module Name.

Definition t := list Component.t.

Definition size (n : t) : nat := length n.

(** Modelled from the spec: canonical order of names, from the external
    name library: component-wise, and a proper prefix sorts first. *)
Definition compare (a b : t) : comparison :=
  list_compare Component.compare a b.

Definition equals (a b : t) : bool :=
  match compare a b with Eq => true | _ => false end.

Definition ltb (a b : t) : bool :=
  match compare a b with Lt => true | _ => false end.

(** Modelled from the spec: prefix test of the external name library,
    leading-subsequence containment. *)
Fixpoint isPrefixOf (p x : t) : bool :=
  match p, x with
  | [], _ => true
  | _ :: _, [] => false
  | a :: p', b :: x' => Component.equals a b && isPrefixOf p' x'
  end.

(** [getPrefix n]: the first [n] components; a negative [n] counts from
    the end. *)
Definition getPrefix (n : Z) (x : t) : t :=
  if (n <? 0)%Z
  then firstn (Z.to_nat (Z.of_nat (length x) + n)) x
  else firstn (Z.to_nat n) x.

(** Modelled from the spec: successor name of the external name library;
    the empty name is followed by the name of one zero byte. *)
Definition getSuccessor (x : t) : t :=
  match x with
  | [] => [[x00]]
  | _ => getPrefix (-1) x ++ [Component.getSuccessor (last x [])]
  end.

End Name.

(** ** Entries *)

Inductive status := EXISTED | INSERTED | DELETED | NONE.

Definition status_eqb (a b : status) : bool :=
  match a, b with
  | EXISTED, EXISTED | INSERTED, INSERTED | DELETED, DELETED | NONE, NONE => true
  | _, _ => false
  end.

(** [ndn::ConstBufferPtr]: a shared pointer, [None] when null. *)
Definition ConstBufferPtr := option Buffer.

Definition buffer_eqb (a b : Buffer) : bool :=
  match list_compare Component.byte_compare a b with Eq => true | _ => false end.

(** The collaborators the index only calls: the key locator with its wire
    encoding, and the digest. *)
Class External := {
  KeyLocator : Type;
  keyLocator_empty : KeyLocator -> bool;
  wireEncode : KeyLocator -> Buffer;
  sha256 : Buffer -> Buffer
}.

Module Entry.

Record t := mk {
  getName : Name.t;
  getKeyLocatorHash : ConstBufferPtr;
  getId : Z;
  getStatus : status
}.

Definition setStatus (s : status) (e : t) : t :=
  mk (getName e) (getKeyLocatorHash e) (getId e) s.

Definition isDeleted (e : t) : bool := status_eqb (getStatus e) DELETED.

End Entry.

(** What can go wrong below the level of values: the behaviours C++ leaves
    undefined. *)
Inductive UB := NullDereference | EndDereference | BeginDecrement.

Inductive Error := IndexFull | CannotChangeStatus.

(** Result of a [const] member function. *)
Inductive M (A : Type) :=
| Ret (a : A)
| Undef (u : UB).
Arguments Ret {A} a.
Arguments Undef {A} u.

Definition bind {A B} (m : M A) (k : A -> M B) : M B :=
  match m with
  | Ret a => k a
  | Undef u => Undef u
  end.

Notation "x <- m ;; k" := (bind m (fun x => k))
  (at level 61, m at next level, right associativity).

(** ** The name-ordered container

    Modelled from the spec: skiplist.hpp is not part of the sources at
    hand.  Section 4.1 asks for an ordered container under a comparator on
    the name alone, with [insert] (false iff the name is taken), [find],
    [lower_bound], [erase] at an iterator and forward iteration.  It is a
    list kept in canonical order; an iterator is a position in it, and
    [end()] is the position just after the last entry. *)
Module SkipList.

Definition t := list Entry.t.

Definition begin (l : t) : nat := 0.
Definition end_ (l : t) : nat := length l.

(** Dereference; [None] exactly at [end()]. *)
Definition deref (l : t) (it : nat) : option Entry.t := nth_error l it.

(** First position whose name is not less than [key]. *)
Fixpoint lower_bound (key : Name.t) (l : t) : nat :=
  match l with
  | [] => 0
  | e :: r =>
      if Name.ltb (Entry.getName e) key then S (lower_bound key r) else 0
  end.

Definition find (key : Name.t) (l : t) : nat :=
  let it := lower_bound key l in
  match deref l it with
  | Some e => if Name.equals (Entry.getName e) key then it else end_ l
  | None => end_ l
  end.

Fixpoint insert (e : Entry.t) (l : t) : t * bool :=
  match l with
  | [] => ([e], true)
  | x :: r =>
      match Name.compare (Entry.getName e) (Entry.getName x) with
      | Lt => (e :: l, true)
      | Eq => (l, false)
      | Gt => let (r', b) := insert e r in (x :: r', b)
      end
  end.

(** What dereferencing the result of [find] gives, by recursion on the
    list. *)
Fixpoint lookup (k : Name.t) (l : t) : option Entry.t :=
  match l with
  | [] => None
  | e :: r =>
      if Name.ltb (Entry.getName e) k then lookup k r
      else if Name.equals (Entry.getName e) k then Some e else None
  end.

(** [erase(it)]: the list without the entry at [it]. *)
Fixpoint erase (it : nat) (l : t) {struct l} : t :=
  match l, it with
  | [], _ => []
  | _ :: r, O => r
  | x :: r, S it' => x :: erase it' r
  end.

(** What [erase] at the position of a name followed by [insert] of an
    entry of that name leaves: the entry of that name replaced in place. *)
Fixpoint replace (e : Entry.t) (l : t) : t :=
  match l with
  | [] => []
  | x :: r =>
      if Name.ltb (Entry.getName x) (Entry.getName e) then x :: replace e r
      else if Name.equals (Entry.getName x) (Entry.getName e) then e :: r
      else l
  end.

(** Number of entries whose status is not DELETED. *)
Fixpoint liveCount (l : t) : nat :=
  match l with
  | [] => 0
  | e :: r => if Entry.isDeleted e then liveCount r else S (liveCount r)
  end.

End SkipList.

(** The container keeps its entries in strictly increasing canonical order
    of their names. *)
Fixpoint sortedb (l : SkipList.t) : bool :=
  match l with
  | [] => true
  | e :: r =>
      forallb (fun x => Name.ltb (Entry.getName e) (Entry.getName x)) r
      && sortedb r
  end.

Definition sorted (l : SkipList.t) : Prop := sortedb l = true.

(** ** Queries and content items *)

(** Modelled from the spec: the exclude selector of the external packet
    library, as the set of excluded components (section 6: an exclude set
    over the component that follows the query name). *)
Module Exclude.

Definition t := list Component.t.

Definition empty (x : t) : bool :=
  match x with [] => true | _ => false end.

Definition isExcluded (c : Component.t) (x : t) : bool :=
  existsb (Component.equals c) x.

End Exclude.

Module Interest.
Section WithExternal.
Context {ext : External}.

Record t := mk {
  getName : Name.t;
  getMinSuffixComponents : Z;
  getMaxSuffixComponents : Z;
  getExclude : Exclude.t;
  getChildSelector : Z;
  getPublisherPublicKeyLocator : KeyLocator
}.

End WithExternal.
End Interest.

Module Data.
Section WithExternal.
Context {ext : External}.

(** A content item, as far as the index reads it: its full name and the
    key locator of its signature, if the signature has one. *)
Record t := mk {
  getFullName : Name.t;
  getSignatureKeyLocator : option KeyLocator
}.

End WithExternal.
End Data.

(** ** The index *)

(** [size_t] arithmetic, for a [size_t] of 64 bits. *)
Definition size_max : Z := 2 ^ 64.
Definition wrap (z : Z) : Z := z mod size_max.

(** Result of a member function that changes the index: the value and the
    state after the call, or the exception with the state it leaves. *)
Inductive Outcome (S A : Type) :=
| Returns (a : A) (s : S)
| Throws (e : Error) (s : S).
Arguments Returns {S A} a s.
Arguments Throws {S A} e s.

Module Index.
Section WithExternal.
Context {ext : External}.

Record t := mk {
  m_maxPackets : Z;
  m_size : Z;
  m_skipList : SkipList.t
}.

(** [Index::Index(nMaxPackets)] *)
Definition Index (nMaxPackets : Z) : t := mk nMaxPackets 0 [].

Definition size (ix : t) : Z := m_size ix.

(** Modelled from the spec: [isFull] is declared in index.hpp, which is
    not among the sources; section 4.3 has insert fail when the current
    size equals the configured maximum. *)
Definition isFull (ix : t) : bool := (m_size ix =? m_maxPackets ix)%Z.

Definition computeKeyLocatorHash (keyLocator : KeyLocator) : ConstBufferPtr :=
  Some (sha256 (wireEncode keyLocator)).

(** [Index::entryEnumeration]: the visitor applied to the name and status
    of every entry, in the order of the container. *)
Definition entryEnumeration {A : Type} (f : Name.t -> status -> A) (ix : t)
    : list A :=
  map (fun e => f (Entry.getName e) (Entry.getStatus e)) (m_skipList ix).

(** The four constructors of [Index::Entry]. *)
Definition Entry_of_Data (data : Data.t) (id : Z) : Entry.t :=
  Entry.mk (Data.getFullName data)
    (match Data.getSignatureKeyLocator data with
     | Some keyLocator => computeKeyLocatorHash keyLocator
     | None => None
     end)
    id EXISTED.

Definition Entry_of_KeyLocator (fullName : Name.t) (keyLocator : KeyLocator)
    (id : Z) : Entry.t :=
  Entry.mk fullName (computeKeyLocatorHash keyLocator) id EXISTED.

Definition Entry_of_Hash (fullName : Name.t) (keyLocatorHash : ConstBufferPtr)
    (id : Z) : Entry.t :=
  Entry.mk fullName keyLocatorHash id EXISTED.

(** The probe entry; its id is never read. *)
Definition Entry_of_Name (name : Name.t) : Entry.t :=
  Entry.mk name None 0 EXISTED.

(** [matchesSimpleSelectors]; [hash] is the digest of the publisher key
    locator of the interest, null when the interest has none.  The
    subtraction of the sizes comes after the prefix test, so it does not
    wrap, and the casts to [size_t] are of non-negative values. *)
Definition matchesSimpleSelectors (interest : Interest.t)
    (hash : ConstBufferPtr) (entry : Entry.t) : M bool :=
  if status_eqb (Entry.getStatus entry) DELETED then Ret false else
  let fullName := Entry.getName entry in
  if negb (Name.isPrefixOf (Interest.getName interest) fullName)
  then Ret false else
  let nSuffixComponents :=
    (Z.of_nat (Name.size fullName)
     - Z.of_nat (Name.size (Interest.getName interest)))%Z in
  if (Interest.getMinSuffixComponents interest >=? 0)%Z
     && (nSuffixComponents <? Interest.getMinSuffixComponents interest)%Z
  then Ret false else
  if (Interest.getMaxSuffixComponents interest >=? 0)%Z
     && (nSuffixComponents >? Interest.getMaxSuffixComponents interest)%Z
  then Ret false else
  if negb (Exclude.empty (Interest.getExclude interest))
     && (Name.size (Interest.getName interest) <? Name.size fullName)%nat
     && match nth_error fullName (Name.size (Interest.getName interest)) with
        | Some c => Exclude.isExcluded c (Interest.getExclude interest)
        | None => false
        end
  then Ret false else
  if negb (keyLocator_empty (Interest.getPublisherPublicKeyLocator interest))
  then
    match Entry.getKeyLocatorHash entry, hash with
    | Some entryHash, Some h =>
        if negb (buffer_eqb entryHash h) then Ret false else Ret true
    | _, _ => Undef NullDereference
    end
  else Ret true.

(** The body the two overloads of [insert] share once the entry is
    built. *)
Definition insertEntry (entry : Entry.t) (ix : t) : Outcome t bool :=
  if isFull ix then Throws IndexFull ix else
  let l := m_skipList ix in
  let result := SkipList.find (Entry.getName entry) l in
  match SkipList.deref l result with
  | None =>
      let (l', isInserted) := SkipList.insert entry l in
      Returns isInserted
        (mk (m_maxPackets ix)
            (if isInserted then wrap (m_size ix + 1) else m_size ix) l')
  | Some r =>
      if status_eqb (Entry.getStatus r) DELETED then
        let l1 := SkipList.erase result l in
        let (l2, isInserted) :=
          SkipList.insert (Entry.setStatus INSERTED entry) l1 in
        Returns isInserted
          (mk (m_maxPackets ix)
              (if isInserted then wrap (m_size ix + 1) else m_size ix) l2)
      else Returns false ix
  end.

(** [Index::insert(const Data&, int64_t)] *)
Definition insert (data : Data.t) (id : Z) (ix : t) : Outcome t bool :=
  insertEntry (Entry_of_Data data id) ix.

(** [Index::insert(const Name&, int64_t, const ConstBufferPtr&)] *)
Definition insertName (fullName : Name.t) (id : Z)
    (keyLocatorHash : ConstBufferPtr) (ix : t) : Outcome t bool :=
  insertEntry (Entry_of_Hash fullName keyLocatorHash id) ix.

(** [Index::erase] *)
Definition erase (fullName : Name.t) (ix : t) : Outcome t bool :=
  let l := m_skipList ix in
  let findIterator := SkipList.find fullName l in
  match SkipList.deref l findIterator with
  | Some found =>
      let remove := Entry.setStatus DELETED found in
      let l1 := SkipList.erase findIterator l in
      let (l2, inserted) := SkipList.insert remove l1 in
      if negb inserted
      then Throws CannotChangeStatus (mk (m_maxPackets ix) (m_size ix) l2)
      else Returns true (mk (m_maxPackets ix) (wrap (m_size ix - 1)) l2)
  | None => Returns false ix
  end.

(** [Index::removeDeletedEntry]: the sweep over the container. *)
Fixpoint sweep (l : SkipList.t) : SkipList.t :=
  match l with
  | [] => []
  | e :: r => if Entry.isDeleted e then sweep r else e :: sweep r
  end.

Definition removeDeletedEntry (ix : t) : t :=
  mk (m_maxPackets ix) (m_size ix) (sweep (m_skipList ix)).

Definition notFound : Z * Name.t := (0%Z, []).

Definition answer (e : Entry.t) : Z * Name.t :=
  (Entry.getId e, Entry.getName e).

(** [Index::getStatus] *)
Definition getStatus (name : Name.t) (ix : t) : status :=
  let l := m_skipList ix in
  match SkipList.deref l (SkipList.lower_bound name l) with
  | None => NONE
  | Some e =>
      if Name.isPrefixOf name (Entry.getName e)
      then Entry.getStatus e else NONE
  end.

(** [Index::hasData], on the full name of the content item. *)
Definition hasDataName (fullName : Name.t) (ix : t) : bool :=
  let l := m_skipList ix in
  match SkipList.deref l (SkipList.find fullName l) with
  | None => false
  | Some e => negb (status_eqb (Entry.getStatus e) DELETED)
  end.

Definition hasData (data : Data.t) (ix : t) : bool :=
  hasDataName (Entry.getName (Entry_of_Data data (-1))) ix.

(** The loop of [Index::findFirstEntry] over the entries from the
    starting point on. *)
Fixpoint findFirstEntry_from (prefix : Name.t) (s : list Entry.t)
    : Z * Name.t :=
  match s with
  | [] => notFound
  | e :: r =>
      if status_eqb (Entry.getStatus e) DELETED
      then findFirstEntry_from prefix r
      else if Name.isPrefixOf prefix (Entry.getName e)
           then answer e else notFound
  end.

Definition findFirstEntry (prefix : Name.t) (startingPoint : nat) (ix : t)
    : Z * Name.t :=
  findFirstEntry_from prefix (skipn startingPoint (m_skipList ix)).

(** [Index::find(const Name&)] *)
Definition findName (name : Name.t) (ix : t) : Z * Name.t :=
  let l := m_skipList ix in
  let result := SkipList.lower_bound name l in
  match SkipList.deref l result with
  | Some _ => findFirstEntry name result ix
  | None => notFound
  end.

(** [while (it != end() && it->getStatus() == DELETED) it++], over the
    entries from [it] on. *)
Fixpoint skipDeleted_from (s : list Entry.t) (it : nat) : nat :=
  match s with
  | [] => it
  | e :: r =>
      if status_eqb (Entry.getStatus e) DELETED
      then skipDeleted_from r (S it) else it
  end.

Definition skipDeleted (l : SkipList.t) (it : nat) : nat :=
  skipDeleted_from (skipn it l) it.

(** [std::find_if(first, last, pred)], over the entries from [first] on;
    walking past [end()] before reaching [last] dereferences [end()]. *)
Fixpoint find_if_from (pred : Entry.t -> M bool) (s : list Entry.t)
    (first last : nat) : M nat :=
  if (first =? last)%nat then Ret last else
  match s with
  | [] => Undef EndDereference
  | e :: r =>
      b <- pred e ;;
      if b then Ret first else find_if_from pred r (S first) last
  end.

Definition find_if (pred : Entry.t -> M bool) (l : SkipList.t)
    (first last : nat) : M nat :=
  find_if_from pred (skipn first l) first last.

(** The leftmost branch of [selectChild]: the [for] loop over the entries
    from the starting point on, and the [return] after it. *)
Fixpoint leftmost_from (interest : Interest.t) (hash : ConstBufferPtr)
    (s : list Entry.t) : M (Z * Name.t) :=
  match s with
  | [] => Ret notFound
  | e :: r =>
      if status_eqb (Entry.getStatus e) DELETED
      then leftmost_from interest hash r
      else if negb (Name.isPrefixOf (Interest.getName interest)
                      (Entry.getName e))
      then Ret notFound
      else
        b <- matchesSimpleSelectors interest hash e ;;
        if b then Ret (answer e) else leftmost_from interest hash r
  end.

(** One turn of the [while (true)] loop of the rightmost branch: either
    the value it returns, or the new [last]. *)
Definition rightmost_turn (interest : Interest.t) (hash : ConstBufferPtr)
    (l : SkipList.t) (boundary last : nat) : M ((Z * Name.t) + nat) :=
  match last with
  | O => Undef BeginDecrement
  | S prev =>
      match SkipList.deref l prev with
      | None => Undef EndDereference
      | Some p =>
          if (prev =? boundary)%nat
             && negb (status_eqb (Entry.getStatus p) DELETED)
          then
            isMatch <- matchesSimpleSelectors interest hash p ;;
            if isMatch then Ret (inl (answer p)) else Ret (inl notFound)
          else
            let first :=
              skipDeleted l
                (SkipList.lower_bound
                   (Name.getPrefix
                      (Z.of_nat (Name.size (Interest.getName interest)) + 1)
                      (Entry.getName p)) l) in
            m <- find_if (matchesSimpleSelectors interest hash) l first last ;;
            if negb (m =? last)%nat
            then match SkipList.deref l m with
                 | Some e => Ret (inl (answer e))
                 | None => Undef EndDereference
                 end
            else Ret (inr first)
      end
  end.

(** The loop itself; [None] when [fuel] turns were not enough. *)
Fixpoint rightmost_loop (fuel : nat) (interest : Interest.t)
    (hash : ConstBufferPtr) (l : SkipList.t) (boundary last : nat)
    : option (M (Z * Name.t)) :=
  match fuel with
  | O => None
  | S fuel' =>
      match rightmost_turn interest hash l boundary last with
      | Undef u => Some (Undef u)
      | Ret (inl r) => Some (Ret r)
      | Ret (inr last') =>
          rightmost_loop fuel' interest hash l boundary last'
      end
  end.

(** The local [hash] of [selectChild]: the digest of the publisher key
    locator of the interest, left null when the interest has none. *)
Definition publisherHash (interest : Interest.t) : ConstBufferPtr :=
  if negb (keyLocator_empty (Interest.getPublisherPublicKeyLocator interest))
  then Some (sha256 (wireEncode (Interest.getPublisherPublicKeyLocator interest)))
  else None.

(** [Index::selectChild] *)
Definition selectChild (fuel : nat) (interest : Interest.t)
    (startingPoint : nat) (ix : t) : option (M (Z * Name.t)) :=
  let l := m_skipList ix in
  let isLeftmost := (Interest.getChildSelector interest <=? 0)%Z in
  let hash := publisherHash interest in
  if isLeftmost
  then Some (leftmost_from interest hash (skipn startingPoint l))
  else
    let boundary :=
      skipDeleted l (SkipList.lower_bound (Interest.getName interest) l) in
    match SkipList.deref l boundary with
    | None => Some (Ret notFound)
    | Some b =>
        if negb (Name.isPrefixOf (Interest.getName interest) (Entry.getName b))
        then Some (Ret notFound)
        else
          let last :=
            skipDeleted l
              (if (Name.size (Interest.getName interest) =? 0)%nat
               then SkipList.end_ l
               else SkipList.lower_bound
                      (Name.getSuccessor (Interest.getName interest)) l) in
          rightmost_loop fuel interest hash l boundary last
    end.

(** [Index::find(const Interest&)] *)
Definition find (fuel : nat) (interest : Interest.t) (ix : t)
    : option (M (Z * Name.t)) :=
  let l := m_skipList ix in
  let result := SkipList.lower_bound (Interest.getName interest) l in
  match SkipList.deref l result with
  | Some _ => selectChild fuel interest result ix
  | None => Some (Ret notFound)
  end.

End WithExternal.
End Index.

(** ** The specification's words

    The predicates and oracles of the specification, written from its
    sentences, against which the functions above are compared. *)
Module Spec.
Section WithExternal.
Context {ext : External}.

(** Section 4.3, bare-name find: a live entry whose name has the queried
    name as a prefix. *)
Definition liveDescendant (name : Name.t) (e : Entry.t) : bool :=
  negb (Entry.isDeleted e) && Name.isPrefixOf name (Entry.getName e).

(** Section 4.3, getStatus: an entry, live or not, whose name has the
    queried name as a prefix. *)
Definition descendant (name : Name.t) (e : Entry.t) : bool :=
  Name.isPrefixOf name (Entry.getName e).

(** Section 4.3, selector resolution, step 1: the simple-selector
    predicate.  A negative bound is no bound; an entry without a key
    locator hash has no hash equal to a digest. *)
Definition satisfies (interest : Interest.t) (e : Entry.t) : bool :=
  let name := Interest.getName interest in
  let suffixLen :=
    (Z.of_nat (length (Entry.getName e)) - Z.of_nat (length name))%Z in
  negb (Entry.isDeleted e)
  && Name.isPrefixOf name (Entry.getName e)
  && ((Interest.getMinSuffixComponents interest <? 0)%Z
      || (Interest.getMinSuffixComponents interest <=? suffixLen)%Z)
  && ((Interest.getMaxSuffixComponents interest <? 0)%Z
      || (suffixLen <=? Interest.getMaxSuffixComponents interest)%Z)
  && negb (match nth_error (Entry.getName e) (length name) with
           | Some c => Exclude.isExcluded c (Interest.getExclude interest)
           | None => false
           end)
  && (if keyLocator_empty (Interest.getPublisherPublicKeyLocator interest)
      then true
      else match Entry.getKeyLocatorHash e with
           | Some h =>
               buffer_eqb h
                 (sha256 (wireEncode
                            (Interest.getPublisherPublicKeyLocator interest)))
           | None => false
           end).

(** The tests of [matchesSimpleSelectors] that come before the publisher
    filter: the entry is live, under the query name, within the suffix
    bounds and not excluded. *)
Definition reachesPublisherFilter (interest : Interest.t) (e : Entry.t)
    : bool :=
  let name := Interest.getName interest in
  let suffixLen :=
    (Z.of_nat (length (Entry.getName e)) - Z.of_nat (length name))%Z in
  negb (Entry.isDeleted e)
  && Name.isPrefixOf name (Entry.getName e)
  && ((Interest.getMinSuffixComponents interest <? 0)%Z
      || (Interest.getMinSuffixComponents interest <=? suffixLen)%Z)
  && ((Interest.getMaxSuffixComponents interest <? 0)%Z
      || (suffixLen <=? Interest.getMaxSuffixComponents interest)%Z)
  && negb (match nth_error (Entry.getName e) (length name) with
           | Some c => Exclude.isExcluded c (Interest.getExclude interest)
           | None => false
           end).

(** The results that are sound for an interest on a container: the
    not-found pair, or the pair of a stored entry that satisfies the
    simple selectors. *)
Definition sound (interest : Interest.t) (l : SkipList.t) (r : Z * Name.t)
    : Prop :=
  r = Index.notFound
  \/ exists e, In e l /\ r = Index.answer e /\ satisfies interest e = true.

(** The interest names no publisher, or every entry of the container
    carries a key locator hash. *)
Definition hashes_present (interest : Interest.t) (l : SkipList.t) : Prop :=
  keyLocator_empty (Interest.getPublisherPublicKeyLocator interest) = true
  \/ forall e, In e l -> Entry.getKeyLocatorHash e <> None.

(** The first entry of a list in canonical order that passes a test, as
    the pair that find returns. *)
Definition firstOf (f : Entry.t -> bool) (l : SkipList.t) : Z * Name.t :=
  match List.find f l with
  | Some e => Index.answer e
  | None => Index.notFound
  end.

(** What a find of the specification's kind asserts of its result. *)
Definition least_of (f : Entry.t -> bool) (l : SkipList.t)
    (result : Z * Name.t) : Prop :=
  (exists e, In e l /\ f e = true /\
     (forall x, In x l -> f x = true ->
                Name.compare (Entry.getName e) (Entry.getName x) <> Gt) /\
     result = (Entry.getId e, Entry.getName e))
  \/ ((forall x, In x l -> f x = false) /\ result = (0%Z, [])).

(** What getStatus of the specification's kind asserts of its result. *)
Definition status_of_first (f : Entry.t -> bool) (l : SkipList.t)
    (result : status) : Prop :=
  (exists e, In e l /\ f e = true /\
     (forall x, In x l -> f x = true ->
                Name.compare (Entry.getName e) (Entry.getName x) <> Gt) /\
     result = Entry.getStatus e)
  \/ ((forall x, In x l -> f x = false) /\ result = NONE).

(** Section 3: the size is the number of entries that are not DELETED, and
    never above the configured maximum. *)
Definition size_invariant (ix : Index.t) : Prop :=
  Index.size ix = Z.of_nat (SkipList.liveCount (Index.m_skipList ix))
  /\ (Index.size ix <= Index.m_maxPackets ix)%Z.

(** Section 4.3, step 4: the reference oracle of rightmost resolution, a
    full reverse scan for the last satisfying entry. *)
Definition lastOf (f : Entry.t -> bool) (l : SkipList.t) : Z * Name.t :=
  firstOf f (rev l).

(** The subtree of an immediate child of the query name that an entry
    lies in: its name cut one component below the query name. *)
Definition childOf (interest : Interest.t) (e : Entry.t) : Name.t :=
  firstn (S (length (Interest.getName interest))) (Entry.getName e).

(** An entry on which the publisher filter reads a hash that is not
    there: the interest names a publisher, and the entry passes every test
    that comes before the filter and carries no key locator hash. *)
Definition readsAbsentHash (interest : Interest.t) (e : Entry.t) : bool :=
  reachesPublisherFilter interest e
  && negb (keyLocator_empty (Interest.getPublisherPublicKeyLocator interest))
  && match Entry.getKeyLocatorHash e with
     | None => true
     | Some _ => false
     end.

(** Rightmost resolution, read as the first match of the rightmost child:
    the entry that is least in canonical order among the satisfying
    entries of the greatest child subtree that holds a satisfying
    entry. *)
Definition firstOfRightmostChild (interest : Interest.t) (l : SkipList.t)
    (r : Entry.t) : Prop :=
  In r l /\ satisfies interest r = true /\
  (forall x, In x l -> satisfies interest x = true ->
             Name.compare (childOf interest x) (childOf interest r) <> Gt) /\
  (forall x, In x l -> satisfies interest x = true ->
             childOf interest x = childOf interest r ->
             Name.compare (Entry.getName r) (Entry.getName x) <> Gt).

(** What a rightmost find of that reading asserts of its result. *)
Definition rightmostResult (interest : Interest.t) (l : SkipList.t)
    (result : Z * Name.t) : Prop :=
  (result = Index.notFound
   /\ forall x, In x l -> satisfies interest x = false)
  \/ exists r, firstOfRightmostChild interest l r /\ result = Index.answer r.

(** The first entry, live or not, of its child subtree. *)
Definition firstOfChild (interest : Interest.t) (l : SkipList.t)
    (y : Entry.t) : Prop :=
  forall z, In z l -> childOf interest z = childOf interest y ->
            Name.compare (Entry.getName y) (Entry.getName z) <> Gt.

(** Every child subtree under the query name that comes after the entry
    [t] and is not its own starts with an entry that is not DELETED. *)
Definition laterChildrenStartLive (interest : Interest.t) (l : SkipList.t)
    (t : Entry.t) : Prop :=
  forall y, In y l -> descendant (Interest.getName interest) y = true ->
    Name.compare (Entry.getName t) (Entry.getName y) = Lt ->
    childOf interest y <> childOf interest t ->
    firstOfChild interest l y ->
    Entry.isDeleted y = false.

(** The entry that ends the window of the query name, the first one at or
    after the successor of the name, is not DELETED. *)
Definition windowEndsLive (interest : Interest.t) (l : SkipList.t) : Prop :=
  forall y, In y l -> Interest.getName interest <> [] ->
    Name.compare (Entry.getName y)
      (Name.getSuccessor (Interest.getName interest)) <> Lt ->
    (forall z, In z l ->
       Name.compare (Entry.getName z)
         (Name.getSuccessor (Interest.getName interest)) <> Lt ->
       Name.compare (Entry.getName y) (Entry.getName z) <> Gt) ->
    Entry.isDeleted y = false.

(** The entries that the windows of the rightmost loop hold before the
    entry [r]: those before it in its child subtree, and those after it
    in another one. *)
Definition scannedBefore (interest : Interest.t) (r x : Entry.t) : Prop :=
  (childOf interest x = childOf interest r
   /\ Name.compare (Entry.getName x) (Entry.getName r) = Lt)
  \/ (childOf interest x <> childOf interest r
      /\ Name.compare (Entry.getName r) (Entry.getName x) = Lt).

End WithExternal.
End Spec.

(** A stand-in for the collaborators, to run the index on examples: a key
    locator is its own encoding and the digest is the identity. *)
Definition plain : External := {|
  KeyLocator := Buffer;
  keyLocator_empty := fun k => match k with [] => true | _ => false end;
  wireEncode := fun k => k;
  sha256 := fun b => b
|}.

(** ** Names and runs used as examples *)

Module Scenario.

(** /a, /a/1, /a/2, /a/3, /a/1/x, /a/1/y, /a/b and /b *)
Definition a : Name.t := [[x61]].
Definition a1 : Name.t := [[x61]; [x31]].
Definition a2 : Name.t := [[x61]; [x32]].
Definition a3 : Name.t := [[x61]; [x33]].
Definition a1x : Name.t := [[x61]; [x31]; [x78]].
Definition a1y : Name.t := [[x61]; [x31]; [x79]].
Definition ab : Name.t := [[x61]; [x62]].
Definition b : Name.t := [[x62]].

(** The state a call leaves, whether it returns or throws. *)
Definition after (o : Outcome Index.t bool) : Index.t :=
  match o with
  | Returns _ ix => ix
  | Throws _ ix => ix
  end.

(** insert(/a, 1); insert(/a/b, 2); erase(/a); removeDeletedEntry() on an
    index of capacity 10. *)
Definition erased_parent : Index.t :=
  after (Index.erase a
    (after (Index.insertName ab 2 None
      (after (Index.insertName a 1 None (Index.Index 10)))))).

Definition pruned_parent : Index.t := Index.removeDeletedEntry erased_parent.

(** Inserting names one after the other, each with its id and no hash;
    [None] as soon as an insert does not return true. *)
Fixpoint insertAll (items : list (Name.t * Z)) (ix : Index.t)
    : option Index.t :=
  match items with
  | [] => Some ix
  | (name, id) :: rest =>
      match Index.insertName name id None ix with
      | Returns true ix' => insertAll rest ix'
      | _ => None
      end
  end.

(** insert(/a, 1) on an index of capacity 1, then erase(/a), then
    erase(/a) again. *)
Definition full_one : Index.t :=
  after (Index.insertName a 1 None (Index.Index 1)).

Definition erased_once : Index.t := after (Index.erase a full_one).

Definition erased_twice : Index.t := after (Index.erase a erased_once).

(** A key locator, and what the index reads of two content items: /a/1
    under a signature without key locator, /a/2 signed under the key
    locator. *)
Definition locator : @KeyLocator plain := [x4b].
Definition no_locator : @KeyLocator plain := [].
Definition unsigned_a1 : @Data.t plain := @Data.mk plain a1 None.
Definition signed_a2 : @Data.t plain := @Data.mk plain a2 (Some locator).

(** insert(unsigned /a/1, 1) on an index of capacity 10, and then
    insert(signed /a/2, 2). *)
Definition unsigned_only : Index.t :=
  after (Index.insert unsigned_a1 1 (Index.Index 10)).

Definition unsigned_then_signed : Index.t :=
  after (Index.insert signed_a2 2 unsigned_only).

(** Interests on /a without bounds and without exclude: for the leftmost
    child with the publisher key locator, and for the rightmost child
    without one. *)
Definition by_publisher : @Interest.t plain :=
  @Interest.mk plain a (-1) (-1) [] 0 locator.

Definition rightmost : @Interest.t plain :=
  @Interest.mk plain a (-1) (-1) [] 1 no_locator.

(** insert(/a/1, 1); insert(/a/2, 2); erase(/a/2) on an index of capacity
    10. *)
Definition trailing_tombstone : Index.t :=
  after (Index.erase a2
    (after (Index.insertName a2 2 None
      (after (Index.insertName a1 1 None (Index.Index 10)))))).

(** insert(/a/1, 1); insert(/a/2, 2); insert(/a/3, 3) on an index of
    capacity 10. *)
Definition three_children : Index.t :=
  after (Index.insertName a3 3 None
    (after (Index.insertName a2 2 None
      (after (Index.insertName a1 1 None (Index.Index 10)))))).

(** Interests on /a: for the leftmost child, and for the rightmost child
    with at least five components below /a. *)
Definition leftmost : @Interest.t plain :=
  @Interest.mk plain a (-1) (-1) [] 0 no_locator.

Definition rightmost_deep : @Interest.t plain :=
  @Interest.mk plain a 5 (-1) [] 1 no_locator.

(** insert(/a/1/x, 1); insert(/a/1/y, 2) on an index of capacity 10. *)
Definition one_subtree : Index.t :=
  after (Index.insertName a1y 2 None
    (after (Index.insertName a1x 1 None (Index.Index 10)))).

(** /0 under a signature without key locator and /a/1 signed under the
    key locator: insert(unsigned /0, 1); insert(signed /a/1, 2) on an
    index of capacity 10. *)
Definition zero : Name.t := [[x30]].
Definition unsigned_zero : @Data.t plain := @Data.mk plain zero None.
Definition signed_a1 : @Data.t plain := @Data.mk plain a1 (Some locator).

Definition unsigned_outside : Index.t :=
  after (Index.insert signed_a1 2
    (after (Index.insert unsigned_zero 1 (Index.Index 10)))).

(** Interests on /a for the rightmost child: with the publisher key
    locator, and with the key locator of another publisher. *)
Definition other_locator : @KeyLocator plain := [x4c].

Definition rightmost_by_publisher : @Interest.t plain :=
  @Interest.mk plain a (-1) (-1) [] 1 locator.

Definition rightmost_by_other : @Interest.t plain :=
  @Interest.mk plain a (-1) (-1) [] 1 other_locator.

End Scenario.


(** ** Reachable states

    The states of an index: what the constructor gives, and what insert
    (either overload, by the entry it builds), erase and
    removeDeletedEntry leave, whether they return or throw. *)
Inductive reachable : Index.t -> Prop :=
| reachable_Index (nMaxPackets : Z) :
    reachable (Index.Index nMaxPackets)
| reachable_insert (e : Entry.t) (ix : Index.t) :
    reachable ix -> reachable (Scenario.after (Index.insertEntry e ix))
| reachable_erase (name : Name.t) (ix : Index.t) :
    reachable ix -> reachable (Scenario.after (Index.erase name ix))
| reachable_removeDeletedEntry (ix : Index.t) :
    reachable ix -> reachable (Index.removeDeletedEntry ix).

(** * Properties *)

(** ** The canonical order *)

Module ComponentFacts.

Import Component.

Lemma byte_compare_eq (a b : byte) : byte_compare a b = Eq <-> a = b.
Proof.
  unfold byte_compare. rewrite N.compare_eq_iff. split.
  - intros H.
    assert (E : Byte.of_N (Byte.to_N a) = Byte.of_N (Byte.to_N b))
      by (now rewrite H).
    rewrite !Byte.of_to_N in E. now inversion E.
  - now intros ->.
Qed.

Lemma byte_compare_antisym (a b : byte) :
  byte_compare b a = CompOpp (byte_compare a b).
Proof. unfold byte_compare. apply N.compare_antisym. Qed.

Lemma byte_compare_trans (a b d : byte) (c : comparison) :
  byte_compare a b = c -> byte_compare b d = c -> byte_compare a d = c.
Proof.
  unfold byte_compare. destruct c; intros H1 H2.
  - apply N.compare_eq_iff in H1, H2. apply N.compare_eq_iff. congruence.
  - rewrite N.compare_lt_iff in *. lia.
  - rewrite N.compare_gt_iff in *. lia.
Qed.

Lemma component_compare_eq (a b : t) : compare a b = Eq <-> a = b.
Proof.
  unfold compare. split.
  - destruct (Nat.compare_spec (length a) (length b)); try discriminate.
    apply (list_compare_refl _ byte_compare_eq).
  - intros ->. rewrite Nat.compare_refl.
    now apply (list_compare_refl _ byte_compare_eq).
Qed.

Lemma component_compare_antisym (a b : t) : compare b a = CompOpp (compare a b).
Proof.
  unfold compare. rewrite (Nat.compare_antisym (length a) (length b)).
  destruct (Nat.compare (length a) (length b)); simpl; auto.
  apply list_compare_antisym.
  - apply byte_compare_eq.
  - apply byte_compare_antisym.
Qed.

Lemma component_compare_trans (a b d : t) (c : comparison) :
  compare a b = c -> compare b d = c -> compare a d = c.
Proof.
  unfold compare.
  destruct (Nat.compare_spec (length a) (length b)) as [E1|L1|G1];
    destruct (Nat.compare_spec (length b) (length d)) as [E2|L2|G2];
    destruct (Nat.compare_spec (length a) (length d)) as [E3|L3|G3];
    try lia; intros H1 H2; try congruence.
  eapply list_compare_trans; eauto.
  - apply byte_compare_eq.
  - apply byte_compare_trans.
  - apply byte_compare_antisym.
Qed.

Lemma component_equals_true (a b : t) : equals a b = true <-> a = b.
Proof.
  unfold equals. rewrite <- component_compare_eq.
  destruct (compare a b); split; congruence.
Qed.

Lemma to_N_byte_succ (b : byte) :
  Byte.to_N (byte_succ b) = ((Byte.to_N b + 1) mod 256)%N.
Proof.
  unfold byte_succ.
  destruct (Byte.of_N ((Byte.to_N b + 1) mod 256)) as [b'|] eqn:E.
  - now apply Byte.to_of_N.
  - apply Byte.of_N_None_iff in E.
    pose proof (N.mod_upper_bound (Byte.to_N b + 1) 256). lia.
Qed.

Lemma increment_length (c : t) : length (fst (increment c)) = length c.
Proof.
  induction c as [|b r IH]; simpl; auto.
  destruct (increment r) as [r' o]; simpl in *.
  destruct o; simpl; congruence.
Qed.

Lemma increment_lt (c : t) :
  snd (increment c) = false ->
  list_compare byte_compare c (fst (increment c)) = Lt.
Proof.
  induction c as [|b r IH]; simpl; [discriminate|].
  destruct (increment r) as [r' o]; simpl in *.
  destruct o; simpl.
  - intros Hz. unfold is_zero in Hz. apply N.eqb_neq in Hz.
    rewrite to_N_byte_succ in Hz.
    assert (Hlt : byte_compare b (byte_succ b) = Lt).
    { unfold byte_compare. rewrite to_N_byte_succ. apply N.compare_lt_iff.
      pose proof (Byte.to_N_bounded b).
      destruct (N.eq_dec (Byte.to_N b) 255) as [E|E].
      - rewrite E in Hz. now compute in Hz.
      - rewrite N.mod_small by lia. lia. }
    now rewrite Hlt.
  - intros _.
    rewrite (proj2 (byte_compare_eq b b) eq_refl). auto.
Qed.

(** The successor of a component is greater than the component. *)
Lemma compare_getSuccessor (c : t) : compare c (getSuccessor c) = Lt.
Proof.
  unfold compare, getSuccessor.
  pose proof (increment_length c) as HL.
  pose proof (increment_lt c) as HI.
  destruct (increment c) as [c' o]; simpl in *.
  destruct o.
  - rewrite length_app, HL. simpl.
    destruct (Nat.compare_spec (length c) (length c + 1)); auto; lia.
  - rewrite HL, Nat.compare_refl. auto.
Qed.

End ComponentFacts.

Module NameFacts.

Import Name.

Lemma compare_eq (a b : t) : compare a b = Eq <-> a = b.
Proof. apply list_compare_refl, ComponentFacts.component_compare_eq. Qed.

Lemma compare_refl (a : t) : compare a a = Eq.
Proof. now apply compare_eq. Qed.

Lemma compare_antisym (a b : t) : compare b a = CompOpp (compare a b).
Proof.
  apply list_compare_antisym.
  - apply ComponentFacts.component_compare_eq.
  - apply ComponentFacts.component_compare_antisym.
Qed.

Lemma compare_trans (a b d : t) (c : comparison) :
  compare a b = c -> compare b d = c -> compare a d = c.
Proof.
  apply list_compare_trans.
  - apply ComponentFacts.component_compare_eq.
  - apply ComponentFacts.component_compare_trans.
  - apply ComponentFacts.component_compare_antisym.
Qed.

Lemma gt_lt (a b : t) : compare a b = Gt <-> compare b a = Lt.
Proof.
  rewrite (compare_antisym a b). destruct (compare a b); simpl; split; congruence.
Qed.

Lemma lt_irrefl (a : t) : compare a a <> Lt.
Proof. rewrite compare_refl. discriminate. Qed.

Lemma le_lt_trans (a b d : t) :
  compare a b <> Gt -> compare b d = Lt -> compare a d = Lt.
Proof.
  intros H1 H2. destruct (compare a b) eqn:E; try congruence.
  - apply compare_eq in E. now subst.
  - eapply compare_trans; eauto.
Qed.

Lemma lt_le_trans (a b d : t) :
  compare a b = Lt -> compare b d <> Gt -> compare a d = Lt.
Proof.
  intros H1 H2. destruct (compare b d) eqn:E; try congruence.
  - apply compare_eq in E. now subst.
  - eapply compare_trans; eauto.
Qed.

Lemma le_trans (a b d : t) :
  compare a b <> Gt -> compare b d <> Gt -> compare a d <> Gt.
Proof.
  intros H1 H2. destruct (compare b d) eqn:E; try congruence.
  - apply compare_eq in E. now subst.
  - rewrite (le_lt_trans _ _ _ H1 E). discriminate.
Qed.

Lemma le_antisym (a b : t) :
  compare a b <> Gt -> compare b a <> Gt -> a = b.
Proof.
  intros H1 H2. rewrite (compare_antisym a b) in H2.
  apply compare_eq. destruct (compare a b); simpl in *; congruence.
Qed.

Lemma ltb_true (a b : t) : ltb a b = true <-> compare a b = Lt.
Proof. unfold ltb. destruct (compare a b); split; congruence. Qed.

Lemma ltb_false (a b : t) : ltb a b = false <-> compare a b <> Lt.
Proof. unfold ltb. destruct (compare a b); split; congruence. Qed.

Lemma equals_true (a b : t) : equals a b = true <-> a = b.
Proof.
  unfold equals. rewrite <- compare_eq.
  destruct (compare a b); split; congruence.
Qed.

Lemma equals_refl (a : t) : equals a a = true.
Proof. now apply equals_true. Qed.

(** The prefix test is leading-subsequence containment. *)
Lemma isPrefixOf_iff (p x : t) :
  isPrefixOf p x = true <-> exists s, x = p ++ s.
Proof.
  revert x. induction p as [|a p IH]; intros x; simpl.
  - split; eauto.
  - destruct x as [|b x].
    + split; [discriminate | intros [s Hs]; discriminate].
    + rewrite andb_true_iff, ComponentFacts.component_equals_true, IH. split.
      * intros [-> [s ->]]. now exists s.
      * intros [s Hs]. inversion Hs; subst. eauto.
Qed.

Lemma isPrefixOf_refl (p : t) : isPrefixOf p p = true.
Proof. apply isPrefixOf_iff. exists []. now rewrite app_nil_r. Qed.

Lemma isPrefixOf_app (p s : t) : isPrefixOf p (p ++ s) = true.
Proof. apply isPrefixOf_iff. eauto. Qed.

Lemma isPrefixOf_firstn (k : nat) (x : t) : isPrefixOf (firstn k x) x = true.
Proof. apply isPrefixOf_iff. exists (skipn k x). now rewrite firstn_skipn. Qed.

Lemma isPrefixOf_length (p x : t) :
  isPrefixOf p x = true -> (length p <= length x)%nat.
Proof.
  intros H. apply isPrefixOf_iff in H as [s ->]. rewrite length_app. lia.
Qed.

Lemma compare_app (p a b : t) : compare (p ++ a) (p ++ b) = compare a b.
Proof. apply list_compare_app, ComponentFacts.component_compare_eq. Qed.

(** A name is not below any of its prefixes. *)
Lemma prefix_le (p x : t) : isPrefixOf p x = true -> compare p x <> Gt.
Proof.
  intros H. apply isPrefixOf_iff in H as [s ->].
  rewrite <- (app_nil_r p) at 1. rewrite compare_app.
  destruct s; simpl; discriminate.
Qed.

Lemma lt_not_prefix (p x : t) : compare x p = Lt -> isPrefixOf p x = false.
Proof.
  intros H. destruct (isPrefixOf p x) eqn:E; auto.
  apply prefix_le in E. apply gt_lt in H. congruence.
Qed.

(** The names under a prefix form an interval of the canonical order. *)
Lemma prefix_interval (q y d : t) :
  compare q y <> Gt -> compare y d <> Gt ->
  isPrefixOf q d = true -> isPrefixOf q y = true.
Proof.
  revert y d. induction q as [|a q IH]; intros y d H1 H2 H3; auto.
  destruct d as [|b d]; [discriminate|]. simpl in H3.
  apply andb_true_iff in H3 as [Hab H3].
  apply ComponentFacts.component_equals_true in Hab. subst b.
  destruct y as [|c y]; [now elim H1|].
  unfold compare in H1, H2. simpl in H1, H2. simpl.
  rewrite (ComponentFacts.component_compare_antisym a c) in H2.
  destruct (Component.compare a c) eqn:E; simpl in *; try congruence.
  apply ComponentFacts.component_compare_eq in E. subst c.
  rewrite (proj2 (ComponentFacts.component_equals_true a a) eq_refl). simpl.
  eapply IH; eauto.
Qed.

Lemma getPrefix_firstn (n : nat) (x : t) :
  getPrefix (Z.of_nat n) x = firstn n x.
Proof.
  unfold getPrefix. destruct (Z.ltb_spec (Z.of_nat n) 0); [lia|].
  now rewrite Nat2Z.id.
Qed.

Lemma getPrefix_size_succ (q x : t) :
  getPrefix (Z.of_nat (size q) + 1) x = firstn (S (size q)) x.
Proof.
  replace (Z.of_nat (size q) + 1)%Z with (Z.of_nat (S (size q))) by lia.
  apply getPrefix_firstn.
Qed.

Lemma getSuccessor_snoc (p : t) (c : Component.t) :
  getSuccessor (p ++ [c]) = p ++ [Component.getSuccessor c].
Proof.
  unfold getSuccessor, getPrefix.
  destruct (p ++ [c]) eqn:E; [now destruct p|]. rewrite <- E. simpl.
  rewrite last_last, length_app. simpl.
  replace (Z.to_nat (Z.of_nat (length p + 1) + -1)) with (length p + 0)%nat
    by lia.
  rewrite firstn_app_2. simpl. now rewrite app_nil_r.
Qed.

(** Every name under a non-empty prefix is below the successor of the
    prefix. *)
Lemma prefix_lt_getSuccessor (q x : t) :
  q <> [] -> isPrefixOf q x = true -> compare x (getSuccessor q) = Lt.
Proof.
  intros Hq H. apply isPrefixOf_iff in H as [s ->].
  destruct (exists_last Hq) as [p [c ->]].
  rewrite getSuccessor_snoc, <- app_assoc, compare_app.
  unfold compare. simpl. now rewrite ComponentFacts.compare_getSuccessor.
Qed.

End NameFacts.

(** ** The container *)

Module SkipListFacts.

Import SkipList.

Lemma sorted_cons (e : Entry.t) (r : t) :
  sorted (e :: r) <->
  (forall x, In x r -> Name.compare (Entry.getName e) (Entry.getName x) = Lt) /\ sorted r.
Proof.
  unfold sorted. simpl. rewrite andb_true_iff, forallb_forall.
  split; intros [H1 H2]; split; auto; intros x Hx.
  - now apply NameFacts.ltb_true, H1.
  - now apply NameFacts.ltb_true, H1.
Qed.

Lemma sorted_nil : sorted [].
Proof. reflexivity. Qed.

Lemma sorted_nth (l : t) :
  sorted l -> forall i j a b, (i < j)%nat ->
  nth_error l i = Some a -> nth_error l j = Some b ->
  Name.compare (Entry.getName a) (Entry.getName b) = Lt.
Proof.
  induction l as [|e r IH]; intros Hs i j a b Hij Ha Hb.
  - now destruct i.
  - apply sorted_cons in Hs as [Hlt Hs].
    destruct j as [|j]; [lia|]. simpl in Hb.
    destruct i as [|i]; simpl in Ha.
    + inversion Ha; subst. eapply Hlt, nth_error_In; eauto.
    + eapply (IH Hs i j); eauto. lia.
Qed.

Lemma sorted_name_inj (l : t) :
  sorted l -> forall a b, In a l -> In b l -> Entry.getName a = Entry.getName b -> a = b.
Proof.
  induction l as [|e r IH]; intros Hs a b Ha Hb E; [easy|].
  apply sorted_cons in Hs as [Hlt Hs].
  destruct Ha as [<-|Ha], Hb as [<-|Hb]; auto.
  - specialize (Hlt _ Hb). rewrite E, NameFacts.compare_refl in Hlt. easy.
  - specialize (Hlt _ Ha). rewrite E, NameFacts.compare_refl in Hlt. easy.
Qed.

(** *** lower_bound *)

Lemma lower_bound_le (k : Name.t) (l : t) : (lower_bound k l <= length l)%nat.
Proof.
  induction l as [|e r IH]; simpl; auto.
  destruct (Name.ltb (Entry.getName e) k); lia.
Qed.

Lemma lower_bound_before (k : Name.t) (l : t) :
  forall i e, (i < lower_bound k l)%nat -> nth_error l i = Some e ->
  Name.compare (Entry.getName e) k = Lt.
Proof.
  induction l as [|x r IH]; simpl; intros i e Hi He; [lia|].
  destruct (Name.ltb (Entry.getName x) k) eqn:E; [|lia].
  destruct i as [|i]; simpl in He.
  - inversion He; subst. now apply NameFacts.ltb_true.
  - apply (IH i); auto. lia.
Qed.

Lemma lower_bound_after (k : Name.t) (l : t) :
  sorted l ->
  forall i e, (lower_bound k l <= i)%nat -> nth_error l i = Some e ->
  Name.compare (Entry.getName e) k <> Lt.
Proof.
  induction l as [|x r IH]; simpl; intros Hs i e Hi He; [now destruct i|].
  apply sorted_cons in Hs as [Hlt Hs].
  destruct (Name.ltb (Entry.getName x) k) eqn:E.
  - destruct i as [|i]; [lia|]. simpl in He. apply (IH Hs i); auto. lia.
  - apply NameFacts.ltb_false in E.
    destruct i as [|i]; simpl in He.
    + now inversion He; subst.
    + apply nth_error_In in He. specialize (Hlt _ He). intros C.
      apply E. eapply NameFacts.compare_trans; eauto.
Qed.

(** A position whose name is not below the key is not before the bound. *)
Lemma lower_bound_le_pos (k : Name.t) (l : t) (i : nat) (e : Entry.t) :
  nth_error l i = Some e -> Name.compare (Entry.getName e) k <> Lt ->
  (lower_bound k l <= i)%nat.
Proof.
  intros He Hk. destruct (Nat.le_gt_cases (lower_bound k l) i); auto.
  elim Hk. eapply lower_bound_before; eauto.
Qed.

(** A position whose name is below the key is before the bound. *)
Lemma lower_bound_gt_pos (k : Name.t) (l : t) (i : nat) (e : Entry.t) :
  sorted l -> nth_error l i = Some e -> Name.compare (Entry.getName e) k = Lt ->
  (i < lower_bound k l)%nat.
Proof.
  intros Hs He Hk. destruct (Nat.le_gt_cases (lower_bound k l) i); auto.
  elim (lower_bound_after k l Hs i e); auto.
Qed.

Lemma deref_end (l : t) (it : nat) :
  deref l it = None -> skipn it l = [].
Proof.
  unfold deref. intros H. apply nth_error_None in H. now apply skipn_all2.
Qed.

Lemma deref_skipn (l : t) (it : nat) (e : Entry.t) :
  deref l it = Some e -> exists r, skipn it l = e :: r.
Proof.
  unfold deref. revert it. induction l as [|x l IH]; intros [|it] H;
    simpl in *; try discriminate.
  - inversion H. eauto.
  - auto.
Qed.

(** *** find *)

Lemma find_cons_lt (k : Name.t) (x : Entry.t) (r : t) :
  Name.ltb (Entry.getName x) k = true -> find k (x :: r) = S (find k r).
Proof.
  intros H. unfold find, deref, end_. simpl. rewrite H. simpl.
  destruct (nth_error r (lower_bound k r)); auto.
  now destruct (Name.equals (Entry.getName t0) k).
Qed.

Lemma find_cons_ge (k : Name.t) (x : Entry.t) (r : t) :
  Name.ltb (Entry.getName x) k = false ->
  find k (x :: r) = if Name.equals (Entry.getName x) k then 0%nat else S (length r).
Proof.
  intros H. unfold find, deref, end_. simpl. now rewrite H.
Qed.

Lemma deref_find (k : Name.t) (l : t) : deref l (find k l) = lookup k l.
Proof.
  induction l as [|x r IH]; simpl; auto.
  destruct (Name.ltb (Entry.getName x) k) eqn:E.
  - rewrite find_cons_lt; auto.
  - rewrite find_cons_ge; auto.
    destruct (Name.equals (Entry.getName x) k); auto.
    unfold deref. simpl. apply nth_error_None. lia.
Qed.

Lemma lookup_Some (k : Name.t) (l : t) (e : Entry.t) :
  lookup k l = Some e -> In e l /\ Entry.getName e = k.
Proof.
  induction l as [|x r IH]; simpl; [discriminate|].
  destruct (Name.ltb (Entry.getName x) k).
  - intros H. apply IH in H as []. auto.
  - destruct (Name.equals (Entry.getName x) k) eqn:E; [|discriminate].
    intros H. inversion H; subst. apply NameFacts.equals_true in E. auto.
Qed.

Lemma lookup_In (l : t) (e : Entry.t) :
  sorted l -> In e l -> lookup (Entry.getName e) l = Some e.
Proof.
  induction l as [|x r IH]; intros Hs Hin; [easy|].
  apply sorted_cons in Hs as [Hlt Hs]. simpl.
  destruct Hin as [->|Hin].
  - rewrite (proj2 (NameFacts.ltb_false _ _) (NameFacts.lt_irrefl _)).
    now rewrite NameFacts.equals_refl.
  - rewrite (proj2 (NameFacts.ltb_true _ _) (Hlt _ Hin)). auto.
Qed.

Lemma lookup_None (k : Name.t) (l : t) :
  sorted l -> lookup k l = None -> forall e, In e l -> Entry.getName e <> k.
Proof.
  intros Hs H e Hin E. subst k. rewrite (lookup_In l e Hs Hin) in H. easy.
Qed.

(** On a name that is stored, [lower_bound] is the position of its entry. *)
Lemma deref_lower_bound (l : t) (e : Entry.t) :
  sorted l -> In e l -> deref l (lower_bound (Entry.getName e) l) = Some e.
Proof.
  induction l as [|x r IH]; intros Hs Hin; [easy|].
  apply sorted_cons in Hs as [Hlt Hs]. simpl.
  destruct Hin as [->|Hin].
  - now rewrite (proj2 (NameFacts.ltb_false _ _) (NameFacts.lt_irrefl _)).
  - rewrite (proj2 (NameFacts.ltb_true _ _) (Hlt _ Hin)). now apply IH.
Qed.

(** *** insert and erase *)

Lemma insert_true (e : Entry.t) (l : t) :
  lookup (Entry.getName e) l = None -> snd (insert e l) = true.
Proof.
  induction l as [|x r IH]; simpl; auto.
  rewrite (NameFacts.compare_antisym (Entry.getName x) (Entry.getName e)).
  unfold Name.ltb, Name.equals.
  destruct (Name.compare (Entry.getName x) (Entry.getName e)) eqn:E; simpl;
    try discriminate; auto.
  intros H. specialize (IH H). now destruct (insert e r).
Qed.

Lemma insert_false (e : Entry.t) (l : t) (x : Entry.t) :
  lookup (Entry.getName e) l = Some x -> insert e l = (l, false).
Proof.
  induction l as [|y r IH]; simpl; [discriminate|].
  rewrite (NameFacts.compare_antisym (Entry.getName y) (Entry.getName e)).
  unfold Name.ltb, Name.equals.
  destruct (Name.compare (Entry.getName y) (Entry.getName e)) eqn:E; simpl;
    try discriminate; auto.
  intros H. now rewrite (IH H).
Qed.

Lemma insert_In (e : Entry.t) (l : t) :
  snd (insert e l) = true ->
  forall y, In y (fst (insert e l)) <-> y = e \/ In y l.
Proof.
  induction l as [|x r IH]; simpl.
  - intros _ y. simpl. intuition.
  - destruct (Name.compare (Entry.getName e) (Entry.getName x)); simpl.
    + discriminate.
    + intros _ y. intuition.
    + destruct (insert e r) as [r' b]; simpl in *. intros H y.
      rewrite (IH H y). intuition.
Qed.

Lemma insert_unchanged (e : Entry.t) (l : t) :
  snd (insert e l) = false -> fst (insert e l) = l.
Proof.
  induction l as [|x r IH]; simpl; [discriminate|].
  destruct (Name.compare (Entry.getName e) (Entry.getName x)); simpl; auto.
  - discriminate.
  - destruct (insert e r) as [r' b]; simpl in *. intros H. now rewrite IH.
Qed.

Lemma insert_sorted (e : Entry.t) (l : t) :
  sorted l -> sorted (fst (insert e l)).
Proof.
  induction l as [|x r IH]; intros Hs.
  - reflexivity.
  - simpl. destruct (Name.compare (Entry.getName e) (Entry.getName x)) eqn:E;
      simpl; auto.
    + apply sorted_cons. split; auto. intros y [<-|Hy]; auto.
      apply sorted_cons in Hs as [Hlt _].
      eapply NameFacts.compare_trans; eauto.
    + pose proof (insert_In e r) as HIn.
      pose proof (insert_unchanged e r) as HUn.
      apply sorted_cons in Hs as [Hlt Hs]. specialize (IH Hs).
      destruct (insert e r) as [r' b]; simpl in *.
      apply sorted_cons. split; auto. intros y Hy.
      destruct b.
      * apply (HIn eq_refl) in Hy as [->|Hy]; auto.
        now apply NameFacts.gt_lt.
      * rewrite (HUn eq_refl) in Hy. auto.
Qed.

Lemma erase_In (it : nat) (l : t) (y : Entry.t) :
  In y (erase it l) -> In y l.
Proof.
  revert it. induction l as [|x r IH]; intros it; simpl; auto.
  destruct it as [|it]; simpl; auto. intros [E|H]; eauto.
Qed.

Lemma erase_sorted (it : nat) (l : t) : sorted l -> sorted (erase it l).
Proof.
  revert it. induction l as [|x r IH]; intros it Hs; simpl; auto.
  apply sorted_cons in Hs as [Hlt Hs]. destruct it as [|it]; auto.
  apply sorted_cons. split; auto. intros y Hy. eapply Hlt, erase_In; eauto.
Qed.

(** Erasing the entry of a name and inserting an entry of that name puts
    the new entry in the place of the old one. *)
Lemma erase_insert (e x : Entry.t) (l : t) :
  sorted l -> lookup (Entry.getName e) l = Some x ->
  insert e (erase (find (Entry.getName e) l) l) = (replace e l, true).
Proof.
  induction l as [|y r IH]; intros Hs; simpl; [discriminate|].
  apply sorted_cons in Hs as [Hlt Hs].
  destruct (Name.ltb (Entry.getName y) (Entry.getName e)) eqn:E.
  - intros H. rewrite find_cons_lt by auto. simpl.
    apply NameFacts.ltb_true, NameFacts.gt_lt in E. rewrite E.
    now rewrite (IH Hs H).
  - rewrite find_cons_ge by auto.
    destruct (Name.equals (Entry.getName y) (Entry.getName e)) eqn:Q;
      [|discriminate].
    intros _. simpl. apply NameFacts.equals_true in Q.
    destruct r as [|z r]; auto. simpl.
    rewrite <- Q, (Hlt z) by (now left). reflexivity.
Qed.

Lemma replace_In (e x : Entry.t) (l : t) :
  sorted l -> lookup (Entry.getName e) l = Some x ->
  forall y, In y (replace e l) <-> y = e \/ (In y l /\ y <> x).
Proof.
  induction l as [|z r IH]; intros Hs; simpl; [discriminate|].
  pose proof Hs as Hs0.
  apply sorted_cons in Hs as [Hlt Hs].
  destruct (Name.ltb (Entry.getName z) (Entry.getName e)) eqn:E.
  - intros H y. simpl. rewrite (IH Hs H y).
    apply lookup_Some in H as [Hx Hn].
    assert (z <> x).
    { intros ->. apply NameFacts.ltb_true in E. rewrite Hn in E.
      now apply NameFacts.lt_irrefl in E. }
    intuition congruence.
  - destruct (Name.equals (Entry.getName z) (Entry.getName e)) eqn:Q;
      [|discriminate].
    intros H y. inversion H; subst z. simpl. split.
    + intros [<-|Hy]; auto. right. split; auto. intros ->.
      specialize (Hlt _ Hy). now apply NameFacts.lt_irrefl in Hlt.
    + intros [->|[[<-|Hy] Hne]]; auto. congruence.
Qed.

Lemma replace_sorted (e x : Entry.t) (l : t) :
  sorted l -> lookup (Entry.getName e) l = Some x -> sorted (replace e l).
Proof.
  intros Hs H. pose proof (erase_insert e x l Hs H) as E.
  change (replace e l) with (fst (replace e l, true)). rewrite <- E.
  now apply insert_sorted, erase_sorted.
Qed.

Lemma replace_length (e : Entry.t) (l : t) : length (replace e l) = length l.
Proof.
  induction l as [|z r IH]; simpl; auto.
  destruct (Name.ltb (Entry.getName z) (Entry.getName e)); simpl; auto.
  now destruct (Name.equals (Entry.getName z) (Entry.getName e)).
Qed.

(** *** The sweep of removeDeletedEntry *)

Lemma sweep_In (l : t) (y : Entry.t) :
  In y (Index.sweep l) <-> In y l /\ Entry.isDeleted y = false.
Proof.
  induction l as [|x r IH]; simpl; [tauto|].
  destruct (Entry.isDeleted x) eqn:E; simpl; rewrite IH.
  - intuition congruence.
  - intuition congruence.
Qed.

Lemma sweep_sorted (l : t) : sorted l -> sorted (Index.sweep l).
Proof.
  induction l as [|x r IH]; intros Hs; simpl; auto.
  apply sorted_cons in Hs as [Hlt Hs].
  destruct (Entry.isDeleted x); auto.
  apply sorted_cons. split; auto. intros y Hy.
  apply sweep_In in Hy as [Hy _]. auto.
Qed.

End SkipListFacts.

(** ** The controller *)

Module IndexFacts.

Import SkipList SkipListFacts Index.

Lemma wrap_range (z : Z) : (0 <= wrap z < size_max)%Z.
Proof. unfold wrap, size_max. apply Z.mod_pos_bound. lia. Qed.

Lemma wrap_small (z : Z) : (0 <= z < size_max)%Z -> wrap z = z.
Proof. unfold wrap. apply Z.mod_small. Qed.

Lemma wrap_succ_pred (z : Z) : wrap (wrap (z + 1) - 1) = wrap z.
Proof.
  unfold wrap. rewrite Zminus_mod_idemp_l. f_equal. lia.
Qed.

Lemma wrap_pred_neq (z : Z) : wrap (z - 1) <> z.
Proof.
  intros H. pose proof (wrap_range (z - 1)) as R. rewrite H in R.
  unfold wrap, size_max in *.
  destruct (Z.eq_dec z 0) as [->|Hz]; [now compute in H|].
  rewrite Z.mod_small in H; lia.
Qed.

Lemma setStatus_name (s : status) (e : Entry.t) :
  Entry.getName (Entry.setStatus s e) = Entry.getName e.
Proof. reflexivity. Qed.

(** [insert], by what the container holds under the name. *)
Lemma insertEntry_cases (e : Entry.t) (ix : t) :
  sorted (m_skipList ix) ->
  insertEntry e ix =
    if isFull ix then Throws IndexFull ix
    else match lookup (Entry.getName e) (m_skipList ix) with
         | None =>
             Returns true
               (mk (m_maxPackets ix) (wrap (m_size ix + 1))
                   (fst (SkipList.insert e (m_skipList ix))))
         | Some r =>
             if Entry.isDeleted r
             then Returns true
                    (mk (m_maxPackets ix) (wrap (m_size ix + 1))
                        (replace (Entry.setStatus INSERTED e) (m_skipList ix)))
             else Returns false ix
         end.
Proof.
  intros Hs. unfold insertEntry. destruct (isFull ix); auto.
  rewrite deref_find.
  destruct (lookup (Entry.getName e) (m_skipList ix)) as [r|] eqn:L.
  - unfold Entry.isDeleted.
    destruct (status_eqb (Entry.getStatus r) DELETED); auto.
    rewrite <- (setStatus_name INSERTED e) at 1.
    rewrite (erase_insert (Entry.setStatus INSERTED e) r); auto.
  - pose proof (insert_true e _ L) as HT.
    destruct (SkipList.insert e (m_skipList ix)) as [l' b]; simpl in *.
    now subst b.
Qed.

(** [erase], by what the container holds under the name. *)
Lemma erase_cases (name : Name.t) (ix : t) :
  sorted (m_skipList ix) ->
  erase name ix =
    match lookup name (m_skipList ix) with
    | Some found =>
        Returns true
          (mk (m_maxPackets ix) (wrap (m_size ix - 1))
              (replace (Entry.setStatus DELETED found) (m_skipList ix)))
    | None => Returns false ix
    end.
Proof.
  intros Hs. unfold erase. rewrite deref_find.
  destruct (lookup name (m_skipList ix)) as [found|] eqn:L; auto.
  pose proof (lookup_Some _ _ _ L) as [_ Hn].
  rewrite <- Hn at 1. rewrite <- (setStatus_name DELETED found) at 1.
  rewrite (erase_insert (Entry.setStatus DELETED found) found); auto.
  simpl. now rewrite Hn.
Qed.

Lemma hasDataName_lookup (name : Name.t) (ix : t) :
  hasDataName name ix =
    match lookup name (m_skipList ix) with
    | Some e => negb (Entry.isDeleted e)
    | None => false
    end.
Proof. unfold hasDataName. now rewrite deref_find. Qed.

Lemma findName_scan (name : Name.t) (ix : t) :
  findName name ix =
    findFirstEntry_from name
      (skipn (lower_bound name (m_skipList ix)) (m_skipList ix)).
Proof.
  unfold findName, findFirstEntry.
  destruct (deref (m_skipList ix) (lower_bound name (m_skipList ix))) eqn:E;
    auto.
  now rewrite (deref_end _ _ E).
Qed.

(** A live entry is what the bare-name [find] returns for its own name. *)
Lemma findName_stored (e : Entry.t) (ix : t) :
  sorted (m_skipList ix) -> In e (m_skipList ix) ->
  Entry.isDeleted e = false ->
  findName (Entry.getName e) ix = answer e.
Proof.
  intros Hs Hin Hl. rewrite findName_scan.
  destruct (deref_skipn _ _ _ (deref_lower_bound _ _ Hs Hin)) as [r ->].
  simpl. unfold Entry.isDeleted in Hl. rewrite Hl.
  now rewrite NameFacts.isPrefixOf_refl.
Qed.

(** Every reachable state has its container in canonical order and a size
    that is a [size_t] value: the hypotheses of the theorems below on a
    state hold of every state an index can be in. *)
Lemma reachable_sorted (ix : t) : reachable ix -> sorted (m_skipList ix).
Proof.
  induction 1 as [n|e ix _ IH|name ix _ IH|ix _ IH].
  - apply sorted_nil.
  - rewrite insertEntry_cases by auto.
    destruct (isFull ix); simpl; auto.
    destruct (lookup (Entry.getName e) (m_skipList ix)) as [r|] eqn:L.
    + destruct (Entry.isDeleted r); simpl; auto.
      now apply (replace_sorted (Entry.setStatus INSERTED e) r).
    + simpl. now apply insert_sorted.
  - rewrite erase_cases by auto.
    destruct (lookup name (m_skipList ix)) as [r|] eqn:L; simpl; auto.
    apply (replace_sorted (Entry.setStatus DELETED r) r); auto.
    simpl. now destruct (lookup_Some _ _ _ L) as [_ ->].
  - simpl. now apply sweep_sorted.
Qed.

Lemma reachable_size_range (ix : t) :
  reachable ix -> (0 <= size ix < size_max)%Z.
Proof.
  induction 1 as [n|e ix Hr IH|name ix Hr IH|ix _ IH]; auto.
  - simpl. unfold size_max. lia.
  - rewrite insertEntry_cases by (now apply reachable_sorted).
    destruct (isFull ix); simpl; auto.
    destruct (lookup (Entry.getName e) (m_skipList ix)) as [r|].
    + destruct (Entry.isDeleted r); simpl; auto. apply wrap_range.
    + simpl. apply wrap_range.
  - rewrite erase_cases by (now apply reachable_sorted).
    destruct (lookup name (m_skipList ix)); simpl; auto. apply wrap_range.
Qed.

End IndexFacts.

(** * The claims *)

Import SkipList SkipListFacts IndexFacts.

Lemma isDeleted_true (e : Entry.t) :
  Entry.isDeleted e = true <-> Entry.getStatus e = DELETED.
Proof.
  unfold Entry.isDeleted. destruct (Entry.getStatus e); simpl; split;
    congruence.
Qed.

Lemma isDeleted_false (e : Entry.t) :
  Entry.isDeleted e = false <-> Entry.getStatus e <> DELETED.
Proof.
  unfold Entry.isDeleted. destruct (Entry.getStatus e); simpl; split;
    congruence.
Qed.

(** C5. [insert] raises the capacity error exactly when the size equals the
    configured maximum, and then the index is unchanged.  Otherwise: when
    no entry has the name, the entry is added, the size is incremented and
    the result is true; when the entry of the name is DELETED, it is
    replaced by the new entry (new id and hash, status INSERTED), the size
    is incremented and the result is true; when the entry of the name is
    live, the result is false and the index is unchanged.  The increment
    is that of [size_t]; it is [+ 1] whenever the size is below the
    maximum.  Both overloads are [insertEntry] of the entry they build. *)
Theorem C5_insert_outcomes (e : Entry.t) (ix : Index.t) :
  sorted (Index.m_skipList ix) ->
  ((exists err ix', Index.insertEntry e ix = Throws err ix')
     <-> Index.size ix = Index.m_maxPackets ix) /\
  (Index.size ix = Index.m_maxPackets ix ->
     Index.insertEntry e ix = Throws IndexFull ix) /\
  (Index.size ix <> Index.m_maxPackets ix ->
     ((forall x, In x (Index.m_skipList ix) ->
                 Entry.getName x <> Entry.getName e) ->
      exists ix',
        Index.insertEntry e ix = Returns true ix' /\
        Index.size ix' = wrap (Index.size ix + 1) /\
        Index.m_maxPackets ix' = Index.m_maxPackets ix /\
        forall y, In y (Index.m_skipList ix') <->
                  y = e \/ In y (Index.m_skipList ix)) /\
     (forall x, In x (Index.m_skipList ix) ->
                Entry.getName x = Entry.getName e ->
                Entry.getStatus x = DELETED ->
      exists ix',
        Index.insertEntry e ix = Returns true ix' /\
        Index.size ix' = wrap (Index.size ix + 1) /\
        Index.m_maxPackets ix' = Index.m_maxPackets ix /\
        forall y, In y (Index.m_skipList ix') <->
                  y = Entry.setStatus INSERTED e
                  \/ (In y (Index.m_skipList ix) /\ y <> x)) /\
     (forall x, In x (Index.m_skipList ix) ->
                Entry.getName x = Entry.getName e ->
                Entry.getStatus x <> DELETED ->
      Index.insertEntry e ix = Returns false ix)) /\
  ((0 <= Index.size ix < Index.m_maxPackets ix)%Z ->
   (Index.m_maxPackets ix < size_max)%Z ->
   wrap (Index.size ix + 1) = (Index.size ix + 1)%Z).
Proof.
  intros Hs. rewrite (insertEntry_cases e ix Hs). unfold Index.isFull, Index.size.
  destruct (Z.eqb_spec (Index.m_size ix) (Index.m_maxPackets ix)) as [F|F].
  - split; [|split; [|split]].
    + split; eauto.
    + auto.
    + congruence.
    + intros; apply wrap_small; lia.
  - split; [|split; [congruence|split]].
    + split; [|congruence]. intros (err & ix' & H).
      destruct (lookup (Entry.getName e) (Index.m_skipList ix)) as [r|];
        [destruct (Entry.isDeleted r)|]; discriminate.
    + intros _. split; [|split].
      * intros Habs.
        destruct (lookup (Entry.getName e) (Index.m_skipList ix)) as [r|] eqn:L.
        { apply lookup_Some in L as [Hin Hn]. now elim (Habs r Hin). }
        eexists. split; [reflexivity|]. simpl. split; [|split]; auto.
        apply insert_In. now apply insert_true.
      * intros x Hx Hn Hd. rewrite <- Hn, (lookup_In _ x Hs Hx).
        rewrite (proj2 (isDeleted_true x) Hd).
        eexists. split; [reflexivity|]. simpl. split; [|split]; auto.
        apply (replace_In (Entry.setStatus INSERTED e) x); auto.
        simpl. rewrite <- Hn. now apply lookup_In.
      * intros x Hx Hn Hd. rewrite <- Hn, (lookup_In _ x Hs Hx).
        now rewrite (proj2 (isDeleted_false x) Hd).
    + intros; apply wrap_small; lia.
Qed.

Lemma lookup_absent (name : Name.t) (l : SkipList.t) :
  (forall x, In x l -> Entry.getName x <> name) -> lookup name l = None.
Proof.
  intros H. destruct (lookup name l) as [r|] eqn:L; auto.
  apply lookup_Some in L as [Hin Hn]. now elim (H r Hin).
Qed.

(** C7. From a state where the name is absent (and the index is not full,
    so that the first insert is carried out), insert(name, id1),
    erase(name), insert(name, id2) all return true and leave hasData true
    for the name, the size as it was before the erase, and id2 as the id
    that the bare-name find returns for the name. *)
Theorem C7_resurrection {ext : External} (name : Name.t) (id1 id2 : Z)
    (h1 h2 : ConstBufferPtr) (ix : Index.t) :
  sorted (Index.m_skipList ix) ->
  (0 <= Index.size ix < size_max)%Z ->
  Index.size ix <> Index.m_maxPackets ix ->
  (forall x, In x (Index.m_skipList ix) -> Entry.getName x <> name) ->
  exists ix1 ix2 ix3,
    Index.insertName name id1 h1 ix = Returns true ix1 /\
    Index.erase name ix1 = Returns true ix2 /\
    Index.insertName name id2 h2 ix2 = Returns true ix3 /\
    Index.hasDataName name ix3 = true /\
    (forall data : Data.t,
       Data.getFullName data = name -> Index.hasData data ix3 = true) /\
    Index.size ix3 = Index.size ix1 /\
    Index.findName name ix3 = (id2, name).
Proof.
  intros Hs Hr Hnf Habs. unfold Index.insertName, Index.size in *.
  set (e1 := Index.Entry_of_Hash name h1 id1).
  set (e2 := Index.Entry_of_Hash name h2 id2).
  set (d1 := Entry.setStatus DELETED e1).
  set (r2 := Entry.setStatus INSERTED e2).
  (* the first insert *)
  rewrite (insertEntry_cases e1 ix Hs). unfold Index.isFull.
  destruct (Z.eqb_spec (Index.m_size ix) (Index.m_maxPackets ix)); [easy|].
  simpl (Entry.getName e1). rewrite (lookup_absent name _ Habs).
  set (l1 := fst (SkipList.insert e1 (Index.m_skipList ix))).
  assert (Hs1 : sorted l1) by now apply insert_sorted.
  assert (Hin1 : In e1 l1).
  { apply insert_In; auto. apply insert_true. now apply lookup_absent. }
  assert (L1 : lookup name l1 = Some e1) by apply (lookup_In l1 e1 Hs1 Hin1).
  eexists. exists (Index.mk (Index.m_maxPackets ix) (Index.m_size ix)
                     (replace d1 l1)).
  exists (Index.mk (Index.m_maxPackets ix) (wrap (Index.m_size ix + 1))
            (replace r2 (replace d1 l1))).
  split; [reflexivity|].
  (* the erase *)
  assert (Hs2 : sorted (replace d1 l1)) by now apply (replace_sorted d1 e1).
  assert (Hin2 : In d1 (replace d1 l1)).
  { apply (replace_In d1 e1); auto. }
  assert (L2 : lookup name (replace d1 l1) = Some d1)
    by apply (lookup_In _ d1 Hs2 Hin2).
  split.
  { rewrite erase_cases by auto. simpl. rewrite L1. fold d1.
    now rewrite wrap_succ_pred, wrap_small. }
  (* the second insert *)
  assert (Hs3 : sorted (replace r2 (replace d1 l1)))
    by now apply (replace_sorted r2 d1).
  assert (Hin3 : In r2 (replace r2 (replace d1 l1))).
  { apply (replace_In r2 d1); auto. }
  split.
  { rewrite insertEntry_cases by auto. unfold Index.isFull. simpl.
    destruct (Z.eqb_spec (Index.m_size ix) (Index.m_maxPackets ix)); [easy|].
    now rewrite L2. }
  assert (H3 : Index.hasDataName name
                 (Index.mk (Index.m_maxPackets ix) (wrap (Index.m_size ix + 1))
                    (replace r2 (replace d1 l1))) = true).
  { rewrite hasDataName_lookup. simpl.
    change name with (Entry.getName r2) at 1.
    now rewrite (lookup_In _ r2 Hs3 Hin3). }
  split; [exact H3|]. split.
  { intros data <-. exact H3. }
  split; [reflexivity|].
  apply (findName_stored r2); auto.
Qed.

(** *** Scans of a sorted container *)

Lemma find_sorted_least (f : Entry.t -> bool) (l : SkipList.t) (e : Entry.t) :
  sorted l -> List.find f l = Some e ->
  In e l /\ f e = true /\
  forall x, In x l -> f x = true ->
            Name.compare (Entry.getName e) (Entry.getName x) <> Gt.
Proof.
  induction l as [|y r IH]; intros Hs; simpl; [discriminate|].
  apply sorted_cons in Hs as [Hlt Hs].
  destruct (f y) eqn:Fy.
  - intros H. inversion H; subst y. repeat split; auto.
    intros x [<-|Hx] _.
    + rewrite NameFacts.compare_refl. discriminate.
    + rewrite (Hlt x Hx). discriminate.
  - intros H. destruct (IH Hs H) as (Hin & Fe & Hleast).
    repeat split; auto. intros x [<-|Hx] Fx; [congruence|auto].
Qed.

Lemma find_all_false (f : Entry.t -> bool) (l : SkipList.t) :
  (forall x, In x l -> f x = false) -> List.find f l = None.
Proof.
  induction l as [|y r IH]; intros H; simpl; auto.
  rewrite (H y) by (now left). apply IH. intros x Hx. apply H. now right.
Qed.

Lemma firstOf_least (f : Entry.t -> bool) (l : SkipList.t) :
  sorted l -> Spec.least_of f l (Spec.firstOf f l).
Proof.
  intros Hs. unfold Spec.firstOf, Spec.least_of.
  destruct (List.find f l) as [e|] eqn:F.
  - left. exists e. destruct (find_sorted_least f l e Hs F) as (H1 & H2 & H3).
    auto.
  - right. split; auto. intros x Hx. eapply find_none; eauto.
Qed.

(** Past an entry at or above the query name that is not under it, no
    entry is under it. *)
Lemma no_descendant_after (q : Name.t) (e : Entry.t) (r : SkipList.t) :
  sorted (e :: r) -> Name.compare (Entry.getName e) q <> Lt ->
  Name.isPrefixOf q (Entry.getName e) = false ->
  forall x, In x r -> Name.isPrefixOf q (Entry.getName x) = false.
Proof.
  intros Hs Hge Hnp x Hx. apply sorted_cons in Hs as [Hlt _].
  destruct (Name.isPrefixOf q (Entry.getName x)) eqn:P; auto.
  rewrite <- Hnp. symmetry.
  apply (NameFacts.prefix_interval q (Entry.getName e) (Entry.getName x)); auto.
  - intros C. apply NameFacts.gt_lt in C. auto.
  - rewrite (Hlt x Hx). discriminate.
Qed.

Lemma sorted_above_tail (q : Name.t) (e : Entry.t) (r : SkipList.t) :
  sorted (e :: r) -> Name.compare (Entry.getName e) q <> Lt ->
  forall x, In x r -> Name.compare (Entry.getName x) q <> Lt.
Proof.
  intros Hs Hge x Hx C. apply sorted_cons in Hs as [Hlt _].
  apply Hge. eapply NameFacts.compare_trans; eauto.
Qed.

Lemma findFirstEntry_from_above (q : Name.t) (s : SkipList.t) :
  sorted s ->
  (forall x, In x s -> Name.compare (Entry.getName x) q <> Lt) ->
  Index.findFirstEntry_from q s = Spec.firstOf (Spec.liveDescendant q) s.
Proof.
  unfold Spec.firstOf.
  induction s as [|e r IH]; intros Hs Hab; simpl; auto.
  unfold Spec.liveDescendant at 1. unfold Entry.isDeleted.
  destruct (status_eqb (Entry.getStatus e) DELETED) eqn:D; simpl.
  - apply IH.
    + now apply sorted_cons in Hs.
    + intros x Hx. apply Hab. now right.
  - destruct (Name.isPrefixOf q (Entry.getName e)) eqn:P; auto.
    rewrite find_all_false; auto.
    intros x Hx. unfold Spec.liveDescendant.
    rewrite (no_descendant_after q e r Hs); auto.
    + apply andb_false_r.
    + apply Hab. now left.
Qed.

Lemma findName_firstOf (q : Name.t) (ix : Index.t) :
  sorted (Index.m_skipList ix) ->
  Index.findName q ix
  = Spec.firstOf (Spec.liveDescendant q) (Index.m_skipList ix).
Proof.
  rewrite findName_scan. generalize (Index.m_skipList ix) as l.
  induction l as [|e r IH]; intros Hs; auto.
  simpl lower_bound.
  destruct (Name.ltb (Entry.getName e) q) eqn:E.
  - simpl skipn. rewrite IH by (now apply sorted_cons in Hs).
    unfold Spec.firstOf. simpl.
    unfold Spec.liveDescendant at 2.
    rewrite (NameFacts.lt_not_prefix q (Entry.getName e)), andb_false_r; auto.
    now apply NameFacts.ltb_true.
  - simpl skipn. apply findFirstEntry_from_above; auto.
    apply NameFacts.ltb_false in E.
    intros x [<-|Hx]; auto. eapply sorted_above_tail; eauto.
Qed.

Lemma insertEntry_true_post (e : Entry.t) (ix ix' : Index.t) :
  sorted (Index.m_skipList ix) -> Entry.isDeleted e = false ->
  Index.insertEntry e ix = Returns true ix' ->
  sorted (Index.m_skipList ix') /\
  (exists e', In e' (Index.m_skipList ix') /\
              Index.answer e' = Index.answer e /\
              Entry.isDeleted e' = false) /\
  (forall y, In y (Index.m_skipList ix) -> Entry.isDeleted y = false ->
             In y (Index.m_skipList ix')).
Proof.
  intros Hs He. rewrite insertEntry_cases by auto.
  destruct (Index.isFull ix); [discriminate|].
  destruct (lookup (Entry.getName e) (Index.m_skipList ix)) as [r|] eqn:L.
  - destruct (Entry.isDeleted r) eqn:D; [|discriminate].
    intros H. inversion H; subst ix'; clear H. simpl.
    split; [|split].
    + apply (replace_sorted (Entry.setStatus INSERTED e) r); auto.
    + exists (Entry.setStatus INSERTED e). repeat split.
      apply (replace_In (Entry.setStatus INSERTED e) r); auto.
    + intros y Hy Dy.
      apply (replace_In (Entry.setStatus INSERTED e) r); auto.
      right. split; auto. congruence.
  - intros H. inversion H; subst ix'; clear H. simpl.
    pose proof (insert_In e _ (insert_true e _ L)) as HIn.
    split; [|split].
    + now apply insert_sorted.
    + exists e. repeat split; auto. apply HIn. now left.
    + intros y Hy _. apply HIn. now right.
Qed.

(** C9. The bare-name find returns the (id, name) of the first entry in
    canonical order that is not DELETED and has the queried name as a
    prefix, and (0, empty name) when there is none; hence after two
    successful inserts of names A and B, find(A) and find(B) return the
    pairs the names were inserted with. *)
Theorem C9_find_by_name (q A B : Name.t) (idA idB : Z)
    (hA hB : ConstBufferPtr) (ix ix1 ix2 : Index.t) :
  sorted (Index.m_skipList ix) ->
  Spec.least_of (Spec.liveDescendant q) (Index.m_skipList ix)
    (Index.findName q ix) /\
  (Index.insertName A idA hA ix = Returns true ix1 ->
   Index.insertName B idB hB ix1 = Returns true ix2 ->
   Index.findName A ix2 = (idA, A) /\ Index.findName B ix2 = (idB, B)).
Proof.
  intros Hs. split.
  - rewrite findName_firstOf by auto. now apply firstOf_least.
  - unfold Index.insertName. intros H1 H2.
    destruct (insertEntry_true_post (Index.Entry_of_Hash A hA idA) ix ix1
                Hs eq_refl H1) as (Hs1 & (a & Ha & Aa & Da) & _).
    destruct (insertEntry_true_post (Index.Entry_of_Hash B hB idB) ix1 ix2
                Hs1 eq_refl H2) as (Hs2 & (b & Hb & Ab & Db) & Hkeep).
    unfold Index.answer in Aa, Ab. simpl in Aa, Ab.
    injection Aa as Ia Na. injection Ab as Ib Nb.
    rewrite <- Ia, <- Na, <- Ib, <- Nb. split.
    + apply (findName_stored a ix2); auto.
    + apply (findName_stored b ix2); auto.
Qed.

(** *** getStatus *)

Lemma getStatus_find (name : Name.t) (ix : Index.t) :
  sorted (Index.m_skipList ix) ->
  Index.getStatus name ix =
    match List.find (Spec.descendant name) (Index.m_skipList ix) with
    | Some e => Entry.getStatus e
    | None => NONE
    end.
Proof.
  unfold Index.getStatus. generalize (Index.m_skipList ix) as l.
  induction l as [|e r IH]; intros Hs; auto.
  simpl lower_bound. simpl List.find. unfold Spec.descendant at 1.
  destruct (Name.ltb (Entry.getName e) name) eqn:E.
  - rewrite (NameFacts.lt_not_prefix name (Entry.getName e))
      by (now apply NameFacts.ltb_true).
    apply IH. now apply sorted_cons in Hs.
  - simpl. destruct (Name.isPrefixOf name (Entry.getName e)) eqn:P; auto.
    rewrite find_all_false; auto.
    apply (no_descendant_after name e r); auto.
    now apply NameFacts.ltb_false.
Qed.

Lemma find_status_of_first (f : Entry.t -> bool) (l : SkipList.t) :
  sorted l ->
  Spec.status_of_first f l
    match List.find f l with
    | Some e => Entry.getStatus e
    | None => NONE
    end.
Proof.
  intros Hs. unfold Spec.status_of_first.
  destruct (List.find f l) as [e|] eqn:F.
  - left. exists e. destruct (find_sorted_least f l e Hs F) as (H1 & H2 & H3).
    auto.
  - right. split; auto. intros x Hx. eapply find_none; eauto.
Qed.

Lemma find_sweep (f : Entry.t -> bool) (l : SkipList.t) :
  List.find f (Index.sweep l)
  = List.find (fun e => negb (Entry.isDeleted e) && f e) l.
Proof.
  induction l as [|e r IH]; simpl; auto.
  destruct (Entry.isDeleted e); simpl; auto.
  now rewrite IH.
Qed.

(** C8, as amended.  getStatus returns the status of the first entry in
    canonical order whose name has the queried name as a prefix, DELETED
    included, and NONE when there is none.  After a successful erase of
    the name it returns DELETED; after removeDeletedEntry it returns the
    status of the first remaining entry that has the name as a prefix,
    which is NONE when no other entry of the index had the name as a
    prefix. *)
Theorem C8_getStatus_amended (name : Name.t) (ix ix1 : Index.t) :
  sorted (Index.m_skipList ix) ->
  Spec.status_of_first (Spec.descendant name) (Index.m_skipList ix)
    (Index.getStatus name ix) /\
  (Index.erase name ix = Returns true ix1 ->
   Index.getStatus name ix1 = DELETED /\
   Spec.status_of_first (Spec.liveDescendant name) (Index.m_skipList ix1)
     (Index.getStatus name (Index.removeDeletedEntry ix1)) /\
   ((forall x, In x (Index.m_skipList ix) -> Entry.getName x <> name ->
               Spec.descendant name x = false) ->
    Index.getStatus name (Index.removeDeletedEntry ix1) = NONE)).
Proof.
  intros Hs. split.
  - rewrite getStatus_find by auto. now apply find_status_of_first.
  - rewrite erase_cases by auto.
    destruct (lookup name (Index.m_skipList ix)) as [found|] eqn:L;
      [|discriminate].
    intros H. inversion H; subst ix1; clear H.
    set (d := Entry.setStatus DELETED found).
    destruct (lookup_Some _ _ _ L) as [Hf Hn].
    assert (Ld : lookup (Entry.getName d) (Index.m_skipList ix) = Some found)
      by (simpl; now rewrite Hn).
    assert (Hs1 : sorted (replace d (Index.m_skipList ix)))
      by now apply (replace_sorted d found).
    assert (Hd : In d (replace d (Index.m_skipList ix)))
      by (apply (replace_In d found); auto).
    assert (Hp : Index.getStatus name
               (Index.removeDeletedEntry
                  (Index.mk (Index.m_maxPackets ix) (wrap (Index.m_size ix - 1))
                     (replace d (Index.m_skipList ix))))
             = match List.find (Spec.liveDescendant name)
                       (replace d (Index.m_skipList ix)) with
               | Some e => Entry.getStatus e
               | None => NONE
               end).
    { rewrite getStatus_find by (now apply sweep_sorted). simpl.
      now rewrite find_sweep. }
    split; [|split].
    + unfold Index.getStatus. simpl. rewrite <- Hn.
      change (Entry.getName found) with (Entry.getName d).
      rewrite (deref_lower_bound _ d Hs1 Hd).
      now rewrite NameFacts.isPrefixOf_refl.
    + rewrite Hp. now apply find_status_of_first.
    + intros Hnone. rewrite Hp. rewrite find_all_false; auto.
      intros x Hx. apply (replace_In d found) in Hx as [->|[Hx Hne]]; auto.
      unfold Spec.liveDescendant. fold (Spec.descendant name x).
      rewrite (Hnone x Hx); [apply andb_false_r|].
      intros E. apply Hne.
      apply (sorted_name_inj _ Hs); auto. congruence.
Qed.

(** C8 fails as stated: after insert(/a), insert(/a/b), erase(/a) and
    removeDeletedEntry(), getStatus(/a) is the status of /a/b, not NONE. *)
Lemma C8_counterexample :
  Index.erase Scenario.a
    (Scenario.after (Index.insertName Scenario.ab 2 None
       (Scenario.after (Index.insertName Scenario.a 1 None (Index.Index 10)))))
  = Returns true Scenario.erased_parent /\
  Index.getStatus Scenario.a Scenario.erased_parent = DELETED /\
  Index.getStatus Scenario.a (Index.removeDeletedEntry Scenario.erased_parent)
  = EXISTED /\
  Index.getStatus Scenario.a (Index.removeDeletedEntry Scenario.erased_parent)
  <> NONE.
Proof. repeat split; try reflexivity. vm_compute. discriminate. Qed.

(** *** Capacity *)

Lemma wrap_pred_succ (z : Z) : wrap (wrap (z - 1) + 1) = wrap z.
Proof.
  unfold wrap. rewrite Zplus_mod_idemp_l. f_equal. lia.
Qed.

Lemma insertAll_spec (items : list (Name.t * Z)) :
  forall ix : Index.t,
  sorted (Index.m_skipList ix) ->
  NoDup (map fst items) ->
  (forall n x, In n (map fst items) -> In x (Index.m_skipList ix) ->
               Entry.getName x <> n) ->
  (0 <= Index.size ix)%Z ->
  (Index.size ix + Z.of_nat (length items) <= Index.m_maxPackets ix)%Z ->
  (Index.m_maxPackets ix < size_max)%Z ->
  exists ix',
    Scenario.insertAll items ix = Some ix' /\
    sorted (Index.m_skipList ix') /\
    Index.size ix' = (Index.size ix + Z.of_nat (length items))%Z /\
    Index.m_maxPackets ix' = Index.m_maxPackets ix /\
    forall y, In y (Index.m_skipList ix') <->
              In y (Index.m_skipList ix)
              \/ exists n id, In (n, id) items
                              /\ y = Index.Entry_of_Hash n None id.
Proof.
  induction items as [|[n id] rest IH]; intros ix Hs Hnd Hfresh H0 Hcap Hmax.
  - exists ix. simpl. split; [auto|]. split; [auto|]. split; [lia|].
    split; [auto|]. intros y. split; auto.
    intros [H|(n & id & [] & _)]. exact H.
  - simpl in Hnd. apply NoDup_cons_iff in Hnd as [Hn Hnd].
    simpl length in Hcap. unfold Index.size in *.
    simpl. unfold Index.insertName.
    rewrite insertEntry_cases by auto. unfold Index.isFull.
    destruct (Z.eqb_spec (Index.m_size ix) (Index.m_maxPackets ix)); [lia|].
    simpl (Entry.getName _).
    assert (L : lookup n (Index.m_skipList ix) = None).
    { apply lookup_absent. intros x Hx. apply Hfresh; simpl; auto. }
    rewrite L.
    set (e := Index.Entry_of_Hash n None id).
    pose proof (insert_In e _ (insert_true e _ L)) as HIn.
    destruct (IH (Index.mk (Index.m_maxPackets ix) (wrap (Index.m_size ix + 1))
                    (fst (SkipList.insert e (Index.m_skipList ix)))))
      as (ix' & Hall & Hs' & Hsz & Hmx & Hin); simpl; auto.
    + now apply insert_sorted.
    + intros m x Hm Hx. apply HIn in Hx as [->|Hx].
      * simpl. intros <-. contradiction.
      * apply Hfresh; simpl; auto.
    + apply wrap_range.
    + rewrite wrap_small; lia.
    + exists ix'.
      cbn [Index.m_size Index.m_maxPackets Index.m_skipList] in *.
      rewrite wrap_small in Hsz by lia.
      split; [auto|]. split; [auto|]. split; [lia|]. split; [auto|].
      intros y. split.
      * intros Hy. apply Hin in Hy as [Hy|(m & i & Hm & ->)].
        -- apply HIn in Hy as [->|Hy]; auto.
           right. exists n, id. simpl. auto.
        -- right. exists m, i. simpl. auto.
      * intros [Hy|(m & i & [Hm|Hm] & ->)]; apply Hin.
        -- left. apply HIn. auto.
        -- inversion Hm; subst. left. apply HIn. auto.
        -- right. eauto.
Qed.

(** C4, as amended.  With capacity N, after N distinct names were inserted
    (each insert returning true) the index is full and a further insert
    raises the capacity error; once one of the names is soft-deleted with
    erase, the insert of a new name succeeds at once, without
    removeDeletedEntry: it returns true, the size is N again, and the
    tombstone of the erased name is still in the index. *)
Theorem C4_erase_frees_capacity (items : list (Name.t * Z)) (a b : Name.t)
    (idb : Z) (hb : ConstBufferPtr) :
  NoDup (map fst items) ->
  (Z.of_nat (length items) < size_max)%Z ->
  In a (map fst items) ->
  ~ In b (map fst items) ->
  exists full ix1 ix2,
    Scenario.insertAll items (Index.Index (Z.of_nat (length items))) = Some full /\
    Index.insertName b idb hb full = Throws IndexFull full /\
    Index.erase a full = Returns true ix1 /\
    Index.insertName b idb hb ix1 = Returns true ix2 /\
    Index.size ix2 = Z.of_nat (length items) /\
    Index.getStatus a ix2 = DELETED /\
    Index.hasDataName b ix2 = true.
Proof.
  intros Hnd Hlen Ha Hb.
  destruct (insertAll_spec items (Index.Index (Z.of_nat (length items))))
    as (full & Hall & Hs & Hsz & Hmx & Hin); simpl; auto; try lia.
  { apply sorted_nil. }
  simpl in Hsz, Hmx. unfold Index.size in *.
  assert (Hfull : Index.m_size full = Index.m_maxPackets full) by lia.
  assert (Hsz' : Index.m_size full = Z.of_nat (length items)) by lia.
  clear Hsz.
  (* the entry of [a] *)
  apply in_map_iff in Ha as ([a' ida] & Ea & Ha). simpl in Ea. subst a'.
  set (ea := Index.Entry_of_Hash a None ida).
  assert (Hea : In ea (Index.m_skipList full)).
  { apply Hin. right. eauto. }
  assert (Hnames : forall y, In y (Index.m_skipList full) ->
                             In (Entry.getName y) (map fst items)).
  { intros y Hy. apply Hin in Hy as [[]|(n & id & Hn & ->)]. simpl.
    apply in_map_iff. exists (n, id). auto. }
  set (d := Entry.setStatus DELETED ea).
  set (l1 := replace d (Index.m_skipList full)).
  set (eb := Index.Entry_of_Hash b hb idb).
  assert (La : lookup a (Index.m_skipList full) = Some ea)
    by apply (lookup_In _ ea Hs Hea).
  assert (Hs1 : sorted l1) by now apply (replace_sorted d ea).
  assert (Hd : In d l1) by (apply (replace_In d ea); auto).
  assert (Lb : lookup b l1 = None).
  { apply lookup_absent. intros x Hx.
    apply (replace_In d ea) in Hx as [->|[Hx _]]; auto.
    - simpl. intros <-. apply Hb. apply (Hnames ea Hea).
    - intros <-. apply Hb. now apply Hnames. }
  exists full, (Index.mk (Index.m_maxPackets full)
                  (wrap (Index.m_size full - 1)) l1).
  exists (Index.mk (Index.m_maxPackets full)
            (wrap (wrap (Index.m_size full - 1) + 1))
            (fst (SkipList.insert eb l1))).
  split; [exact Hall|]. split; [|split; [|split; [|split; [|split]]]].
  - unfold Index.insertName. rewrite insertEntry_cases by auto.
    unfold Index.isFull. rewrite Hfull. now rewrite Z.eqb_refl.
  - rewrite erase_cases by auto. now rewrite La.
  - unfold Index.insertName. rewrite insertEntry_cases by auto.
    unfold Index.isFull. simpl. rewrite <- Hfull.
    destruct (Z.eqb_spec (wrap (Index.m_size full - 1)) (Index.m_size full))
      as [E|_]; [now apply wrap_pred_neq in E|].
    now rewrite Lb.
  - simpl. rewrite wrap_pred_succ, Hsz'. apply wrap_small. lia.
  - assert (Hs2 : sorted (fst (SkipList.insert eb l1)))
      by now apply insert_sorted.
    assert (Hd2 : In d (fst (SkipList.insert eb l1))).
    { apply insert_In; auto. now apply insert_true. }
    unfold Index.getStatus. simpl.
    change a with (Entry.getName d) at 1 2.
    rewrite (deref_lower_bound _ d Hs2 Hd2).
    now rewrite NameFacts.isPrefixOf_refl.
  - rewrite hasDataName_lookup. simpl.
    change b with (Entry.getName eb) at 1.
    rewrite lookup_In; auto.
    + now apply insert_sorted.
    + apply insert_In; auto. now apply insert_true.
Qed.

(** C4 fails as stated: with capacity 1, after insert(/a) and erase(/a)
    the insert of /b does not raise the capacity error, it returns true,
    with no removeDeletedEntry in between. *)
Lemma C4_counterexample :
  Index.insertName Scenario.a 1 None (Index.Index 1)
    = Returns true Scenario.full_one /\
  Index.insertName Scenario.b 2 None Scenario.full_one
    = Throws IndexFull Scenario.full_one /\
  Index.erase Scenario.a Scenario.full_one = Returns true Scenario.erased_once /\
  Index.insertName Scenario.b 2 None Scenario.erased_once
    <> Throws IndexFull Scenario.erased_once /\
  exists ix, Index.insertName Scenario.b 2 None Scenario.erased_once
             = Returns true ix.
Proof.
  repeat split; try reflexivity.
  - vm_compute. discriminate.
  - eexists. vm_compute. reflexivity.
Qed.

(** *** The size *)

Lemma liveCount_insert (e : Entry.t) (l : SkipList.t) :
  snd (SkipList.insert e l) = true ->
  liveCount (fst (SkipList.insert e l))
  = (liveCount l + if Entry.isDeleted e then 0 else 1)%nat.
Proof.
  induction l as [|x r IH]; simpl.
  - intros _. destruct (Entry.isDeleted e); auto.
  - destruct (Name.compare (Entry.getName e) (Entry.getName x)); simpl.
    + discriminate.
    + intros _. destruct (Entry.isDeleted e), (Entry.isDeleted x); lia.
    + destruct (SkipList.insert e r) as [r' b]; simpl in *. intros H.
      rewrite (IH H). destruct (Entry.isDeleted x); lia.
Qed.

Lemma liveCount_replace (e x : Entry.t) (l : SkipList.t) :
  lookup (Entry.getName e) l = Some x ->
  (liveCount (replace e l) + if Entry.isDeleted x then 0 else 1)%nat
  = (liveCount l + if Entry.isDeleted e then 0 else 1)%nat.
Proof.
  induction l as [|y r IH]; simpl; [discriminate|].
  destruct (Name.ltb (Entry.getName y) (Entry.getName e)).
  - intros H. specialize (IH H). simpl. destruct (Entry.isDeleted y); lia.
  - destruct (Name.equals (Entry.getName y) (Entry.getName e));
      [|discriminate].
    intros H. inversion H; subst y. simpl.
    destruct (Entry.isDeleted e), (Entry.isDeleted x); lia.
Qed.

Lemma liveCount_sweep (l : SkipList.t) :
  liveCount (Index.sweep l) = liveCount l.
Proof.
  induction l as [|x r IH]; simpl; auto.
  destruct (Entry.isDeleted x) eqn:D; simpl; auto. now rewrite D, IH.
Qed.

(** The size invariant holds initially, and insert, erase of a name whose
    entry is not DELETED (or that has no entry) and removeDeletedEntry
    keep it. *)
Lemma size_invariant_init (nMaxPackets : Z) :
  (0 <= nMaxPackets)%Z -> Spec.size_invariant (Index.Index nMaxPackets).
Proof. intros H. split; simpl; auto. Qed.

Lemma size_invariant_insert (e : Entry.t) (ix : Index.t) :
  sorted (Index.m_skipList ix) -> Entry.isDeleted e = false ->
  (Index.m_maxPackets ix < size_max)%Z ->
  Spec.size_invariant ix ->
  Spec.size_invariant (Scenario.after (Index.insertEntry e ix)).
Proof.
  intros Hs He Hmax [Hsz Hle]. rewrite insertEntry_cases by auto.
  unfold Index.isFull, Spec.size_invariant, Index.size in *.
  destruct (Z.eqb_spec (Index.m_size ix) (Index.m_maxPackets ix)) as [F|F];
    simpl; auto.
  destruct (lookup (Entry.getName e) (Index.m_skipList ix)) as [x|] eqn:L.
  - destruct (Entry.isDeleted x) eqn:D; simpl; auto.
    pose proof (liveCount_replace (Entry.setStatus INSERTED e) x _ L) as R.
    rewrite D in R. simpl in R.
    rewrite wrap_small by lia. split; lia.
  - simpl. rewrite liveCount_insert by (now apply insert_true).
    rewrite He, wrap_small by lia. split; lia.
Qed.

Lemma size_invariant_erase_live (name : Name.t) (ix : Index.t) :
  sorted (Index.m_skipList ix) ->
  (Index.m_maxPackets ix < size_max)%Z ->
  (forall x, lookup name (Index.m_skipList ix) = Some x ->
             Entry.isDeleted x = false) ->
  Spec.size_invariant ix ->
  Spec.size_invariant (Scenario.after (Index.erase name ix)).
Proof.
  intros Hs Hmax Hlive [Hsz Hle]. rewrite erase_cases by auto.
  unfold Spec.size_invariant, Index.size in *.
  destruct (lookup name (Index.m_skipList ix)) as [x|] eqn:L; simpl; auto.
  destruct (lookup_Some _ _ _ L) as [_ Hn].
  pose proof (liveCount_replace (Entry.setStatus DELETED x) x
                (Index.m_skipList ix)) as R.
  simpl in R. rewrite Hn in R. specialize (R L).
  rewrite (Hlive x eq_refl) in R.
  rewrite wrap_small by lia. split; lia.
Qed.

Lemma size_invariant_prune (ix : Index.t) :
  Spec.size_invariant ix ->
  Spec.size_invariant (Index.removeDeletedEntry ix).
Proof.
  intros [Hsz Hle]. unfold Spec.size_invariant, Index.size in *. simpl.
  now rewrite liveCount_sweep.
Qed.

(** C3 fails on the code: erase of a name whose entry is already DELETED
    decrements the size once more.  After insert(/a), erase(/a) the
    invariant holds (size 0, no live entry); a second erase(/a) returns
    true and leaves the size at 2^64 - 1, with no live entry and above the
    maximum. *)
Theorem C3_double_erase_breaks_size :
  reachable Scenario.erased_once /\
  Spec.size_invariant (Index.Index 1) /\
  Spec.size_invariant Scenario.full_one /\
  Spec.size_invariant Scenario.erased_once /\
  Index.getStatus Scenario.a Scenario.erased_once = DELETED /\
  Index.erase Scenario.a Scenario.erased_once = Returns true Scenario.erased_twice /\
  Index.size Scenario.erased_twice = 18446744073709551615%Z /\
  liveCount (Index.m_skipList Scenario.erased_twice) = 0%nat /\
  ~ Spec.size_invariant Scenario.erased_twice.
Proof.
  split.
  { unfold Scenario.erased_once, Scenario.full_one, Index.insertName.
    repeat constructor. }
  unfold Spec.size_invariant.
  repeat split; try reflexivity; try (vm_compute; discriminate).
  intros [H _]. vm_compute in H. discriminate.
Qed.

(** *** The publisher filter *)

(** C10 fails on the code: an entry built from a content item whose
    signature has no key locator carries no hash, and on an interest with
    a publisher key locator [matchesSimpleSelectors] dereferences it.
    After insert(unsigned /a/1, 1) the find of /a with a publisher key
    locator reaches that dereference. *)
Theorem C10_absent_hash_dereferenced :
  reachable Scenario.unsigned_only /\
  Index.insert Scenario.unsigned_a1 1 (Index.Index 10)
    = Returns true Scenario.unsigned_only /\
  Index.m_skipList Scenario.unsigned_only
    = [Index.Entry_of_Data Scenario.unsigned_a1 1] /\
  Entry.getKeyLocatorHash (Index.Entry_of_Data Scenario.unsigned_a1 1) = None /\
  Index.matchesSimpleSelectors Scenario.by_publisher
    (Index.publisherHash Scenario.by_publisher)
    (Index.Entry_of_Data Scenario.unsigned_a1 1) = Undef NullDereference /\
  forall fuel,
    Index.find fuel Scenario.by_publisher Scenario.unsigned_only
    = Some (Undef NullDereference).
Proof.
  split.
  { unfold Scenario.unsigned_only, Index.insert. repeat constructor. }
  repeat split.
Qed.

(** C2 fails on the code, by the defect of C10: with the unsigned /a/1 and
    the signed /a/2 in the index, the least entry under /a that satisfies
    the selectors of the interest with the publisher key locator is /a/2,
    and the leftmost find dereferences the absent hash of /a/1 before it
    gets there. *)
Theorem C2_leftmost_hits_absent_hash :
  reachable Scenario.unsigned_then_signed /\
  Index.insert Scenario.signed_a2 2 Scenario.unsigned_only
    = Returns true Scenario.unsigned_then_signed /\
  Spec.firstOf (Spec.satisfies Scenario.by_publisher)
    (Index.m_skipList Scenario.unsigned_then_signed) = (2%Z, Scenario.a2) /\
  forall fuel,
    Index.find fuel Scenario.by_publisher Scenario.unsigned_then_signed
    = Some (Undef NullDereference).
Proof.
  split.
  { unfold Scenario.unsigned_then_signed, Scenario.unsigned_only, Index.insert.
    repeat constructor. }
  repeat split.
Qed.

(** *** The loop of the rightmost branch *)

Lemma rightmost_loop_stuck {ext : External} (interest : Interest.t)
    (hash : ConstBufferPtr) (l : SkipList.t) (boundary last : nat) :
  Index.rightmost_turn interest hash l boundary last = Ret (inr last) ->
  forall fuel, Index.rightmost_loop fuel interest hash l boundary last = None.
Proof.
  intros H fuel. induction fuel as [|fuel IH]; simpl; auto.
  now rewrite H.
Qed.

(** C6 fails on the code: with /a/1 live and /a/2 soft-deleted, the find
    of /a for the rightmost child enters the loop with [last] at the end
    of the container, and each turn leaves [last] where it was: no amount
    of turns makes the call return. *)
Theorem C6_rightmost_loop_diverges :
  reachable Scenario.trailing_tombstone /\
  Index.erase Scenario.a2
    (Scenario.after (Index.insertName Scenario.a2 2 None
       (Scenario.after (Index.insertName Scenario.a1 1 None (Index.Index 10)))))
    = Returns true Scenario.trailing_tombstone /\
  Index.rightmost_turn Scenario.rightmost
    (Index.publisherHash Scenario.rightmost)
    (Index.m_skipList Scenario.trailing_tombstone) 0 2 = Ret (inr 2%nat) /\
  forall fuel,
    Index.find fuel Scenario.rightmost Scenario.trailing_tombstone = None.
Proof.
  split.
  { unfold Scenario.trailing_tombstone, Index.insertName.
    repeat constructor. }
  repeat split.
  intros fuel.
  change (Index.find fuel Scenario.rightmost Scenario.trailing_tombstone)
    with (Index.rightmost_loop fuel Scenario.rightmost
            (Index.publisherHash Scenario.rightmost)
            (Index.m_skipList Scenario.trailing_tombstone) 0 2).
  now apply rightmost_loop_stuck.
Qed.

(** *** The simple-selector predicate *)

Lemma reject_min (m n : Z) :
  ((m >=? 0) && (n <? m))%Z = negb ((m <? 0) || (m <=? n))%Z.
Proof.
  rewrite Z.geb_leb.
  destruct (Z.leb_spec 0 m), (Z.ltb_spec n m), (Z.ltb_spec m 0),
    (Z.leb_spec m n); simpl; try reflexivity; exfalso; lia.
Qed.

Lemma reject_max (m n : Z) :
  ((m >=? 0) && (n >? m))%Z = negb ((m <? 0) || (n <=? m))%Z.
Proof.
  rewrite Z.geb_leb, Z.gtb_ltb.
  destruct (Z.leb_spec 0 m), (Z.ltb_spec m n), (Z.ltb_spec m 0),
    (Z.leb_spec n m); simpl; try reflexivity; exfalso; lia.
Qed.

Lemma reject_excluded (x : Exclude.t) (q full : Name.t) :
  negb (Exclude.empty x) && (Name.size q <? Name.size full)%nat
  && match nth_error full (Name.size q) with
     | Some c => Exclude.isExcluded c x
     | None => false
     end
  = match nth_error full (Name.size q) with
    | Some c => Exclude.isExcluded c x
    | None => false
    end.
Proof.
  unfold Name.size.
  destruct (nth_error full (length q)) as [c|] eqn:E.
  - assert (length q < length full)%nat by (apply nth_error_Some; congruence).
    rewrite (proj2 (Nat.ltb_lt _ _)) by auto.
    destruct x; simpl; auto.
  - apply andb_false_r.
Qed.

(** Passing [Spec.hashes_present] from a list to a part of it. *)
Ltac narrow_hashes H := destruct H as [H|H]; [now left|right].

Section Selectors.

Context {ext : External}.

(** Where the hash of the entry is not dereferenced, or is present,
    [matchesSimpleSelectors] decides the predicate of the specification. *)
Lemma matches_satisfies (interest : Interest.t) (e : Entry.t) :
  keyLocator_empty (Interest.getPublisherPublicKeyLocator interest) = true
  \/ Entry.getKeyLocatorHash e <> None ->
  Index.matchesSimpleSelectors interest (Index.publisherHash interest) e
  = Ret (Spec.satisfies interest e).
Proof.
  intros Hsafe.
  unfold Index.matchesSimpleSelectors, Spec.satisfies, Index.publisherHash,
    Entry.isDeleted.
  rewrite reject_min, reject_max, reject_excluded. unfold Name.size.
  destruct (status_eqb (Entry.getStatus e) DELETED); simpl; auto.
  destruct (Name.isPrefixOf (Interest.getName interest) (Entry.getName e));
    simpl; auto.
  destruct ((Interest.getMinSuffixComponents interest <? 0)%Z
            || (Interest.getMinSuffixComponents interest
                <=? Z.of_nat (length (Entry.getName e))
                    - Z.of_nat (length (Interest.getName interest)))%Z);
    simpl; auto.
  destruct ((Interest.getMaxSuffixComponents interest <? 0)%Z
            || (Z.of_nat (length (Entry.getName e))
                - Z.of_nat (length (Interest.getName interest))
                <=? Interest.getMaxSuffixComponents interest)%Z);
    simpl; auto.
  destruct (match nth_error (Entry.getName e)
                    (length (Interest.getName interest)) with
            | Some c => Exclude.isExcluded c (Interest.getExclude interest)
            | None => false
            end); simpl; auto.
  destruct (keyLocator_empty (Interest.getPublisherPublicKeyLocator interest));
    simpl; auto.
  destruct (Entry.getKeyLocatorHash e) as [h|].
  - now destruct (buffer_eqb h _).
  - destruct Hsafe; congruence.
Qed.

Lemma satisfies_live (interest : Interest.t) (e : Entry.t) :
  Spec.satisfies interest e = true -> Entry.isDeleted e = false.
Proof.
  unfold Spec.satisfies. destruct (Entry.isDeleted e); simpl; auto.
Qed.

Lemma satisfies_descendant (interest : Interest.t) (e : Entry.t) :
  Spec.satisfies interest e = true ->
  Name.isPrefixOf (Interest.getName interest) (Entry.getName e) = true.
Proof.
  unfold Spec.satisfies. destruct (Entry.isDeleted e); simpl; [discriminate|].
  destruct (Name.isPrefixOf _ _); simpl; auto.
Qed.

End Selectors.

(** *** The leftmost branch *)

Section Leftmost.

Context {ext : External}.

Lemma leftmost_from_above (interest : Interest.t) (s : SkipList.t) :
  sorted s ->
  (forall x, In x s ->
     Name.compare (Entry.getName x) (Interest.getName interest) <> Lt) ->
  Spec.hashes_present interest s ->
  Index.leftmost_from interest (Index.publisherHash interest) s
  = Ret (Spec.firstOf (Spec.satisfies interest) s).
Proof.
  unfold Spec.firstOf.
  induction s as [|e r IH]; intros Hs Hab Hh; simpl; auto.
  assert (Hr : Index.leftmost_from interest (Index.publisherHash interest) r
               = Ret match List.find (Spec.satisfies interest) r with
                     | Some e => Index.answer e
                     | None => Index.notFound
                     end).
  { apply IH.
    - now apply sorted_cons in Hs.
    - intros x Hx. apply Hab. now right.
    - narrow_hashes Hh.
      intros x Hx. apply Hh. now right. }
  destruct (status_eqb (Entry.getStatus e) DELETED) eqn:D.
  - destruct (Spec.satisfies interest e) eqn:S; auto.
    apply satisfies_live in S. unfold Entry.isDeleted in S. congruence.
  - destruct (Name.isPrefixOf (Interest.getName interest) (Entry.getName e))
      eqn:P; simpl.
    + rewrite matches_satisfies.
      * simpl. now destruct (Spec.satisfies interest e).
      * narrow_hashes Hh. apply Hh. now left.
    + destruct (Spec.satisfies interest e) eqn:S.
      { apply satisfies_descendant in S. congruence. }
      rewrite find_all_false; auto.
      intros x Hx. destruct (Spec.satisfies interest x) eqn:Sx; auto.
      apply satisfies_descendant in Sx.
      rewrite (no_descendant_after _ e r Hs) in Sx; auto.
      apply Hab. now left.
Qed.

(** Where the interest names no publisher or every entry carries a hash,
    the find of an interest for the leftmost child returns the first entry
    in canonical order that satisfies the simple selectors. *)
Lemma leftmost_find_when_hashes_present (fuel : nat) (interest : Interest.t)
    (ix : Index.t) :
  sorted (Index.m_skipList ix) ->
  (Interest.getChildSelector interest <= 0)%Z ->
  Spec.hashes_present interest (Index.m_skipList ix) ->
  Index.find fuel interest ix
  = Some (Ret (Spec.firstOf (Spec.satisfies interest) (Index.m_skipList ix)))
  /\ Spec.least_of (Spec.satisfies interest) (Index.m_skipList ix)
       (Spec.firstOf (Spec.satisfies interest) (Index.m_skipList ix)).
Proof.
  intros Hs Hc Hh. split; [|now apply firstOf_least].
  unfold Index.find, Index.selectChild.
  rewrite (proj2 (Z.leb_le _ _) Hc).
  assert (E : Index.leftmost_from interest (Index.publisherHash interest)
                (skipn (lower_bound (Interest.getName interest)
                          (Index.m_skipList ix)) (Index.m_skipList ix))
              = Ret (Spec.firstOf (Spec.satisfies interest)
                       (Index.m_skipList ix))).
  { revert Hs Hh. generalize (Index.m_skipList ix) as l.
    induction l as [|e r IH]; intros Hs Hh; auto.
    simpl lower_bound.
    destruct (Name.ltb (Entry.getName e) (Interest.getName interest)) eqn:E.
    - simpl skipn. rewrite IH.
      + unfold Spec.firstOf. simpl.
        destruct (Spec.satisfies interest e) eqn:S; auto.
        apply satisfies_descendant in S.
        rewrite NameFacts.lt_not_prefix in S; [discriminate|].
        now apply NameFacts.ltb_true.
      + now apply sorted_cons in Hs.
      + narrow_hashes Hh.
        intros x Hx. apply Hh. now right.
    - simpl skipn. apply leftmost_from_above; auto.
      apply NameFacts.ltb_false in E.
      intros x [<-|Hx]; auto. eapply sorted_above_tail; eauto. }
  destruct (deref (Index.m_skipList ix)
              (lower_bound (Interest.getName interest) (Index.m_skipList ix)))
    eqn:D.
  - now rewrite E.
  - rewrite (deref_end _ _ D) in E. simpl in E. congruence.
Qed.

End Leftmost.

(** *** The rightmost branch *)

Lemma skipn_cons_inv (l : SkipList.t) :
  forall (i : nat) (x : Entry.t) (r : SkipList.t),
  skipn i l = x :: r -> nth_error l i = Some x /\ skipn (S i) l = r.
Proof.
  induction l as [|y l IH]; intros [|i] x r H; simpl in *; try discriminate.
  - inversion H. auto.
  - destruct (IH i x r H) as [H1 H2]. split; auto.
Qed.

Lemma skipn_nil_inv (l : SkipList.t) (i : nat) :
  skipn i l = [] -> nth_error l i = None.
Proof.
  intros H. apply nth_error_None.
  pose proof (length_skipn i l) as L. rewrite H in L. simpl in L. lia.
Qed.

Lemma skipDeleted_from_live (l : SkipList.t) (s : list Entry.t) :
  forall (i : nat) (e : Entry.t),
  skipn i l = s -> deref l (Index.skipDeleted_from s i) = Some e ->
  Entry.isDeleted e = false.
Proof.
  unfold deref. induction s as [|x r IH]; intros i e Hs; simpl.
  - rewrite (skipn_nil_inv _ _ Hs). discriminate.
  - destruct (skipn_cons_inv _ _ _ _ Hs) as [Hx Hr].
    destruct (status_eqb (Entry.getStatus x) DELETED) eqn:D.
    + now apply IH.
    + rewrite Hx. intros H. inversion H; subst. exact D.
Qed.

(** Past the tombstones the iterator is at [end()] or at a live entry. *)
Lemma skipDeleted_live (l : SkipList.t) (i : nat) (e : Entry.t) :
  deref l (Index.skipDeleted l i) = Some e -> Entry.isDeleted e = false.
Proof. now apply skipDeleted_from_live. Qed.

(** Without tombstones the iterator stays where it is. *)
Lemma skipDeleted_stay (l : SkipList.t) (i : nat) :
  (forall e, In e l -> Entry.isDeleted e = false) -> Index.skipDeleted l i = i.
Proof.
  intros Hl. unfold Index.skipDeleted.
  destruct (skipn i l) as [|x r] eqn:Sk; simpl; auto.
  destruct (skipn_cons_inv _ _ _ _ Sk) as [Hx _].
  apply nth_error_In in Hx. specialize (Hl x Hx).
  unfold Entry.isDeleted in Hl. now rewrite Hl.
Qed.

Lemma find_if_from_here (pred : Entry.t -> M bool) (s : list Entry.t)
    (last : nat) :
  Index.find_if_from pred s last last = Ret last.
Proof. destruct s; simpl; now rewrite Nat.eqb_refl. Qed.

(** [find_if] with a predicate that returns on every entry: the first
    position of the window that passes, or [last]. *)
Lemma find_if_spec (pred : Entry.t -> M bool) (f : Entry.t -> bool)
    (l : SkipList.t) :
  (forall e, In e l -> pred e = Ret (f e)) ->
  forall n first last : nat,
  (last = first + n)%nat -> (last <= length l)%nat ->
  exists m,
    Index.find_if pred l first last = Ret m /\
    (first <= m <= last)%nat /\
    (forall j e, (first <= j < m)%nat -> nth_error l j = Some e ->
                 f e = false) /\
    ((m < last)%nat -> exists e, nth_error l m = Some e /\ f e = true).
Proof.
  intros Hp. unfold Index.find_if.
  induction n as [|n IH]; intros first last Hn Hl.
  - exists last. replace first with last by lia.
    rewrite find_if_from_here. repeat split; try lia.
  - destruct (skipn first l) as [|x r] eqn:Sk.
    { apply skipn_nil_inv, nth_error_None in Sk. lia. }
    destruct (skipn_cons_inv _ _ _ _ Sk) as [Hx Hr].
    simpl. destruct (Nat.eqb_spec first last) as [E|_]; [lia|].
    rewrite (Hp x (nth_error_In _ _ Hx)). simpl.
    destruct (f x) eqn:Fx.
    + exists first. repeat split; try lia. intros _. eauto.
    + destruct (IH (S first) last) as (m & Hm & Hrange & Hnone & Hsome);
        try lia.
      rewrite Hr in Hm. exists m. repeat split; auto; try lia.
      intros j e Hj He.
      destruct (Nat.eq_dec j first) as [->|Hne].
      * congruence.
      * apply (Hnone j); auto. lia.
Qed.

(** Between the subtree root of a name and the name, every name lies in
    the same subtree. *)
Lemma child_interval (n : nat) (p r : Name.t) :
  Name.compare (firstn n p) r <> Gt -> Name.compare r p <> Gt ->
  firstn n r = firstn n p.
Proof.
  intros H1 H2.
  pose proof (NameFacts.prefix_interval (firstn n p) r p H1 H2
                (NameFacts.isPrefixOf_firstn n p)) as P.
  apply NameFacts.isPrefixOf_iff in P as [s Hs].
  destruct (Nat.le_gt_cases n (length p)) as [L|L].
  - rewrite Hs, firstn_app, firstn_firstn, Nat.min_id.
    rewrite length_firstn, Nat.min_l by auto.
    rewrite Nat.sub_diag. simpl. now rewrite app_nil_r.
  - rewrite firstn_all2 in * by lia.
    now rewrite (NameFacts.le_antisym r p H2 H1).
Qed.

Lemma firstn_le (n : nat) (p : Name.t) : Name.compare (firstn n p) p <> Gt.
Proof. apply NameFacts.prefix_le, NameFacts.isPrefixOf_firstn. Qed.

Lemma not_lt_ge (a b : Name.t) :
  Name.compare a b <> Gt -> Name.compare b a <> Lt.
Proof. intros H C. apply NameFacts.gt_lt in C. auto. Qed.

Lemma not_gt_le (a b : Name.t) :
  Name.compare a b <> Lt -> Name.compare b a <> Gt.
Proof. intros H C. apply NameFacts.gt_lt in C. auto. Qed.

Lemma sorted_nth_le (l : SkipList.t) (i j : nat) (a b : Entry.t) :
  sorted l -> (i <= j)%nat -> nth_error l i = Some a -> nth_error l j = Some b ->
  Name.compare (Entry.getName a) (Entry.getName b) <> Gt.
Proof.
  intros Hs Hij Ha Hb. destruct (Nat.eq_dec i j) as [->|Hne].
  - assert (a = b) by congruence. subst.
    rewrite NameFacts.compare_refl. discriminate.
  - rewrite (sorted_nth l Hs i j a b); auto; [discriminate|lia].
Qed.

Section Rightmost.

Context {ext : External}.

Lemma childOf_getPrefix (interest : Interest.t) (e : Entry.t) :
  Name.getPrefix (Z.of_nat (Name.size (Interest.getName interest)) + 1)
    (Entry.getName e)
  = Spec.childOf interest e.
Proof. apply NameFacts.getPrefix_size_succ. Qed.

End Rightmost.

(** C1 fails as stated: with /a/1/x and /a/1/y in the index, both satisfy
    the interest on /a for the rightmost child; the reverse scan of the
    oracle gives the greatest, /a/1/y, and find returns /a/1/x, the first
    match of the subtree of /a/1. *)
Lemma C1_counterexample :
  Spec.lastOf (Spec.satisfies Scenario.rightmost)
    (Index.m_skipList Scenario.one_subtree) = (2%Z, Scenario.a1y) /\
  Name.compare Scenario.a1x Scenario.a1y = Lt /\
  Index.find 2 Scenario.rightmost Scenario.one_subtree
    = Some (Ret (1%Z, Scenario.a1x)) /\
  forall fuel,
    Index.find fuel Scenario.rightmost Scenario.one_subtree
    <> Some (Ret (Spec.lastOf (Spec.satisfies Scenario.rightmost)
                    (Index.m_skipList Scenario.one_subtree))).
Proof.
  repeat split. intros [|fuel]; discriminate.
Qed.

(** The example of section 8: with /a/1, /a/2 and /a/3 in the index, the
    interest on /a returns /a/1 for the leftmost and /a/3 for the
    rightmost child. *)
Example child_selector_of_three :
  Index.find 0 Scenario.leftmost Scenario.three_children
    = Some (Ret (1%Z, Scenario.a1)) /\
  Index.find 1 Scenario.rightmost Scenario.three_children
    = Some (Ret (3%Z, Scenario.a3)).
Proof. split; reflexivity. Qed.

(** When no entry of the last window satisfies the interest and the window
    does not end on the boundary entry alone, the loop steps back from the
    first entry of the container: with /a/1/x and /a/1/y and a lower bound
    of five suffix components, the second turn decrements [begin()]. *)
Example exhausted_window_leaves_container :
  Index.find 2 Scenario.rightmost_deep Scenario.one_subtree
    = Some (Undef BeginDecrement).
Proof. reflexivity. Qed.

(** ** The theorems at work on the example runs *)

(** C5 on the empty index of capacity 10: insert(/a, 1) returns true and
    the size becomes 1. *)
Lemma C5_insert_outcomes_witness :
  sorted (Index.m_skipList (Index.Index 10)) /\
  exists ix',
    Index.insertName Scenario.a 1 None (Index.Index 10) = Returns true ix' /\
    Index.size ix' = 1%Z.
Proof.
  split; [reflexivity|].
  destruct (C5_insert_outcomes (Index.Entry_of_Hash Scenario.a None 1)
              (Index.Index 10) eq_refl) as (_ & _ & H & _).
  destruct H as (Hfresh & _); [discriminate|].
  destruct Hfresh as (ix' & Hins & Hsize & _); [intros x []|].
  exists ix'. split; [exact Hins|]. rewrite Hsize. reflexivity.
Defined.

(** C7 on the index that holds /a/b: insert(/a, 1), erase(/a),
    insert(/a, 2). *)
Lemma C7_resurrection_witness :
  exists ix3,
    Index.insertName Scenario.a 2 None Scenario.erased_parent = Returns true ix3 /\
    Index.hasDataName Scenario.a ix3 = true /\
    Index.size ix3 = 2%Z /\
    Index.findName Scenario.a ix3 = (2%Z, Scenario.a).
Proof.
  destruct (@C7_resurrection plain Scenario.a 1 2 None None
              (Scenario.after (Index.insertName Scenario.ab 2 None (Index.Index 10))))
    as (ix1 & ix2 & ix3 & H1 & H2 & H3 & Hhas & _ & Hsize & Hfind).
  - reflexivity.
  - split; [discriminate|reflexivity].
  - discriminate.
  - intros x [<-|[]]. discriminate.
  - assert (E1 : ix1 = Scenario.after (Index.insertName Scenario.a 1 None
                   (Scenario.after (Index.insertName Scenario.ab 2 None
                      (Index.Index 10))))).
    { vm_compute in H1. inversion H1. reflexivity. }
    assert (E2 : ix2 = Scenario.erased_parent).
    { rewrite E1 in H2. vm_compute in H2. inversion H2. reflexivity. }
    exists ix3. rewrite <- E2. split; [exact H3|]. split; [exact Hhas|].
    split; [|exact Hfind]. rewrite Hsize, E1. reflexivity.
Defined.

(** C9 on the empty index of capacity 10, with /a and /b inserted. *)
Lemma C9_find_by_name_witness :
  Index.findName Scenario.a
    (Scenario.after (Index.insertName Scenario.b 2 None
       (Scenario.after (Index.insertName Scenario.a 1 None (Index.Index 10)))))
  = (1%Z, Scenario.a) /\
  Index.findName Scenario.b
    (Scenario.after (Index.insertName Scenario.b 2 None
       (Scenario.after (Index.insertName Scenario.a 1 None (Index.Index 10)))))
  = (2%Z, Scenario.b) /\
  Spec.least_of (Spec.liveDescendant Scenario.a)
    (Index.m_skipList (Index.Index 10))
    (Index.findName Scenario.a (Index.Index 10)).
Proof.
  destruct (C9_find_by_name Scenario.a Scenario.a Scenario.b 1 2 None None
              (Index.Index 10)
              (Scenario.after (Index.insertName Scenario.a 1 None (Index.Index 10)))
              (Scenario.after (Index.insertName Scenario.b 2 None
                 (Scenario.after (Index.insertName Scenario.a 1 None
                    (Index.Index 10)))))
              eq_refl) as [Hleast Hfind].
  destruct (Hfind eq_refl eq_refl) as [HA HB].
  split; [exact HA|]. split; [exact HB|exact Hleast].
Defined.

(** C8 on the index that holds /a alone: erase(/a), then
    removeDeletedEntry(). *)
Lemma C8_getStatus_amended_witness :
  Index.getStatus Scenario.a Scenario.erased_once = DELETED /\
  Index.getStatus Scenario.a (Index.removeDeletedEntry Scenario.erased_once) = NONE.
Proof.
  destruct (C8_getStatus_amended Scenario.a Scenario.full_one Scenario.erased_once
              eq_refl) as [_ H].
  destruct (H eq_refl) as (Hdel & _ & Hnone).
  split; [exact Hdel|]. apply Hnone.
  intros x [<-|[]] Hne. now elim Hne.
Defined.

(** C4 with capacity 1: /a inserted, erased, and /b inserted. *)
Lemma C4_erase_frees_capacity_witness :
  exists full ix1 ix2,
    Scenario.insertAll [(Scenario.a, 1%Z)] (Index.Index 1) = Some full /\
    Index.insertName Scenario.b 2 None full = Throws IndexFull full /\
    Index.erase Scenario.a full = Returns true ix1 /\
    Index.insertName Scenario.b 2 None ix1 = Returns true ix2 /\
    Index.size ix2 = 1%Z.
Proof.
  destruct (C4_erase_frees_capacity [(Scenario.a, 1%Z)] Scenario.a Scenario.b 2 None)
    as (full & ix1 & ix2 & H1 & H2 & H3 & H4 & H5 & _).
  - simpl. constructor; [intros []|constructor].
  - reflexivity.
  - simpl. auto.
  - simpl. intros [H|[]]. discriminate.
  - exists full, ix1, ix2. auto.
Defined.

(** * Further properties of the code *)

(** ** The simple selectors, on every entry *)

Section SelectorsEverywhere.

Context {ext : External}.

Lemma matches_outcome (interest : Interest.t) (e : Entry.t) :
  Index.matchesSimpleSelectors interest (Index.publisherHash interest) e
  = if Spec.reachesPublisherFilter interest e
       && negb (keyLocator_empty
                  (Interest.getPublisherPublicKeyLocator interest))
       && match Entry.getKeyLocatorHash e with
          | None => true
          | Some _ => false
          end
    then Undef NullDereference
    else Ret (Spec.satisfies interest e).
Proof.
  unfold Index.matchesSimpleSelectors, Spec.satisfies,
    Spec.reachesPublisherFilter, Index.publisherHash, Entry.isDeleted.
  rewrite reject_min, reject_max, reject_excluded. unfold Name.size.
  destruct (status_eqb (Entry.getStatus e) DELETED); simpl; auto.
  destruct (Name.isPrefixOf (Interest.getName interest) (Entry.getName e));
    simpl; auto.
  destruct ((Interest.getMinSuffixComponents interest <? 0)%Z
            || (Interest.getMinSuffixComponents interest
                <=? Z.of_nat (length (Entry.getName e))
                    - Z.of_nat (length (Interest.getName interest)))%Z);
    simpl; auto.
  destruct ((Interest.getMaxSuffixComponents interest <? 0)%Z
            || (Z.of_nat (length (Entry.getName e))
                - Z.of_nat (length (Interest.getName interest))
                <=? Interest.getMaxSuffixComponents interest)%Z);
    simpl; auto.
  destruct (match nth_error (Entry.getName e)
                    (length (Interest.getName interest)) with
            | Some c => Exclude.isExcluded c (Interest.getExclude interest)
            | None => false
            end); simpl; auto.
  destruct (keyLocator_empty (Interest.getPublisherPublicKeyLocator interest));
    simpl; auto.
  destruct (Entry.getKeyLocatorHash e) as [h|]; auto.
  now destruct (buffer_eqb h _).
Qed.

Lemma matches_true (interest : Interest.t) (e : Entry.t) :
  Index.matchesSimpleSelectors interest (Index.publisherHash interest) e
  = Ret true ->
  Spec.satisfies interest e = true.
Proof.
  rewrite matches_outcome.
  destruct (Spec.reachesPublisherFilter interest e
            && negb (keyLocator_empty
                       (Interest.getPublisherPublicKeyLocator interest))
            && match Entry.getKeyLocatorHash e with
               | None => true
               | Some _ => false
               end); [discriminate|].
  congruence.
Qed.

End SelectorsEverywhere.

(** X1. [matchesSimpleSelectors], called as [selectChild] calls it, has
    undefined behaviour exactly on an entry that passes every test before
    the publisher filter (live, under the query name, within the suffix
    bounds, not excluded) and carries no key locator hash, for an interest
    that has a publisher key locator; the behaviour then is the null
    dereference.  On every other entry it returns whether the entry
    satisfies the simple selectors. *)
Theorem X1_matches_undefined_exactly {ext : External}
    (interest : Interest.t) (e : Entry.t) :
  Index.matchesSimpleSelectors interest (Index.publisherHash interest) e
  = if Spec.reachesPublisherFilter interest e
       && negb (keyLocator_empty
                  (Interest.getPublisherPublicKeyLocator interest))
       && match Entry.getKeyLocatorHash e with
          | None => true
          | Some _ => false
          end
    then Undef NullDereference
    else Ret (Spec.satisfies interest e).
Proof. apply matches_outcome. Qed.

(** ** What find returns is a stored entry that satisfies the interest *)

Section Soundness.

Context {ext : External}.

Lemma in_skipn (n : nat) (l : SkipList.t) (e : Entry.t) :
  In e (skipn n l) -> In e l.
Proof.
  intros H. rewrite <- (firstn_skipn n l). apply in_or_app. now right.
Qed.

Lemma find_if_from_sound (pred : Entry.t -> M bool) (s : list Entry.t) :
  forall first last m : nat,
  Index.find_if_from pred s first last = Ret m ->
  m = last \/ exists e, nth_error s (m - first) = Some e /\ (first <= m)%nat
                        /\ pred e = Ret true.
Proof.
  induction s as [|x r IH]; intros first last m; simpl.
  - destruct (first =? last)%nat; [|discriminate].
    intros H. inversion H. auto.
  - destruct (first =? last)%nat.
    { intros H. inversion H. auto. }
    destruct (pred x) as [b|u] eqn:P; simpl; [|discriminate].
    destruct b.
    + intros H. inversion H; subst m. right. exists x.
      rewrite Nat.sub_diag. auto.
    + intros H. destruct (IH _ _ _ H) as [->|(e & He & Hm & Pe)]; auto.
      right. exists e. replace (m - first)%nat with (S (m - S first)) by lia.
      simpl. repeat split; auto. lia.
Qed.

Lemma leftmost_from_sound (interest : Interest.t) (s : list Entry.t)
    (r : Z * Name.t) :
  Index.leftmost_from interest (Index.publisherHash interest) s = Ret r ->
  Spec.sound interest s r.
Proof.
  unfold Spec.sound. induction s as [|x t IH]; simpl.
  - intros H. inversion H. auto.
  - assert (Htail : Index.leftmost_from interest (Index.publisherHash interest)
                      t = Ret r ->
                    r = Index.notFound
                    \/ exists e, (x = e \/ In e t) /\ r = Index.answer e
                                 /\ Spec.satisfies interest e = true).
    { intros H. destruct (IH H) as [->|(e & He & Hr & Se)]; auto.
      right. exists e. auto. }
    destruct (status_eqb (Entry.getStatus x) DELETED); auto.
    destruct (Name.isPrefixOf (Interest.getName interest) (Entry.getName x));
      simpl.
    + destruct (Index.matchesSimpleSelectors interest
                  (Index.publisherHash interest) x) as [b|u] eqn:P; simpl;
        [|discriminate].
      destruct b; auto.
      intros H. inversion H. right. exists x.
      repeat split; auto. now apply matches_true.
    + intros H. inversion H. auto.
Qed.

Lemma rightmost_turn_sound (interest : Interest.t) (l : SkipList.t)
    (boundary last : nat) (r : Z * Name.t) :
  Index.rightmost_turn interest (Index.publisherHash interest) l boundary last
  = Ret (inl r) ->
  Spec.sound interest l r.
Proof.
  unfold Spec.sound, Index.rightmost_turn, deref.
  destruct last as [|prev]; [discriminate|].
  destruct (nth_error l prev) as [p|] eqn:Hp; [|discriminate].
  destruct ((prev =? boundary)%nat
            && negb (status_eqb (Entry.getStatus p) DELETED)).
  - destruct (Index.matchesSimpleSelectors interest
                (Index.publisherHash interest) p) as [b|u] eqn:P; simpl;
      [|discriminate].
    destruct b; intros H; inversion H; auto.
    right. exists p. repeat split; auto.
    + eapply nth_error_In; eauto.
    + now apply matches_true.
  - destruct (Index.find_if
                (Index.matchesSimpleSelectors interest
                   (Index.publisherHash interest)) l
                (Index.skipDeleted l
                   (lower_bound
                      (Name.getPrefix
                         (Z.of_nat (Name.size (Interest.getName interest)) + 1)
                         (Entry.getName p)) l)) (S prev)) as [m|u] eqn:F;
      simpl; [|discriminate].
    destruct (Nat.eqb_spec m (S prev)) as [E|E]; simpl; [discriminate|].
    destruct (nth_error l m) as [e|] eqn:He; [|discriminate].
    intros H. inversion H. right. exists e.
    split; [eapply nth_error_In; eauto|]. split; auto.
    unfold Index.find_if in F.
    destruct (find_if_from_sound _ _ _ _ _ F) as [->|(e' & He' & Hm & Pe)];
      [now elim E|].
    rewrite nth_error_skipn in He'.
    replace (Index.skipDeleted l
               (lower_bound
                  (Name.getPrefix
                     (Z.of_nat (Name.size (Interest.getName interest)) + 1)
                     (Entry.getName p)) l)
             + (m - Index.skipDeleted l
                      (lower_bound
                         (Name.getPrefix
                            (Z.of_nat (Name.size (Interest.getName interest))
                             + 1)
                            (Entry.getName p)) l)))%nat with m in He' by lia.
    assert (e' = e) by congruence. subst e'. now apply matches_true.
Qed.

Lemma rightmost_loop_sound (interest : Interest.t) (l : SkipList.t)
    (boundary : nat) (r : Z * Name.t) :
  forall fuel last : nat,
  Index.rightmost_loop fuel interest (Index.publisherHash interest) l
    boundary last = Some (Ret r) ->
  Spec.sound interest l r.
Proof.
  induction fuel as [|fuel IH]; intros last; simpl; [discriminate|].
  destruct (Index.rightmost_turn interest (Index.publisherHash interest) l
              boundary last) as [[r'|last']|u] eqn:T.
  - intros H. inversion H; subst r'. eapply rightmost_turn_sound; eauto.
  - apply IH.
  - discriminate.
Qed.

Lemma find_sound (fuel : nat) (interest : Interest.t) (ix : Index.t)
    (r : Z * Name.t) :
  Index.find fuel interest ix = Some (Ret r) ->
  Spec.sound interest (Index.m_skipList ix) r.
Proof.
  unfold Index.find, Index.selectChild.
  destruct (deref (Index.m_skipList ix)
              (lower_bound (Interest.getName interest) (Index.m_skipList ix)));
    [|intros H; inversion H; left; reflexivity].
  destruct (Interest.getChildSelector interest <=? 0)%Z.
  - intros H. inversion H as [H1].
    destruct (leftmost_from_sound _ _ _ H1) as [->|(e & He & Hr & Se)];
      [now left|].
    right. exists e. repeat split; auto.
    eapply in_skipn; eauto.
  - destruct (deref (Index.m_skipList ix)
                (Index.skipDeleted (Index.m_skipList ix)
                   (lower_bound (Interest.getName interest)
                      (Index.m_skipList ix)))) as [b|];
      [|intros H; inversion H; left; reflexivity].
    destruct (negb (Name.isPrefixOf (Interest.getName interest)
                      (Entry.getName b)));
      [intros H; inversion H; left; reflexivity|].
    apply rightmost_loop_sound.
Qed.

End Soundness.

(** X2. Whatever find returns for an interest, with either child selector
    and on any container, is the not-found pair or the (id, name) of a
    stored entry that satisfies the simple selectors: never a tombstone,
    an entry outside the query name, or an entry that a selector
    rejects. *)
Theorem X2_find_returns_satisfying_entry {ext : External} (fuel : nat)
    (interest : Interest.t) (ix : Index.t) (r : Z * Name.t) :
  Index.find fuel interest ix = Some (Ret r) ->
  r = Index.notFound
  \/ exists e, In e (Index.m_skipList ix) /\ r = Index.answer e
               /\ Spec.satisfies interest e = true.
Proof. apply find_sound. Qed.

(** X2 on the index that holds /a/1, /a/2 and /a/3, for the rightmost
    child of /a. *)
Lemma X2_find_returns_satisfying_entry_witness :
  (3%Z, Scenario.a3) = Index.notFound
  \/ exists e, In e (Index.m_skipList Scenario.three_children)
               /\ (3%Z, Scenario.a3) = Index.answer e
               /\ Spec.satisfies Scenario.rightmost e = true.
Proof.
  apply (@X2_find_returns_satisfying_entry plain 1 Scenario.rightmost
           Scenario.three_children).
  reflexivity.
Defined.

(** ** erase *)

Lemma replace_names (e x : Entry.t) (l : SkipList.t) :
  lookup (Entry.getName e) l = Some x ->
  map Entry.getName (replace e l) = map Entry.getName l.
Proof.
  induction l as [|y r IH]; simpl; [discriminate|].
  destruct (Name.ltb (Entry.getName y) (Entry.getName e)).
  - intros H. simpl. now rewrite IH.
  - destruct (Name.equals (Entry.getName y) (Entry.getName e)) eqn:Q;
      [|discriminate].
    intros _. simpl. apply NameFacts.equals_true in Q. now rewrite Q.
Qed.

(** X3. On a container in canonical order erase never throws.  It
    returns false and leaves the index as it is when no entry has exactly
    the name.  Otherwise it returns true: the entry of the name keeps its
    name, id and hash and becomes DELETED, every other entry stays, the
    names that entryEnumeration visits are the same in the same order,
    the maximum is unchanged and the size is decremented (as a [size_t]),
    whatever the status of the entry was. *)
Theorem X3_erase_outcomes (name : Name.t) (ix : Index.t) :
  sorted (Index.m_skipList ix) ->
  (forall err ix', Index.erase name ix <> Throws err ix') /\
  ((forall x, In x (Index.m_skipList ix) -> Entry.getName x <> name) ->
   Index.erase name ix = Returns false ix) /\
  (forall x, In x (Index.m_skipList ix) -> Entry.getName x = name ->
   exists ix',
     Index.erase name ix = Returns true ix' /\
     Index.size ix' = wrap (Index.size ix - 1) /\
     Index.m_maxPackets ix' = Index.m_maxPackets ix /\
     (forall y, In y (Index.m_skipList ix') <->
                y = Entry.setStatus DELETED x
                \/ (In y (Index.m_skipList ix) /\ y <> x)) /\
     Index.entryEnumeration (fun n _ => n) ix'
     = Index.entryEnumeration (fun n _ => n) ix).
Proof.
  intros Hs. rewrite erase_cases by auto. split; [|split].
  - intros err ix'.
    destruct (lookup name (Index.m_skipList ix)); discriminate.
  - intros Habs. now rewrite lookup_absent.
  - intros x Hx Hn. rewrite <- Hn, (lookup_In _ x Hs Hx).
    assert (L : lookup (Entry.getName (Entry.setStatus DELETED x))
                  (Index.m_skipList ix) = Some x)
      by (simpl; now apply lookup_In).
    eexists. split; [reflexivity|]. simpl.
    split; [reflexivity|]. split; [reflexivity|]. split.
    + now apply (replace_In (Entry.setStatus DELETED x) x).
    + unfold Index.entryEnumeration. simpl.
      apply (replace_names (Entry.setStatus DELETED x) x _ L).
Qed.

(** X3 on the index that holds /a and /a/b, for erase(/a). *)
Lemma X3_erase_outcomes_witness :
  exists ix',
    Index.erase Scenario.a
      (Scenario.after (Index.insertName Scenario.ab 2 None
         (Scenario.after (Index.insertName Scenario.a 1 None
            (Index.Index 10))))) = Returns true ix' /\
    Index.size ix' = 1%Z /\
    Index.entryEnumeration (fun n _ => n) ix' = [Scenario.a; Scenario.ab].
Proof.
  destruct (X3_erase_outcomes Scenario.a
              (Scenario.after (Index.insertName Scenario.ab 2 None
                 (Scenario.after (Index.insertName Scenario.a 1 None
                    (Index.Index 10))))) eq_refl) as (_ & _ & H).
  destruct (H (Index.Entry_of_Hash Scenario.a None 1) (or_introl eq_refl)
              eq_refl) as (ix' & He & Hsize & _ & _ & Hnames).
  exists ix'. split; [exact He|]. split.
  - rewrite Hsize. reflexivity.
  - rewrite Hnames. reflexivity.
Defined.

(** X4. After erase of a name has returned true, hasData is false for the
    name and the bare-name find of the name does not return the entry of
    that name: it returns not-found or an entry of a longer name. *)
Theorem X4_erased_name_is_hidden (name : Name.t) (ix ix' : Index.t) :
  sorted (Index.m_skipList ix) ->
  Index.erase name ix = Returns true ix' ->
  Index.hasDataName name ix' = false /\
  (Index.findName name ix' = Index.notFound
   \/ snd (Index.findName name ix') <> name).
Proof.
  intros Hs. rewrite erase_cases by auto.
  destruct (lookup name (Index.m_skipList ix)) as [x|] eqn:L;
    [|discriminate].
  intros H. inversion H; subst ix'; clear H.
  destruct (lookup_Some _ _ _ L) as [Hx Hn].
  set (d := Entry.setStatus DELETED x).
  assert (Ld : lookup (Entry.getName d) (Index.m_skipList ix) = Some x)
    by (simpl; now rewrite Hn).
  assert (Hs' : sorted (replace d (Index.m_skipList ix)))
    by now apply (replace_sorted d x).
  assert (Hd : In d (replace d (Index.m_skipList ix)))
    by (apply (replace_In d x); auto).
  split.
  - rewrite hasDataName_lookup. simpl.
    replace name with (Entry.getName d) at 1 by (simpl; auto).
    now rewrite (lookup_In _ d Hs' Hd).
  - rewrite findName_firstOf by auto. simpl. unfold Spec.firstOf.
    destruct (List.find (Spec.liveDescendant name)
                (replace d (Index.m_skipList ix))) as [e|] eqn:F; auto.
    right. simpl. intros E.
    destruct (find_some _ _ F) as [He Le].
    assert (e = d) by (apply (sorted_name_inj _ Hs'); auto; simpl; congruence).
    subst e. unfold Spec.liveDescendant in Le. simpl in Le. discriminate.
Qed.

(** X4 on the index that holds /a and /a/b, after erase(/a): the find of /a
    returns /a/b. *)
Lemma X4_erased_name_is_hidden_witness :
  Index.hasDataName Scenario.a Scenario.erased_parent = false /\
  Index.findName Scenario.a Scenario.erased_parent = (2%Z, Scenario.ab).
Proof.
  destruct (X4_erased_name_is_hidden Scenario.a
              (Scenario.after (Index.insertName Scenario.ab 2 None
                 (Scenario.after (Index.insertName Scenario.a 1 None
                    (Index.Index 10)))))
              Scenario.erased_parent eq_refl eq_refl) as [H _].
  split; [exact H|reflexivity].
Defined.

(** ** The size, operation by operation *)

(** X5. From a state in canonical order where the size is the number of
    entries that are not DELETED and is at most the maximum (itself a
    [size_t] value), the same holds after insert of an entry as the
    constructors build it, after erase of a name that has no entry or a
    live entry, and after removeDeletedEntry. *)
Theorem X5_size_invariant_kept (ix : Index.t) :
  sorted (Index.m_skipList ix) ->
  (Index.m_maxPackets ix < size_max)%Z ->
  Spec.size_invariant ix ->
  (forall e, Entry.getStatus e = EXISTED ->
             Spec.size_invariant (Scenario.after (Index.insertEntry e ix))) /\
  (forall name,
     (forall x, In x (Index.m_skipList ix) -> Entry.getName x = name ->
                Entry.getStatus x <> DELETED) ->
     Spec.size_invariant (Scenario.after (Index.erase name ix))) /\
  Spec.size_invariant (Index.removeDeletedEntry ix).
Proof.
  intros Hs Hmax Hinv. split; [|split].
  - intros e He. apply size_invariant_insert; auto.
    unfold Entry.isDeleted. now rewrite He.
  - intros name Hlive. apply size_invariant_erase_live; auto.
    intros x L. destruct (lookup_Some _ _ _ L) as [Hx Hn].
    now apply isDeleted_false, Hlive.
  - now apply size_invariant_prune.
Qed.

(** X5 on the index of capacity 1 that holds /a. *)
Lemma X5_size_invariant_kept_witness :
  Spec.size_invariant Scenario.erased_once /\
  Spec.size_invariant (Index.removeDeletedEntry Scenario.full_one).
Proof.
  destruct (X5_size_invariant_kept Scenario.full_one eq_refl eq_refl)
    as (_ & He & Hp).
  - split; [reflexivity|discriminate].
  - split; [|exact Hp]. apply (He Scenario.a).
    intros x [<-|[]] _. discriminate.
Defined.

(** ** removeDeletedEntry *)

(** On containers in canonical order, the first entry that passes a test
    is the same wherever the same entries pass it. *)
Lemma find_agree (f : Entry.t -> bool) (l l' : SkipList.t) :
  sorted l -> sorted l' ->
  (forall x, f x = true -> (In x l <-> In x l')) ->
  List.find f l = List.find f l'.
Proof.
  intros Hs Hs' Hsame.
  destruct (List.find f l) as [e|] eqn:F; destruct (List.find f l') as [e'|] eqn:F'.
  - destruct (find_sorted_least f l e Hs F) as (He & Fe & Hleast).
    destruct (find_sorted_least f l' e' Hs' F') as (He' & Fe' & Hleast').
    f_equal. apply (sorted_name_inj l Hs); auto.
    + now apply Hsame.
    + apply NameFacts.le_antisym.
      * apply Hleast; auto. now apply Hsame.
      * apply Hleast'; auto. now apply Hsame.
  - destruct (find_some _ _ F) as [He Fe].
    rewrite (find_none _ _ F' e) in Fe; [discriminate|]. now apply Hsame.
  - destruct (find_some _ _ F') as [He Fe].
    rewrite (find_none _ _ F e') in Fe; [discriminate|]. now apply Hsame.
  - reflexivity.
Qed.

Lemma lookup_sweep (name : Name.t) (l : SkipList.t) :
  sorted l ->
  lookup name (Index.sweep l)
  = match lookup name l with
    | Some e => if Entry.isDeleted e then None else Some e
    | None => None
    end.
Proof.
  intros Hs. destruct (lookup name l) as [e|] eqn:L.
  - destruct (lookup_Some _ _ _ L) as [He Hn].
    destruct (Entry.isDeleted e) eqn:D.
    + apply lookup_absent. intros x Hx E.
      apply sweep_In in Hx as [Hx Dx].
      assert (x = e) by (apply (sorted_name_inj l Hs); auto; congruence).
      congruence.
    + rewrite <- Hn. apply lookup_In; [now apply sweep_sorted|].
      apply sweep_In. auto.
  - apply lookup_absent. intros x Hx. apply sweep_In in Hx as [Hx _].
    now apply (lookup_None name l Hs L).
Qed.

Section Sweep.

Context {ext : External}.

Lemma leftmost_from_sweep (interest : Interest.t) (hash : ConstBufferPtr)
    (s : list Entry.t) :
  Index.leftmost_from interest hash (Index.sweep s)
  = Index.leftmost_from interest hash s.
Proof.
  induction s as [|e r IH]; simpl; auto.
  unfold Entry.isDeleted.
  destruct (status_eqb (Entry.getStatus e) DELETED) eqn:D; auto.
  simpl. rewrite D, IH. reflexivity.
Qed.

Lemma lower_bound_above (q : Name.t) (s : SkipList.t) :
  (forall x, In x s -> Name.compare (Entry.getName x) q <> Lt) ->
  lower_bound q s = 0%nat.
Proof.
  destruct s as [|e r]; simpl; auto. intros H.
  now rewrite (proj2 (NameFacts.ltb_false _ _) (H e (or_introl eq_refl))).
Qed.

Lemma leftmost_scan_sweep (interest : Interest.t) (hash : ConstBufferPtr)
    (l : SkipList.t) :
  sorted l ->
  Index.leftmost_from interest hash
    (skipn (lower_bound (Interest.getName interest) (Index.sweep l))
       (Index.sweep l))
  = Index.leftmost_from interest hash
      (skipn (lower_bound (Interest.getName interest) l) l).
Proof.
  induction l as [|e r IH]; intros Hs; auto.
  pose proof Hs as Hs0. apply sorted_cons in Hs as [Hlt Hs].
  simpl lower_bound at 2.
  destruct (Name.ltb (Entry.getName e) (Interest.getName interest)) eqn:E.
  - simpl skipn at 2. rewrite <- IH by auto. simpl Index.sweep.
    destruct (Entry.isDeleted e); auto.
    simpl. now rewrite E.
  - apply NameFacts.ltb_false in E.
    rewrite lower_bound_above.
    + rewrite !skipn_0. apply leftmost_from_sweep.
    + intros x Hx. apply sweep_In in Hx as [[<-|Hx] _]; auto.
      eapply sorted_above_tail; eauto.
Qed.

Lemma find_leftmost_scan (fuel : nat) (interest : Interest.t) (ix : Index.t) :
  (Interest.getChildSelector interest <= 0)%Z ->
  Index.find fuel interest ix
  = Some (Index.leftmost_from interest (Index.publisherHash interest)
            (skipn (lower_bound (Interest.getName interest)
                      (Index.m_skipList ix)) (Index.m_skipList ix))).
Proof.
  intros Hc. unfold Index.find, Index.selectChild.
  rewrite (proj2 (Z.leb_le _ _) Hc).
  destruct (deref (Index.m_skipList ix)
              (lower_bound (Interest.getName interest) (Index.m_skipList ix)))
    eqn:D; auto.
  now rewrite (deref_end _ _ D).
Qed.

End Sweep.

(** X6. On a container in canonical order removeDeletedEntry changes no
    answer but that of getStatus: the size, hasData of every name, the
    bare-name find of every name and the find of every interest for the
    leftmost child are what they were before the sweep (undefined
    behaviour included), while no entry is left DELETED and getStatus
    returns DELETED for no name. *)
Theorem X6_prune_changes_no_answer {ext : External} (ix : Index.t) :
  sorted (Index.m_skipList ix) ->
  Index.size (Index.removeDeletedEntry ix) = Index.size ix /\
  (forall e, In e (Index.m_skipList (Index.removeDeletedEntry ix)) ->
             In e (Index.m_skipList ix) /\ Entry.getStatus e <> DELETED) /\
  (forall name, Index.getStatus name (Index.removeDeletedEntry ix) <> DELETED) /\
  (forall name, Index.hasDataName name (Index.removeDeletedEntry ix)
                = Index.hasDataName name ix) /\
  (forall name, Index.findName name (Index.removeDeletedEntry ix)
                = Index.findName name ix) /\
  (forall fuel interest,
     (Interest.getChildSelector interest <= 0)%Z ->
     Index.find fuel interest (Index.removeDeletedEntry ix)
     = Index.find fuel interest ix).
Proof.
  intros Hs. split; [reflexivity|]. split; [|split; [|split; [|split]]].
  - intros e He. simpl in He. apply sweep_In in He as [He D].
    split; auto. now apply isDeleted_false.
  - intros name. unfold Index.getStatus. simpl.
    destruct (deref (Index.sweep (Index.m_skipList ix))
                (lower_bound name (Index.sweep (Index.m_skipList ix))))
      as [e|] eqn:D; [|discriminate].
    destruct (Name.isPrefixOf name (Entry.getName e)); [|discriminate].
    apply nth_error_In, sweep_In in D as [_ D]. now apply isDeleted_false.
  - intros name. rewrite !hasDataName_lookup. simpl.
    rewrite lookup_sweep by auto.
    destruct (lookup name (Index.m_skipList ix)) as [e|]; auto.
    destruct (Entry.isDeleted e) eqn:D; simpl; rewrite ?D; reflexivity.
  - intros name. rewrite !findName_firstOf by (simpl; auto using sweep_sorted).
    simpl. unfold Spec.firstOf. rewrite find_sweep.
    assert (E : List.find
                  (fun e => negb (Entry.isDeleted e)
                            && Spec.liveDescendant name e)
                  (Index.m_skipList ix)
                = List.find (Spec.liveDescendant name) (Index.m_skipList ix)).
    { clear. induction (Index.m_skipList ix) as [|e r IH]; simpl; auto.
      rewrite IH. unfold Spec.liveDescendant.
      now destruct (Entry.isDeleted e). }
    now rewrite E.
  - intros fuel interest Hc. rewrite !find_leftmost_scan by auto. simpl.
    now rewrite leftmost_scan_sweep.
Qed.

(** X6 on the index that holds /a/b and the tombstone of /a. *)
Lemma X6_prune_changes_no_answer_witness :
  Index.findName Scenario.a Scenario.pruned_parent = (2%Z, Scenario.ab) /\
  Index.getStatus Scenario.a Scenario.pruned_parent <> DELETED /\
  Index.find 0 Scenario.leftmost Scenario.pruned_parent
  = Index.find 0 Scenario.leftmost Scenario.erased_parent.
Proof.
  destruct (@X6_prune_changes_no_answer plain Scenario.erased_parent eq_refl)
    as (_ & _ & Hstatus & _ & Hname & Hfind).
  split; [|split].
  - unfold Scenario.pruned_parent. rewrite Hname. reflexivity.
  - apply Hstatus.
  - apply Hfind. discriminate.
Defined.

(** ** find for the leftmost child *)

(** X7. On a container in canonical order, for an interest with a
    non-positive child selector whose publisher filter reads no absent
    hash (the interest has no publisher key locator, or every entry
    carries a hash), find returns the (id, name) of the entry that is
    least in canonical order among the entries satisfying the simple
    selectors, and the not-found pair when no entry satisfies them. *)
Theorem X7_leftmost_find_is_least {ext : External} (fuel : nat)
    (interest : Interest.t) (ix : Index.t) :
  sorted (Index.m_skipList ix) ->
  (Interest.getChildSelector interest <= 0)%Z ->
  Spec.hashes_present interest (Index.m_skipList ix) ->
  exists r,
    Index.find fuel interest ix = Some (Ret r) /\
    Spec.least_of (Spec.satisfies interest) (Index.m_skipList ix) r.
Proof.
  intros Hs Hc Hh.
  destruct (leftmost_find_when_hashes_present fuel interest ix Hs Hc Hh)
    as [Hfind Hleast].
  eauto.
Qed.

(** X7 on the index that holds /a/1, /a/2 and /a/3. *)
Lemma X7_leftmost_find_is_least_witness :
  exists r,
    Index.find 0 Scenario.leftmost Scenario.three_children = Some (Ret r) /\
    Spec.least_of (Spec.satisfies Scenario.leftmost)
      (Index.m_skipList Scenario.three_children) r.
Proof.
  apply (@X7_leftmost_find_is_least plain 0 Scenario.leftmost
           Scenario.three_children).
  - reflexivity.
  - discriminate.
  - left. reflexivity.
Defined.

Lemma find_pointwise (f g : Entry.t -> bool) (l : SkipList.t) :
  (forall x, f x = g x) -> List.find f l = List.find g l.
Proof.
  intros H. induction l as [|e r IH]; simpl; auto. now rewrite H, IH.
Qed.

(** X8. An interest without selectors (no suffix bounds, empty exclude,
    no publisher key locator, non-positive child selector) finds what the
    bare-name find finds for its name. *)
Theorem X8_selector_free_find_is_findName {ext : External} (fuel : nat)
    (interest : Interest.t) (ix : Index.t) :
  sorted (Index.m_skipList ix) ->
  (Interest.getChildSelector interest <= 0)%Z ->
  (Interest.getMinSuffixComponents interest < 0)%Z ->
  (Interest.getMaxSuffixComponents interest < 0)%Z ->
  Exclude.empty (Interest.getExclude interest) = true ->
  keyLocator_empty (Interest.getPublisherPublicKeyLocator interest) = true ->
  Index.find fuel interest ix
  = Some (Ret (Index.findName (Interest.getName interest) ix)).
Proof.
  intros Hs Hc Hmin Hmax Hex Hk.
  destruct (leftmost_find_when_hashes_present fuel interest ix Hs Hc
              (or_introl Hk)) as [-> _].
  rewrite findName_firstOf by auto. unfold Spec.firstOf.
  rewrite (find_pointwise (Spec.satisfies interest)
             (Spec.liveDescendant (Interest.getName interest))); auto.
  intros x. unfold Spec.satisfies, Spec.liveDescendant.
  rewrite Hk, (proj2 (Z.ltb_lt _ _) Hmin), (proj2 (Z.ltb_lt _ _) Hmax).
  destruct (Interest.getExclude interest); [|discriminate].
  simpl. destruct (nth_error (Entry.getName x)
                     (length (Interest.getName interest)));
    simpl; now rewrite !andb_true_r.
Qed.

(** X8 on the index that holds /a/b and the tombstone of /a. *)
Lemma X8_selector_free_find_is_findName_witness :
  Index.find 0 Scenario.leftmost Scenario.erased_parent
  = Some (Ret (2%Z, Scenario.ab)).
Proof.
  rewrite (@X8_selector_free_find_is_findName plain 0 Scenario.leftmost
             Scenario.erased_parent); reflexivity.
Defined.

(** ** insert, seen through the queries *)

Lemma insertEntry_true_entry (e : Entry.t) (ix ix' : Index.t) :
  sorted (Index.m_skipList ix) ->
  Index.insertEntry e ix = Returns true ix' ->
  sorted (Index.m_skipList ix') /\
  ((forall x, In x (Index.m_skipList ix) ->
              Entry.getName x <> Entry.getName e) /\
   In e (Index.m_skipList ix')
   \/ (exists x, In x (Index.m_skipList ix)
                 /\ Entry.getName x = Entry.getName e)
      /\ In (Entry.setStatus INSERTED e) (Index.m_skipList ix')).
Proof.
  intros Hs. rewrite insertEntry_cases by auto.
  destruct (Index.isFull ix); [discriminate|].
  destruct (lookup (Entry.getName e) (Index.m_skipList ix)) as [r|] eqn:L.
  - destruct (Entry.isDeleted r) eqn:D; [|discriminate].
    intros H. inversion H; subst ix'; clear H. simpl.
    destruct (lookup_Some _ _ _ L) as [Hr Hn].
    split.
    + apply (replace_sorted (Entry.setStatus INSERTED e) r); auto.
    + right. split; [eauto|].
      apply (replace_In (Entry.setStatus INSERTED e) r); auto.
  - intros H. inversion H; subst ix'; clear H. simpl. split.
    + now apply insert_sorted.
    + left. split; [now apply lookup_None|].
      apply insert_In; auto. now apply insert_true.
Qed.

Lemma getStatus_stored (e : Entry.t) (ix : Index.t) :
  sorted (Index.m_skipList ix) -> In e (Index.m_skipList ix) ->
  Index.getStatus (Entry.getName e) ix = Entry.getStatus e.
Proof.
  intros Hs He. unfold Index.getStatus.
  rewrite (deref_lower_bound _ e Hs He).
  now rewrite NameFacts.isPrefixOf_refl.
Qed.

(** X9. After insert(name, id, hash) has returned true on a container in
    canonical order, hasData is true for the name, and getStatus of the
    name is EXISTED when no entry had the name and INSERTED when the
    insert replaced the tombstone of the name. *)
Theorem X9_insert_then_status (name : Name.t) (id : Z)
    (keyLocatorHash : ConstBufferPtr) (ix ix' : Index.t) :
  sorted (Index.m_skipList ix) ->
  Index.insertName name id keyLocatorHash ix = Returns true ix' ->
  Index.hasDataName name ix' = true /\
  ((forall x, In x (Index.m_skipList ix) -> Entry.getName x <> name) ->
   Index.getStatus name ix' = EXISTED) /\
  ((exists x, In x (Index.m_skipList ix) /\ Entry.getName x = name) ->
   Index.getStatus name ix' = INSERTED).
Proof.
  intros Hs H. unfold Index.insertName in H.
  destruct (insertEntry_true_entry _ _ _ Hs H) as [Hs' Hcase].
  simpl in Hcase.
  set (e := Index.Entry_of_Hash name keyLocatorHash id) in *.
  assert (Hstored : exists e', In e' (Index.m_skipList ix')
                               /\ Entry.getName e' = name
                               /\ Entry.isDeleted e' = false).
  { destruct Hcase as [[_ He]|[_ He]]; eexists; split; eauto. }
  split; [|split].
  - destruct Hstored as (e' & He' & Hn & Hd).
    rewrite hasDataName_lookup, <- Hn, (lookup_In _ e' Hs' He').
    now rewrite Hd.
  - intros Habs. destruct Hcase as [[_ He]|[[x [Hx Hn]] _]].
    + apply (getStatus_stored e ix' Hs' He).
    + now elim (Habs x Hx).
  - intros [x [Hx Hn]]. destruct Hcase as [[Habs _]|[_ He]].
    + now elim (Habs x Hx).
    + apply (getStatus_stored (Entry.setStatus INSERTED e) ix' Hs' He).
Qed.

(** X9 on the empty index, and on the index that holds /a/b and the
    tombstone of /a. *)
Lemma X9_insert_then_status_witness :
  Index.getStatus Scenario.a Scenario.full_one = EXISTED /\
  Index.getStatus Scenario.a
    (Scenario.after (Index.insertName Scenario.a 3 None Scenario.erased_parent))
  = INSERTED.
Proof.
  split.
  - destruct (X9_insert_then_status Scenario.a 1 None (Index.Index 1)
                Scenario.full_one eq_refl eq_refl) as (_ & H & _).
    apply H. intros x [].
  - destruct (X9_insert_then_status Scenario.a 3 None Scenario.erased_parent
                (Scenario.after (Index.insertName Scenario.a 3 None
                                   Scenario.erased_parent))
                eq_refl eq_refl) as (_ & _ & H).
    apply H. eexists. split; [left; reflexivity|reflexivity].
Defined.

Lemma buffer_eqb_refl (b : Buffer) : buffer_eqb b b = true.
Proof.
  unfold buffer_eqb.
  now rewrite (proj2 (list_compare_refl _ ComponentFacts.byte_compare_eq b b)).
Qed.

(** X10. A content item signed under a key locator, once insert has
    returned true for it, is what find returns for the interest that
    names it in full and carries the same key locator as publisher
    (leftmost child, no lower suffix bound above zero; any upper bound and
    any exclude): the digest stored at insert is the digest computed at
    find. *)
Theorem X10_signed_item_found_by_publisher {ext : External} (fuel : nat)
    (data : Data.t) (id : Z) (keyLocator : KeyLocator)
    (interest : Interest.t) (ix ix' : Index.t) :
  sorted (Index.m_skipList ix) ->
  Data.getSignatureKeyLocator data = Some keyLocator ->
  Index.insert data id ix = Returns true ix' ->
  Interest.getName interest = Data.getFullName data ->
  Interest.getPublisherPublicKeyLocator interest = keyLocator ->
  (Interest.getMinSuffixComponents interest <= 0)%Z ->
  (Interest.getChildSelector interest <= 0)%Z ->
  Index.find fuel interest ix' = Some (Ret (id, Data.getFullName data)).
Proof.
  intros Hs Hk Hins Hn Hp Hmin Hc. unfold Index.insert in Hins.
  destruct (insertEntry_true_entry _ _ _ Hs Hins) as [Hs' Hcase].
  assert (Hstored : exists e, In e (Index.m_skipList ix')
            /\ Entry.getName e = Data.getFullName data
            /\ Entry.getId e = id
            /\ Entry.getKeyLocatorHash e
               = Some (sha256 (wireEncode keyLocator))
            /\ Entry.isDeleted e = false).
  { unfold Index.Entry_of_Data in Hcase. rewrite Hk in Hcase.
    destruct Hcase as [[_ He]|[_ He]]; eexists; split; eauto;
      repeat split. }
  destruct Hstored as (e & He & Hname & Hid & Hhash & Hlive).
  rewrite find_leftmost_scan by auto. rewrite Hn, <- Hname.
  destruct (deref_skipn _ _ _ (deref_lower_bound _ e Hs' He)) as [r ->].
  assert (Hsat : Spec.satisfies interest e = true).
  { unfold Spec.satisfies. rewrite Hlive, Hn, Hname, Hp, Hhash.
    rewrite NameFacts.isPrefixOf_refl, Z.sub_diag.
    rewrite (proj2 (Z.leb_le _ _) Hmin), orb_true_r.
    replace (nth_error (Data.getFullName data)
               (length (Data.getFullName data))) with (@None Component.t)
      by (symmetry; apply nth_error_None; lia).
    rewrite buffer_eqb_refl. simpl.
    destruct (keyLocator_empty keyLocator); rewrite ?andb_true_r.
    - destruct (Z.ltb_spec (Interest.getMaxSuffixComponents interest) 0);
        auto.
      simpl. apply Z.leb_le. lia.
    - destruct (Z.ltb_spec (Interest.getMaxSuffixComponents interest) 0);
        auto.
      simpl. apply Z.leb_le. lia. }
  simpl. unfold Entry.isDeleted in Hlive. rewrite Hlive.
  rewrite Hn, <- Hname at 1. rewrite NameFacts.isPrefixOf_refl. simpl.
  rewrite matches_satisfies by (right; congruence).
  rewrite Hsat. simpl. unfold Index.answer. now rewrite Hid.
Qed.

(** X10 on the index that holds the unsigned /a/1, for the signed /a/2. *)
Lemma X10_signed_item_found_by_publisher_witness :
  Index.find 0
    (@Interest.mk plain Scenario.a2 (-1) (-1) [] 0 Scenario.locator)
    Scenario.unsigned_then_signed
  = Some (Ret (2%Z, Scenario.a2)).
Proof.
  apply (@X10_signed_item_found_by_publisher plain 0 Scenario.signed_a2 2
           Scenario.locator
           (@Interest.mk plain Scenario.a2 (-1) (-1) [] 0 Scenario.locator)
           Scenario.unsigned_only Scenario.unsigned_then_signed);
    try reflexivity; discriminate.
Defined.

(** ** When the loop of the rightmost branch does not return *)

Lemma skipDeleted_from_all (s : list Entry.t) :
  (forall x, In x s -> Entry.isDeleted x = true) ->
  forall i, Index.skipDeleted_from s i = (i + length s)%nat.
Proof.
  induction s as [|e r IH]; intros H i; simpl; [lia|].
  pose proof (H e (or_introl eq_refl)) as D. unfold Entry.isDeleted in D.
  rewrite D, IH; [lia|]. intros x Hx. apply H. now right.
Qed.

Lemma skipDeleted_to_end (l : SkipList.t) (i : nat) :
  (i <= length l)%nat ->
  (forall j x, (i <= j)%nat -> nth_error l j = Some x ->
               Entry.isDeleted x = true) ->
  Index.skipDeleted l i = length l.
Proof.
  intros Hi H. unfold Index.skipDeleted.
  rewrite skipDeleted_from_all.
  - rewrite length_skipn. lia.
  - intros x Hx. destruct (In_nth_error _ _ Hx) as [k Hk].
    rewrite nth_error_skipn in Hk. apply (H (i + k)%nat); auto. lia.
Qed.

Lemma skipDeleted_from_le_live (s : list Entry.t) :
  forall (k i : nat) (x : Entry.t),
  nth_error s k = Some x -> Entry.isDeleted x = false ->
  (i <= Index.skipDeleted_from s i <= i + k)%nat.
Proof.
  induction s as [|e r IH]; intros k i x Hk Hx; [now destruct k|].
  simpl. destruct k as [|k]; simpl in Hk.
  - inversion Hk; subst e. unfold Entry.isDeleted in Hx. rewrite Hx. lia.
  - destruct (status_eqb (Entry.getStatus e) DELETED); [|lia].
    specialize (IH k (S i) x Hk Hx). lia.
Qed.

Lemma skipDeleted_le_live (l : SkipList.t) (i j : nat) (x : Entry.t) :
  (i <= j)%nat -> nth_error l j = Some x -> Entry.isDeleted x = false ->
  (i <= Index.skipDeleted l i <= j)%nat.
Proof.
  intros Hij Hj Hx. unfold Index.skipDeleted.
  pose proof (skipDeleted_from_le_live (skipn i l) (j - i) i x) as H.
  rewrite nth_error_skipn in H.
  replace (i + (j - i))%nat with j in H by lia. auto.
Qed.

Lemma lower_bound_all_below (key : Name.t) (l : SkipList.t) :
  (forall x, In x l -> Name.compare (Entry.getName x) key = Lt) ->
  lower_bound key l = length l.
Proof.
  induction l as [|e r IH]; intros H; simpl; auto.
  rewrite (proj2 (NameFacts.ltb_true _ _) (H e (or_introl eq_refl))).
  rewrite IH; auto. intros x Hx. apply H. now right.
Qed.

(** X11. A family of queries on which find does not return.  On a
    container in canonical order, let the interest ask for the rightmost
    child of a name that has a live entry under it and no entry beyond
    its subtree.  If the last entry of the container is DELETED, and so is
    every entry from the root of its child subtree on, then every turn of
    the loop of selectChild leaves [last] at the end of the container: no
    number of turns makes find return. *)
Theorem X11_rightmost_find_hangs {ext : External} (interest : Interest.t)
    (ix : Index.t) (front : SkipList.t) (p b : Entry.t) :
  sorted (Index.m_skipList ix) ->
  (0 < Interest.getChildSelector interest)%Z ->
  In b (Index.m_skipList ix) ->
  Spec.liveDescendant (Interest.getName interest) b = true ->
  (forall x, In x (Index.m_skipList ix) ->
             Spec.descendant (Interest.getName interest) x = true
             \/ Name.compare (Entry.getName x) (Interest.getName interest)
                = Lt) ->
  Index.m_skipList ix = front ++ [p] ->
  (forall x, In x (Index.m_skipList ix) ->
             Name.compare (Entry.getName x) (Spec.childOf interest p) <> Lt ->
             Entry.isDeleted x = true) ->
  forall fuel, Index.find fuel interest ix = None.
Proof.
  intros Hs Hc Hb Lb Hin Hl Hdel fuel.
  set (l := Index.m_skipList ix) in *.
  set (q := Interest.getName interest) in *.
  unfold Spec.liveDescendant in Lb. apply andb_true_iff in Lb as [Lb Pb].
  apply negb_true_iff in Lb.
  destruct (In_nth_error _ _ Hb) as [jb Hjb].
  assert (Hlo : (lower_bound q l <= jb)%nat).
  { apply (lower_bound_le_pos q l jb b Hjb).
    apply not_lt_ge, NameFacts.prefix_le, Pb. }
  (* the boundary is a live entry under the name *)
  pose proof (skipDeleted_le_live l _ _ b Hlo Hjb Lb) as Hbd.
  assert (Hjb' : (jb < length l)%nat) by (apply nth_error_Some; congruence).
  destruct (nth_error l (Index.skipDeleted l (lower_bound q l)))
    as [b'|] eqn:B; [|apply nth_error_None in B; lia].
  assert (Pb' : Name.isPrefixOf q (Entry.getName b') = true).
  { apply (NameFacts.prefix_interval q _ (Entry.getName b)); auto.
    - apply not_gt_le.
      apply (lower_bound_after q l Hs
               (Index.skipDeleted l (lower_bound q l)) b'); auto. lia.
    - apply (sorted_nth_le l (Index.skipDeleted l (lower_bound q l)) jb);
        auto. lia. }
  (* [last] is the end of the container *)
  assert (Hlast : Index.skipDeleted l
                    (if (Name.size q =? 0)%nat then end_ l
                     else lower_bound (Name.getSuccessor q) l) = length l).
  { assert (E : (if (Name.size q =? 0)%nat then end_ l
                 else lower_bound (Name.getSuccessor q) l) = length l).
    { destruct (Nat.eqb_spec (Name.size q) 0) as [Z0|Z0]; auto.
      apply lower_bound_all_below. intros x Hx.
      destruct (Hin x Hx) as [Px|Px].
      - apply NameFacts.prefix_lt_getSuccessor; auto.
        intros E. apply Z0. now rewrite E.
      - apply (NameFacts.lt_le_trans _ q); auto.
        assert (S1 : Name.compare q (Name.getSuccessor q) = Lt).
        { apply NameFacts.prefix_lt_getSuccessor.
          - intros E. apply Z0. now rewrite E.
          - apply NameFacts.isPrefixOf_refl. }
        rewrite S1. discriminate. }
    rewrite E. apply skipDeleted_to_end; auto.
    intros j x Hj Hx. apply nth_error_None in Hj. congruence. }
  (* one turn *)
  assert (Hp : nth_error l (length front) = Some p).
  { rewrite Hl, nth_error_app2, Nat.sub_diag by lia. reflexivity. }
  assert (Hlen : length l = S (length front)).
  { rewrite Hl, length_app. simpl. lia. }
  assert (Dp : Entry.isDeleted p = true).
  { apply Hdel.
    - eapply nth_error_In; eauto.
    - apply not_lt_ge, firstn_le. }
  assert (Hturn : Index.rightmost_turn interest (Index.publisherHash interest)
                    l (Index.skipDeleted l (lower_bound q l))
                    (S (length front))
                  = Ret (inr (S (length front)))).
  { unfold Index.rightmost_turn, deref. rewrite Hp.
    unfold Entry.isDeleted in Dp. rewrite Dp. simpl negb.
    rewrite andb_false_r. rewrite childOf_getPrefix.
    rewrite (skipDeleted_to_end l
               (lower_bound (Spec.childOf interest p) l)).
    - rewrite Hlen. unfold Index.find_if. rewrite find_if_from_here.
      simpl. now rewrite Nat.eqb_refl.
    - apply lower_bound_le.
    - intros j x Hj Hx. apply Hdel; [eapply nth_error_In; eauto|].
      now apply (lower_bound_after _ l Hs j x). }
  unfold Index.find, Index.selectChild. fold l q.
  rewrite (proj2 (Z.leb_gt _ _) Hc). unfold deref.
  destruct (nth_error l (lower_bound q l)) eqn:B0;
    [|apply nth_error_None in B0; lia].
  rewrite B, Pb', Hlast, Hlen. simpl negb. cbv iota.
  now apply rightmost_loop_stuck.
Qed.

(** X11 on the index that holds /a/1 and the tombstone of /a/2. *)
Lemma X11_rightmost_find_hangs_witness :
  Index.find 1000 Scenario.rightmost Scenario.trailing_tombstone = None.
Proof.
  generalize 1000%nat.
  apply (@X11_rightmost_find_hangs plain Scenario.rightmost
           Scenario.trailing_tombstone
           [Index.Entry_of_Hash Scenario.a1 None 1]
           (Entry.setStatus DELETED (Index.Entry_of_Hash Scenario.a2 None 2))
           (Index.Entry_of_Hash Scenario.a1 None 1)).
  - reflexivity.
  - reflexivity.
  - left. reflexivity.
  - reflexivity.
  - intros x [<-|[<-|[]]]; left; reflexivity.
  - reflexivity.
  - intros x [<-|[<-|[]]] H; [now elim H|reflexivity].
Defined.

(** ** insert followed by erase *)

Lemma replace_inserted (e d : Entry.t) (l : SkipList.t) :
  Entry.getName d = Entry.getName e ->
  lookup (Entry.getName e) l = None ->
  replace d (fst (SkipList.insert e l)) = fst (SkipList.insert d l).
Proof.
  intros Hn. induction l as [|x r IH]; simpl.
  - intros _. rewrite Hn.
    rewrite (proj2 (NameFacts.ltb_false _ _) (NameFacts.lt_irrefl _)).
    now rewrite NameFacts.equals_refl.
  - rewrite Hn.
    rewrite (NameFacts.compare_antisym (Entry.getName x) (Entry.getName e)).
    unfold Name.ltb at 1, Name.equals at 1.
    destruct (Name.compare (Entry.getName x) (Entry.getName e)) eqn:E; simpl.
    + discriminate.
    + intros L. specialize (IH L).
      destruct (SkipList.insert e r) as [r1 b1].
      destruct (SkipList.insert d r) as [r2 b2]. simpl in *.
      rewrite Hn. rewrite (proj2 (NameFacts.ltb_true _ _) E). now rewrite IH.
    + intros _.
      rewrite Hn, (proj2 (NameFacts.ltb_false _ _) (NameFacts.lt_irrefl _)).
      now rewrite NameFacts.equals_refl.
Qed.

Lemma sweep_insert_deleted (d : Entry.t) (l : SkipList.t) :
  Entry.isDeleted d = true -> snd (SkipList.insert d l) = true ->
  Index.sweep (fst (SkipList.insert d l)) = Index.sweep l.
Proof.
  intros D. induction l as [|x r IH]; simpl.
  - intros _. now rewrite D.
  - destruct (Name.compare (Entry.getName d) (Entry.getName x)); simpl.
    + discriminate.
    + intros _. now rewrite D.
    + destruct (SkipList.insert d r) as [r' b]. simpl in *. intros H.
      now rewrite (IH H).
Qed.

Lemma firstOf_sweep (name : Name.t) (l : SkipList.t) :
  Spec.firstOf (Spec.liveDescendant name) (Index.sweep l)
  = Spec.firstOf (Spec.liveDescendant name) l.
Proof.
  unfold Spec.firstOf. rewrite find_sweep.
  assert (E : List.find
                (fun e => negb (Entry.isDeleted e)
                          && Spec.liveDescendant name e) l
              = List.find (Spec.liveDescendant name) l).
  { induction l as [|e r IH]; simpl; auto.
    rewrite IH. unfold Spec.liveDescendant. now destruct (Entry.isDeleted e). }
  now rewrite E.
Qed.

(** X12. insert of a name that has no entry, followed by erase of that
    name, is not seen by the queries: from a container in canonical order
    that is not full, both calls return true, the size is what it was,
    hasData is false for the name, and the bare-name find of every name
    and the find of every interest for the leftmost child answer as
    before the two calls.  Only the tombstone remains, for getStatus and
    entryEnumeration. *)
Theorem X12_insert_then_erase_unseen {ext : External} (name : Name.t)
    (id : Z) (keyLocatorHash : ConstBufferPtr) (ix : Index.t) :
  sorted (Index.m_skipList ix) ->
  (0 <= Index.size ix < size_max)%Z ->
  Index.size ix <> Index.m_maxPackets ix ->
  (forall x, In x (Index.m_skipList ix) -> Entry.getName x <> name) ->
  exists ix1 ix2,
    Index.insertName name id keyLocatorHash ix = Returns true ix1 /\
    Index.erase name ix1 = Returns true ix2 /\
    Index.size ix2 = Index.size ix /\
    Index.hasDataName name ix2 = false /\
    Index.getStatus name ix2 = DELETED /\
    (forall q, Index.findName q ix2 = Index.findName q ix) /\
    (forall fuel interest,
       (Interest.getChildSelector interest <= 0)%Z ->
       Index.find fuel interest ix2 = Index.find fuel interest ix).
Proof.
  intros Hs Hr Hnf Habs. unfold Index.insertName, Index.size in *.
  set (e := Index.Entry_of_Hash name keyLocatorHash id).
  set (d := Entry.setStatus DELETED e).
  pose proof (lookup_absent name _ Habs) as L.
  rewrite (insertEntry_cases e ix Hs). unfold Index.isFull.
  destruct (Z.eqb_spec (Index.m_size ix) (Index.m_maxPackets ix)); [easy|].
  simpl (Entry.getName e). rewrite L.
  set (l1 := fst (SkipList.insert e (Index.m_skipList ix))).
  assert (Hs1 : sorted l1) by now apply insert_sorted.
  assert (Hin1 : In e l1).
  { apply insert_In; auto. now apply insert_true. }
  assert (L1 : lookup name l1 = Some e) by apply (lookup_In l1 e Hs1 Hin1).
  assert (Hs2 : sorted (replace d l1)) by now apply (replace_sorted d e).
  assert (Hd : In d (replace d l1)) by (apply (replace_In d e); auto).
  assert (Hsweep : Index.sweep (replace d l1)
                   = Index.sweep (Index.m_skipList ix)).
  { unfold l1. rewrite (replace_inserted e d) by auto.
    apply sweep_insert_deleted; auto. now apply insert_true. }
  eexists. exists (Index.mk (Index.m_maxPackets ix) (Index.m_size ix)
                     (replace d l1)).
  split; [reflexivity|]. split; [|split; [|split; [|split; [|split]]]].
  - rewrite erase_cases by auto. simpl. rewrite L1. fold d.
    now rewrite wrap_succ_pred, wrap_small.
  - reflexivity.
  - rewrite hasDataName_lookup. simpl.
    change name with (Entry.getName d) at 1.
    now rewrite (lookup_In _ d Hs2 Hd).
  - change name with (Entry.getName d) at 1.
    apply (getStatus_stored d
             (Index.mk (Index.m_maxPackets ix) (Index.m_size ix)
                (replace d l1)) Hs2 Hd).
  - intros q. rewrite !findName_firstOf by auto. simpl.
    rewrite <- (firstOf_sweep q (replace d l1)), Hsweep.
    apply firstOf_sweep.
  - intros fuel interest Hc. rewrite !find_leftmost_scan by auto. simpl.
    rewrite <- (leftmost_scan_sweep interest _ (replace d l1)) by auto.
    rewrite Hsweep. now rewrite leftmost_scan_sweep.
Qed.

(** X12 on the index that holds /a/b, for insert(/a, 1) and erase(/a). *)
Lemma X12_insert_then_erase_unseen_witness :
  exists ix2,
    Index.erase Scenario.a
      (Scenario.after (Index.insertName Scenario.a 1 None
         (Scenario.after (Index.insertName Scenario.ab 2 None
            (Index.Index 10))))) = Returns true ix2 /\
    Index.size ix2 = 1%Z /\
    Index.findName Scenario.a ix2 = (2%Z, Scenario.ab).
Proof.
  destruct (@X12_insert_then_erase_unseen plain Scenario.a 1 None
              (Scenario.after (Index.insertName Scenario.ab 2 None
                 (Index.Index 10))))
    as (ix1 & ix2 & H1 & H2 & Hsize & _ & _ & Hname & _).
  - reflexivity.
  - split; [discriminate|reflexivity].
  - discriminate.
  - intros x [<-|[]]. discriminate.
  - exists ix2. vm_compute in H1. inversion H1; subst ix1; clear H1.
    split; [exact H2|]. split; [rewrite Hsize; reflexivity|].
    rewrite Hname. reflexivity.
Defined.

(** ** Every state an index can be in *)

Lemma sorted_names_NoDup (l : SkipList.t) :
  sorted l -> NoDup (map Entry.getName l).
Proof.
  induction l as [|e r IH]; intros Hs; simpl; [constructor|].
  apply sorted_cons in Hs as [Hlt Hs]. constructor; auto.
  intros Hin. apply in_map_iff in Hin as (x & Hn & Hx).
  specialize (Hlt x Hx). rewrite Hn, NameFacts.compare_refl in Hlt.
  discriminate.
Qed.

(** X13. In every state that the constructor, insert, erase and
    removeDeletedEntry can produce, whether they return or throw, the
    container is in strictly increasing canonical order of names, so
    entryEnumeration visits no name twice (a name has at most one entry,
    live or tombstone), and the size is a [size_t] value. *)
Theorem X13_reachable_states (ix : Index.t) :
  reachable ix ->
  sorted (Index.m_skipList ix) /\
  NoDup (Index.entryEnumeration (fun name _ => name) ix) /\
  (0 <= Index.size ix < size_max)%Z.
Proof.
  intros H. pose proof (reachable_sorted ix H) as Hs.
  split; [exact Hs|]. split.
  - now apply sorted_names_NoDup.
  - now apply reachable_size_range.
Qed.

(** X13 on the index after insert(/a, 1), erase(/a), erase(/a). *)
Lemma X13_reachable_states_witness :
  NoDup (Index.entryEnumeration (fun name _ => name) Scenario.erased_twice) /\
  (0 <= Index.size Scenario.erased_twice < size_max)%Z.
Proof.
  apply (X13_reachable_states Scenario.erased_twice).
  unfold Scenario.erased_twice, Scenario.erased_once, Scenario.full_one,
    Index.insertName.
  repeat constructor.
Defined.

(** ** hasData *)

(** X14. On a container in canonical order hasData is true for a content
    item exactly when some entry has the full name of the item and is not
    DELETED; and then the bare-name find of that name returns an entry of
    exactly that name. *)
Theorem X14_hasData_meaning {ext : External} (data : Data.t) (ix : Index.t) :
  sorted (Index.m_skipList ix) ->
  (Index.hasData data ix = true <->
   exists e, In e (Index.m_skipList ix)
             /\ Entry.getName e = Data.getFullName data
             /\ Entry.getStatus e <> DELETED) /\
  (Index.hasData data ix = true ->
   exists id, Index.findName (Data.getFullName data) ix
              = (id, Data.getFullName data)).
Proof.
  intros Hs. unfold Index.hasData. simpl. rewrite hasDataName_lookup.
  assert (Hiff : match lookup (Data.getFullName data) (Index.m_skipList ix) with
                 | Some e => negb (Entry.isDeleted e)
                 | None => false
                 end = true <->
                 exists e, In e (Index.m_skipList ix)
                           /\ Entry.getName e = Data.getFullName data
                           /\ Entry.getStatus e <> DELETED).
  { split.
    - destruct (lookup (Data.getFullName data) (Index.m_skipList ix))
        as [e|] eqn:L; [|discriminate].
      intros H. apply negb_true_iff, isDeleted_false in H.
      destruct (lookup_Some _ _ _ L) as [He Hn]. eauto.
    - intros (e & He & Hn & Hd). rewrite <- Hn, (lookup_In _ e Hs He).
      apply negb_true_iff. now apply isDeleted_false. }
  split; [exact Hiff|].
  intros H. apply Hiff in H as (e & He & Hn & Hd).
  exists (Entry.getId e). rewrite <- Hn.
  apply (findName_stored e ix Hs He). now apply isDeleted_false.
Qed.

(** X14 on the index that holds the unsigned /a/1. *)
Lemma X14_hasData_meaning_witness :
  exists id,
    Index.findName Scenario.a1 Scenario.unsigned_only = (id, Scenario.a1).
Proof.
  destruct (@X14_hasData_meaning plain Scenario.unsigned_a1
              Scenario.unsigned_only eq_refl) as [_ H].
  apply H. reflexivity.
Defined.

(** ** Without tombstones the loop of the rightmost branch ends *)

Section NoTombstones.

Context {ext : External}.

(** The one undefined step of the predicate is the read of an absent
    hash. *)
Lemma matches_undefined_step (interest : Interest.t) (e : Entry.t) (u : UB) :
  Index.matchesSimpleSelectors interest (Index.publisherHash interest) e
  = Undef u ->
  u = NullDereference.
Proof.
  rewrite matches_outcome.
  destruct (Spec.reachesPublisherFilter interest e
            && negb (keyLocator_empty
                       (Interest.getPublisherPublicKeyLocator interest))
            && match Entry.getKeyLocatorHash e with
               | None => true
               | Some _ => false
               end); [|discriminate].
  congruence.
Qed.

Lemma find_if_bounds (pred : Entry.t -> M bool) (l : SkipList.t) :
  (forall e u, pred e = Undef u -> u = NullDereference) ->
  forall n first last : nat,
  (last = first + n)%nat -> (last <= length l)%nat ->
  Index.find_if pred l first last = Undef NullDereference
  \/ exists m, Index.find_if pred l first last = Ret m
               /\ (first <= m <= last)%nat.
Proof.
  intros Hu. unfold Index.find_if.
  induction n as [|n IH]; intros first last Hn Hl.
  - right. exists last. replace first with last by lia.
    rewrite find_if_from_here. split; [reflexivity|lia].
  - destruct (skipn first l) as [|x r] eqn:Sk.
    { apply skipn_nil_inv, nth_error_None in Sk. lia. }
    destruct (skipn_cons_inv _ _ _ _ Sk) as [Hx Hr].
    simpl. destruct (Nat.eqb_spec first last) as [E|_]; [lia|].
    destruct (pred x) as [b|u] eqn:P; simpl.
    2:{ left. now rewrite (Hu x u P). }
    destruct b.
    + right. exists first. split; [reflexivity|lia].
    + destruct (IH (S first) last) as [Hud|(m & Hm & Hrange)]; try lia.
      * left. now rewrite Hr in Hud.
      * right. exists m. rewrite Hr in Hm. split; [exact Hm|lia].
Qed.

Lemma leftmost_from_outcome (interest : Interest.t) (s : list Entry.t) :
  (exists r, Index.leftmost_from interest (Index.publisherHash interest) s
             = Ret r)
  \/ Index.leftmost_from interest (Index.publisherHash interest) s
     = Undef NullDereference.
Proof.
  induction s as [|x t IH]; simpl; [eauto|].
  destruct (status_eqb (Entry.getStatus x) DELETED); auto.
  destruct (negb (Name.isPrefixOf (Interest.getName interest)
                    (Entry.getName x))); [eauto|].
  destruct (Index.matchesSimpleSelectors interest
              (Index.publisherHash interest) x) as [b|u] eqn:P; simpl.
  - destruct b; eauto.
  - right. now rewrite (matches_undefined_step interest x u P).
Qed.

Lemma rightmost_loop_ends (interest : Interest.t) (l : SkipList.t)
    (boundary : nat) :
  (forall e, In e l -> Entry.isDeleted e = false) ->
  forall fuel last : nat,
  (last <= length l)%nat -> (last < fuel)%nat ->
  (exists r, Index.rightmost_loop fuel interest
               (Index.publisherHash interest) l boundary last
             = Some (Ret r))
  \/ Index.rightmost_loop fuel interest (Index.publisherHash interest) l
       boundary last = Some (Undef NullDereference)
  \/ Index.rightmost_loop fuel interest (Index.publisherHash interest) l
       boundary last = Some (Undef BeginDecrement).
Proof.
  intros Hlive. induction fuel as [|fuel IH]; intros last Hl Hf; [lia|].
  simpl. unfold Index.rightmost_turn, deref.
  destruct last as [|prev]; [auto|].
  destruct (nth_error l prev) as [p|] eqn:Hp;
    [|apply nth_error_None in Hp; lia].
  destruct ((prev =? boundary)%nat
            && negb (status_eqb (Entry.getStatus p) DELETED)).
  - destruct (Index.matchesSimpleSelectors interest
                (Index.publisherHash interest) p) as [b|u] eqn:P; simpl.
    + destruct b; eauto.
    + right. left. now rewrite (matches_undefined_step interest p u P).
  - rewrite skipDeleted_stay by auto.
    assert (Hfirst : (lower_bound
                        (Name.getPrefix
                           (Z.of_nat (Name.size (Interest.getName interest))
                            + 1) (Entry.getName p)) l <= prev)%nat).
    { apply (lower_bound_le_pos _ l prev p Hp).
      rewrite NameFacts.getPrefix_size_succ. apply not_lt_ge, firstn_le. }
    revert Hfirst.
    generalize (lower_bound
                  (Name.getPrefix
                     (Z.of_nat (Name.size (Interest.getName interest)) + 1)
                     (Entry.getName p)) l) as first.
    intros first Hfirst.
    destruct (find_if_bounds
                (Index.matchesSimpleSelectors interest
                   (Index.publisherHash interest)) l
                (matches_undefined_step interest)
                (S prev - first) first (S prev))
      as [Hu|(m & Hm & Hrange)]; try lia.
    + rewrite Hu. simpl. auto.
    + rewrite Hm. simpl.
      destruct (Nat.eqb_spec m (S prev)) as [E|E]; simpl.
      * apply IH; lia.
      * destruct (nth_error l m) eqn:He; [eauto|].
        apply nth_error_None in He. lia.
Qed.

End NoTombstones.

(** X15. On a container without tombstones, as removeDeletedEntry leaves
    it, a turn of the loop per entry and one more are enough for find,
    with either child selector, to return a value or to reach an undefined
    step; and that step is the read of an absent hash in the publisher
    filter or the decrement of [begin()], never a dereference of
    [end()]. *)
Theorem X15_find_outcome_without_tombstones {ext : External} (fuel : nat)
    (interest : Interest.t) (ix : Index.t) :
  (forall e, In e (Index.m_skipList ix) -> Entry.isDeleted e = false) ->
  (length (Index.m_skipList ix) < fuel)%nat ->
  (exists r, Index.find fuel interest ix = Some (Ret r))
  \/ Index.find fuel interest ix = Some (Undef NullDereference)
  \/ Index.find fuel interest ix = Some (Undef BeginDecrement).
Proof.
  intros Hlive Hf. unfold Index.find, Index.selectChild.
  destruct (deref (Index.m_skipList ix)
              (lower_bound (Interest.getName interest) (Index.m_skipList ix)));
    [|eauto].
  destruct (Interest.getChildSelector interest <=? 0)%Z.
  { destruct (leftmost_from_outcome interest
                (skipn (lower_bound (Interest.getName interest)
                          (Index.m_skipList ix)) (Index.m_skipList ix)))
      as [[r Hr]|Hu].
    - left. exists r. now rewrite Hr.
    - right. left. now rewrite Hu. }
  destruct (deref (Index.m_skipList ix)
              (Index.skipDeleted (Index.m_skipList ix)
                 (lower_bound (Interest.getName interest)
                    (Index.m_skipList ix)))) as [b|]; [|eauto].
  destruct (negb (Name.isPrefixOf (Interest.getName interest)
                    (Entry.getName b))); [eauto|].
  rewrite !skipDeleted_stay by auto.
  assert (Hlast : ((if (Name.size (Interest.getName interest) =? 0)%nat
                    then end_ (Index.m_skipList ix)
                    else lower_bound
                           (Name.getSuccessor (Interest.getName interest))
                           (Index.m_skipList ix))
                   <= length (Index.m_skipList ix))%nat).
  { destruct (Name.size (Interest.getName interest) =? 0)%nat;
      unfold end_; auto.
    apply lower_bound_le. }
  apply rightmost_loop_ends; auto.
  eapply Nat.le_lt_trans; eauto.
Qed.

(** X15 on the index that holds /a/1/x and /a/1/y, for the rightmost child
    of /a with five components at least below it. *)
Lemma X15_find_outcome_without_tombstones_witness :
  (exists r, Index.find 3 Scenario.rightmost_deep Scenario.one_subtree
             = Some (Ret r))
  \/ Index.find 3 Scenario.rightmost_deep Scenario.one_subtree
     = Some (Undef NullDereference)
  \/ Index.find 3 Scenario.rightmost_deep Scenario.one_subtree
     = Some (Undef BeginDecrement).
Proof.
  apply (@X15_find_outcome_without_tombstones plain 3 Scenario.rightmost_deep
           Scenario.one_subtree).
  - intros e [<-|[<-|[]]]; reflexivity.
  - simpl. lia.
Defined.

(** ** The rightmost branch when no entry satisfies the interest *)

Lemma isPrefixOf_trans (a b c : Name.t) :
  Name.isPrefixOf a b = true -> Name.isPrefixOf b c = true ->
  Name.isPrefixOf a c = true.
Proof.
  intros H1 H2. apply NameFacts.isPrefixOf_iff in H1 as [s ->].
  apply NameFacts.isPrefixOf_iff in H2 as [t ->].
  rewrite <- app_assoc. apply NameFacts.isPrefixOf_app.
Qed.

Lemma prefix_of_firstn_succ (q x : Name.t) :
  Name.isPrefixOf q x = true ->
  Name.isPrefixOf q (firstn (S (length q)) x) = true.
Proof.
  intros H. apply NameFacts.isPrefixOf_iff in H as [s ->].
  rewrite firstn_app, firstn_all2 by lia. apply NameFacts.isPrefixOf_app.
Qed.

Section NoMatch.

Context {ext : External}.

Variable interest : Interest.t.
Variable l : SkipList.t.
Variable b : Entry.t.

Hypothesis Hs : sorted l.
Hypothesis Hlive : forall e, In e l -> Entry.isDeleted e = false.
Hypothesis Hpred : forall e, In e l ->
  Index.matchesSimpleSelectors interest (Index.publisherHash interest) e
  = Ret (Spec.satisfies interest e).
Hypothesis Hnone : forall e, In e l -> Spec.satisfies interest e = false.
Hypothesis Hb : nth_error l (lower_bound (Interest.getName interest) l)
                = Some b.
Hypothesis Pb : Name.isPrefixOf (Interest.getName interest) (Entry.getName b)
                = true.

(** An entry in the child subtree of [b] is under the query name. *)
Lemma shares_descendant (x : Entry.t) :
  Spec.childOf interest x = Spec.childOf interest b ->
  Name.isPrefixOf (Interest.getName interest) (Entry.getName x) = true.
Proof.
  unfold Spec.childOf. intros E.
  apply (isPrefixOf_trans _ (firstn (S (length (Interest.getName interest)))
                               (Entry.getName x))).
  - rewrite E. now apply prefix_of_firstn_succ.
  - apply NameFacts.isPrefixOf_firstn.
Qed.

Lemma rightmost_loop_S (fuel : nat) (hash : ConstBufferPtr)
    (boundary last : nat) :
  Index.rightmost_loop (S fuel) interest hash l boundary last
  = match Index.rightmost_turn interest hash l boundary last with
    | Undef u => Some (Undef u)
    | Ret (inl r) => Some (Ret r)
    | Ret (inr last') =>
        Index.rightmost_loop fuel interest hash l boundary last'
    end.
Proof. reflexivity. Qed.

(** One turn on a window that does not end on the boundary entry alone:
    nothing is found and [last] moves to the start of the subtree of the
    entry before it. *)
Lemma unmatched_turn (prev : nat) (p : Entry.t) :
  nth_error l prev = Some p ->
  prev <> lower_bound (Interest.getName interest) l ->
  Index.rightmost_turn interest (Index.publisherHash interest) l
    (lower_bound (Interest.getName interest) l) (S prev)
  = Ret (inr (lower_bound (Spec.childOf interest p) l))
  /\ (lower_bound (Spec.childOf interest p) l <= prev)%nat.
Proof.
  intros Hp Hne.
  assert (Hfirst : (lower_bound (Spec.childOf interest p) l <= prev)%nat).
  { apply (lower_bound_le_pos _ l prev p Hp). apply not_lt_ge, firstn_le. }
  split; auto.
  unfold Index.rightmost_turn, deref. rewrite Hp.
  destruct (Nat.eqb_spec prev (lower_bound (Interest.getName interest) l));
    [contradiction|].
  simpl andb. cbv iota. rewrite childOf_getPrefix.
  rewrite skipDeleted_stay by auto.
  assert (Hprev : (prev < length l)%nat) by (apply nth_error_Some; congruence).
  destruct (find_if_spec
              (Index.matchesSimpleSelectors interest
                 (Index.publisherHash interest))
              (Spec.satisfies interest) l Hpred
              (S prev - lower_bound (Spec.childOf interest p) l)
              (lower_bound (Spec.childOf interest p) l) (S prev))
    as (m & Hm & Hrange & _ & Hsome); try lia.
  rewrite Hm. simpl.
  destruct (Nat.eqb_spec m (S prev)) as [E|E]; simpl; auto.
  destruct Hsome as (e & He & Se); [lia|].
  rewrite (Hnone e (nth_error_In _ _ He)) in Se. discriminate.
Qed.

(** Once [last] is at or before the boundary, the loop steps back to the
    first entry of the container and decrements [begin()]. *)
Lemma loop_leaves_container :
  forall fuel last : nat,
  (last <= lower_bound (Interest.getName interest) l)%nat ->
  (last < fuel)%nat ->
  Index.rightmost_loop fuel interest (Index.publisherHash interest) l
    (lower_bound (Interest.getName interest) l) last
  = Some (Undef BeginDecrement).
Proof.
  induction fuel as [|fuel IH]; intros last Hl Hf; [lia|].
  destruct last as [|prev]; [reflexivity|].
  assert (Hlen : (lower_bound (Interest.getName interest) l < length l)%nat)
    by (apply nth_error_Some; congruence).
  destruct (nth_error l prev) as [p|] eqn:Hp;
    [|apply nth_error_None in Hp; lia].
  destruct (unmatched_turn prev p Hp) as [Hturn Hfirst]; [lia|].
  rewrite rightmost_loop_S, Hturn. apply IH; lia.
Qed.

(** The loop from a window that starts at the boundary, when no entry
    from [last] on lies in the child subtree of [b]. *)
Lemma loop_without_match :
  forall fuel last : nat,
  (lower_bound (Interest.getName interest) l < last <= length l)%nat ->
  (last < fuel)%nat ->
  (forall j x, (last <= j)%nat -> nth_error l j = Some x ->
               Spec.childOf interest x <> Spec.childOf interest b) ->
  ((forall x, In x l -> Spec.childOf interest x = Spec.childOf interest b ->
              x = b) ->
   Index.rightmost_loop fuel interest (Index.publisherHash interest) l
     (lower_bound (Interest.getName interest) l) last
   = Some (Ret Index.notFound)) /\
  (forall x, In x l -> x <> b ->
             Spec.childOf interest x = Spec.childOf interest b ->
   Index.rightmost_loop fuel interest (Index.publisherHash interest) l
     (lower_bound (Interest.getName interest) l) last
   = Some (Undef BeginDecrement)).
Proof.
  induction fuel as [|fuel IH]; intros last Hl Hf Hbeyond; [lia|].
  destruct last as [|prev]; [lia|].
  destruct (nth_error l prev) as [p|] eqn:Hp;
    [|apply nth_error_None in Hp; lia].
  destruct (Nat.eq_dec prev (lower_bound (Interest.getName interest) l))
    as [E|E].
  - (* the window is the boundary entry alone *)
    subst prev. assert (p = b) by congruence. subst p.
    assert (Hturn : Index.rightmost_turn interest
                      (Index.publisherHash interest) l
                      (lower_bound (Interest.getName interest) l)
                      (S (lower_bound (Interest.getName interest) l))
                    = Ret (inl Index.notFound)).
    { unfold Index.rightmost_turn, deref. rewrite Hb, Nat.eqb_refl.
      pose proof (Hlive b (nth_error_In _ _ Hb)) as Lb.
      unfold Entry.isDeleted in Lb. rewrite Lb. simpl.
      rewrite (Hpred b (nth_error_In _ _ Hb)).
      now rewrite (Hnone b (nth_error_In _ _ Hb)). }
    rewrite rightmost_loop_S, Hturn. split; [reflexivity|].
    intros x Hx Hne Hc. exfalso.
    destruct (In_nth_error _ _ Hx) as [j Hj].
    destruct (Nat.lt_trichotomy j (lower_bound (Interest.getName interest) l))
      as [Hlt|[Heq|Hgt]].
    + pose proof (lower_bound_before _ l j x Hlt Hj) as Hbelow.
      pose proof (NameFacts.prefix_le _ _ (shares_descendant x Hc)) as Hge.
      apply NameFacts.gt_lt in Hbelow. contradiction.
    + subst j. congruence.
    + apply (Hbeyond j x); auto.
  - destruct (unmatched_turn prev p Hp E) as [Hturn Hfirst].
    rewrite rightmost_loop_S, Hturn.
    destruct (Nat.le_gt_cases (lower_bound (Spec.childOf interest p) l)
                (lower_bound (Interest.getName interest) l)) as [Hle|Hgt].
    + (* the subtree before [last] is that of the boundary entry *)
      assert (Hshare : Spec.childOf interest b = Spec.childOf interest p).
      { apply child_interval.
        - apply not_gt_le.
          apply (lower_bound_after _ l Hs
                   (lower_bound (Interest.getName interest) l) b); auto.
        - apply (sorted_nth_le l
                   (lower_bound (Interest.getName interest) l) prev); auto.
          lia. }
      split.
      * intros Halone. exfalso. apply E.
        assert (p = b) by (apply Halone; [eapply nth_error_In; eauto|auto]).
        subst p. destruct (Nat.lt_trichotomy prev
                             (lower_bound (Interest.getName interest) l))
          as [H1|[H1|H1]]; auto.
        -- pose proof (sorted_nth l Hs _ _ _ _ H1 Hp Hb) as C.
           now apply NameFacts.lt_irrefl in C.
        -- pose proof (sorted_nth l Hs _ _ _ _ H1 Hb Hp) as C.
           now apply NameFacts.lt_irrefl in C.
      * intros _ _ _ _. apply loop_leaves_container; lia.
    + apply IH; try lia.
      intros j x Hj Hx Hc.
      destruct (Nat.le_gt_cases (S prev) j) as [Hout|Hin].
      * apply (Hbeyond j x); auto.
      * assert (Hxp : Spec.childOf interest x = Spec.childOf interest p).
        { apply child_interval.
          - apply not_gt_le. apply (lower_bound_after _ l Hs j x); auto.
          - apply (sorted_nth_le l j prev); auto. lia. }
        assert (Hpos : (lower_bound (Spec.childOf interest p) l
                        <= lower_bound (Interest.getName interest) l)%nat).
        { apply (lower_bound_le_pos _ l _ b Hb).
          rewrite <- Hxp, Hc. apply not_lt_ge, firstn_le. }
        lia.
Qed.

End NoMatch.

(** X16. The rightmost branch when nothing satisfies the interest, on a
    container in canonical order without tombstones, none of whose entries
    makes the publisher filter read an absent hash (an entry that passes
    the tests before the filter carries a hash when the interest names a
    publisher).  Let [b] be the least entry under the query name.  If no other entry lies in the child
    subtree of [b] (its name cut one component below the query name),
    find returns the not-found pair.  If another entry does, the loop
    never meets the test that ends it: it walks back past the first entry
    of the container and decrements [begin()]. *)
Theorem X16_rightmost_without_match {ext : External} (fuel : nat)
    (interest : Interest.t) (ix : Index.t) (b : Entry.t) :
  sorted (Index.m_skipList ix) ->
  (forall e, In e (Index.m_skipList ix) -> Entry.isDeleted e = false) ->
  (forall e, In e (Index.m_skipList ix) ->
             Spec.readsAbsentHash interest e = false) ->
  (0 < Interest.getChildSelector interest)%Z ->
  (forall e, In e (Index.m_skipList ix) ->
             Spec.satisfies interest e = false) ->
  (length (Index.m_skipList ix) < fuel)%nat ->
  In b (Index.m_skipList ix) ->
  Spec.descendant (Interest.getName interest) b = true ->
  (forall x, In x (Index.m_skipList ix) ->
             Spec.descendant (Interest.getName interest) x = true ->
             Name.compare (Entry.getName b) (Entry.getName x) <> Gt) ->
  ((forall x, In x (Index.m_skipList ix) ->
              Spec.childOf interest x = Spec.childOf interest b -> x = b) ->
   Index.find fuel interest ix = Some (Ret Index.notFound)) /\
  (forall x, In x (Index.m_skipList ix) -> x <> b ->
             Spec.childOf interest x = Spec.childOf interest b ->
   Index.find fuel interest ix = Some (Undef BeginDecrement)).
Proof.
  intros Hs Hlive Hh Hc Hnone Hf Hin Pb Hleast.
  set (l := Index.m_skipList ix) in *.
  set (q := Interest.getName interest) in *.
  unfold Spec.descendant in Pb.
  assert (Hpred : forall e, In e l ->
            Index.matchesSimpleSelectors interest
              (Index.publisherHash interest) e
            = Ret (Spec.satisfies interest e)).
  { intros e He. rewrite matches_outcome.
    specialize (Hh e He). unfold Spec.readsAbsentHash in Hh.
    now rewrite Hh. }
  (* [b] is at the lower bound of the query name *)
  destruct (In_nth_error _ _ Hin) as [jb Hjb].
  assert (Hlo : (lower_bound q l <= jb)%nat).
  { apply (lower_bound_le_pos q l jb b Hjb).
    apply not_lt_ge, NameFacts.prefix_le, Pb. }
  assert (Hjb' : (jb < length l)%nat) by (apply nth_error_Some; congruence).
  destruct (nth_error l (lower_bound q l)) as [b0|] eqn:B0;
    [|apply nth_error_None in B0; lia].
  assert (Pb0 : Name.isPrefixOf q (Entry.getName b0) = true).
  { apply (NameFacts.prefix_interval q _ (Entry.getName b)); auto.
    - apply not_gt_le.
      apply (lower_bound_after q l Hs (lower_bound q l) b0); auto.
    - apply (sorted_nth_le l (lower_bound q l) jb); auto. }
  assert (b0 = b).
  { apply (sorted_name_inj l Hs); auto; [eapply nth_error_In; eauto|].
    apply NameFacts.le_antisym.
    - apply (sorted_nth_le l (lower_bound q l) jb); auto.
    - apply Hleast; auto. eapply nth_error_In; eauto. }
  subst b0.
  (* the window *)
  set (last := if (Name.size q =? 0)%nat then end_ l
               else lower_bound (Name.getSuccessor q) l).
  assert (Hlast : (lower_bound q l < last <= length l)%nat).
  { unfold last. destruct (Nat.eqb_spec (Name.size q) 0) as [Z0|Z0].
    - unfold end_. split; auto. apply nth_error_Some. congruence.
    - split; [|apply lower_bound_le].
      apply (lower_bound_gt_pos _ l _ b Hs B0).
      apply NameFacts.prefix_lt_getSuccessor; auto.
      intros E. apply Z0. now rewrite E. }
  assert (Hbeyond : forall j x, (last <= j)%nat -> nth_error l j = Some x ->
            Spec.childOf interest x <> Spec.childOf interest b).
  { unfold last. intros j x Hj Hx Hshare.
    destruct (Nat.eqb_spec (Name.size q) 0) as [Z0|Z0].
    - apply nth_error_None in Hj. unfold end_ in Hj. congruence.
    - apply (lower_bound_after _ l Hs j x Hj Hx).
      apply NameFacts.prefix_lt_getSuccessor.
      + intros E. apply Z0. now rewrite E.
      + apply (shares_descendant interest b Pb x Hshare). }
  assert (Hfind : Index.find fuel interest ix
                  = Index.rightmost_loop fuel interest
                      (Index.publisherHash interest) l (lower_bound q l) last).
  { unfold Index.find, Index.selectChild. fold l q.
    rewrite (proj2 (Z.leb_gt _ _) Hc). unfold deref.
    rewrite !skipDeleted_stay by auto. rewrite B0, Pb. reflexivity. }
  rewrite Hfind.
  apply (loop_without_match interest l b Hs Hlive Hpred Hnone B0 Pb fuel last);
    auto.
  lia.
Qed.

(** X16 on the index that holds /a/1, /a/2 and /a/3, where /a/1 is alone
    in its subtree, and on the index that holds /a/1/x and /a/1/y, where
    it is not, for an interest that asks for entries five components
    below /a; and on the index that holds /0 without hash and the signed
    /a/1, for another publisher. *)
Lemma X16_rightmost_without_match_witness :
  Index.find 4 Scenario.rightmost_deep Scenario.three_children
    = Some (Ret Index.notFound) /\
  Index.find 3 Scenario.rightmost_deep Scenario.one_subtree
    = Some (Undef BeginDecrement) /\
  Index.find 3 Scenario.rightmost_by_other Scenario.unsigned_outside
    = Some (Ret Index.notFound).
Proof.
  split; [|split].
  - destruct (@X16_rightmost_without_match plain 4 Scenario.rightmost_deep
                Scenario.three_children
                (Index.Entry_of_Hash Scenario.a1 None 1)) as [H _].
    + reflexivity.
    + intros e [<-|[<-|[<-|[]]]]; reflexivity.
    + intros e [<-|[<-|[<-|[]]]]; reflexivity.
    + reflexivity.
    + intros e [<-|[<-|[<-|[]]]]; reflexivity.
    + simpl. lia.
    + left. reflexivity.
    + reflexivity.
    + intros x [<-|[<-|[<-|[]]]] _; discriminate.
    + apply H. intros x [<-|[<-|[<-|[]]]] Hc; auto; discriminate.
  - destruct (@X16_rightmost_without_match plain 3 Scenario.rightmost_deep
                Scenario.one_subtree
                (Index.Entry_of_Hash Scenario.a1x None 1)) as [_ H].
    + reflexivity.
    + intros e [<-|[<-|[]]]; reflexivity.
    + intros e [<-|[<-|[]]]; reflexivity.
    + reflexivity.
    + intros e [<-|[<-|[]]]; reflexivity.
    + simpl. lia.
    + left. reflexivity.
    + reflexivity.
    + intros x [<-|[<-|[]]] _; discriminate.
    + apply (H (Index.Entry_of_Hash Scenario.a1y None 2)).
      * right. left. reflexivity.
      * discriminate.
      * reflexivity.
  - destruct (@X16_rightmost_without_match plain 3 Scenario.rightmost_by_other
                Scenario.unsigned_outside
                (Index.Entry_of_Data Scenario.signed_a1 2)) as [H _].
    + reflexivity.
    + intros e [<-|[<-|[]]]; reflexivity.
    + intros e [<-|[<-|[]]]; reflexivity.
    + reflexivity.
    + intros e [<-|[<-|[]]]; reflexivity.
    + simpl. lia.
    + right. left. reflexivity.
    + reflexivity.
    + intros x [<-|[<-|[]]] Hx; discriminate.
    + apply H. intros x [<-|[<-|[]]] Hc; auto; discriminate.
Defined.

(** * The rightmost child, on every state *)

(** ** The successor is the next name *)

Lemma to_N_inj (a b : byte) : Byte.to_N a = Byte.to_N b -> a = b.
Proof.
  intros H.
  assert (E : Byte.of_N (Byte.to_N a) = Byte.of_N (Byte.to_N b))
    by (now rewrite H).
  rewrite !Byte.of_to_N in E. now inversion E.
Qed.

Lemma bytes_compare_antisym (a b : Component.t) :
  list_compare Component.byte_compare b a
  = CompOpp (list_compare Component.byte_compare a b).
Proof.
  apply list_compare_antisym.
  - apply ComponentFacts.byte_compare_eq.
  - apply ComponentFacts.byte_compare_antisym.
Qed.

Lemma bytes_compare_eq (a b : Component.t) :
  list_compare Component.byte_compare a b = Eq -> a = b.
Proof. apply (list_compare_refl _ ComponentFacts.byte_compare_eq). Qed.

(** No component of [n] bytes is below the one of [n] zero bytes, and
    none is above the one of [n] bytes 0xFF. *)
Lemma zeros_least (n : nat) :
  forall d : Component.t, length d = n ->
  list_compare Component.byte_compare d (repeat x00 n) <> Lt.
Proof.
  induction n as [|n IH]; intros [|e s] Hl; simpl in *; try discriminate.
  unfold Component.byte_compare at 1. simpl Byte.to_N.
  destruct (N.compare_spec (Byte.to_N e) 0) as [E|L|G]; try discriminate.
  - apply IH. lia.
  - lia.
Qed.

Lemma ones_greatest (n : nat) :
  forall d : Component.t, length d = n ->
  list_compare Component.byte_compare d (repeat xff n) <> Gt.
Proof.
  induction n as [|n IH]; intros [|e s] Hl; simpl in *; try discriminate.
  unfold Component.byte_compare at 1. simpl Byte.to_N.
  pose proof (Byte.to_N_bounded e).
  destruct (N.compare_spec (Byte.to_N e) 255) as [E|L|G]; try discriminate.
  - apply IH. lia.
  - lia.
Qed.

(** The carry leaves the first byte exactly on the bytes 0xFF, which it
    turns into zero bytes. *)
Lemma increment_overflow (c : Component.t) :
  snd (Component.increment c) = true ->
  c = repeat xff (length c)
  /\ fst (Component.increment c) = repeat x00 (length c).
Proof.
  induction c as [|b r IH]; simpl; auto.
  destruct (Component.increment r) as [r' o]; simpl in *.
  destruct o; simpl; [|discriminate].
  intros Hz. destruct IH as [Hr Hr']; auto.
  unfold Component.is_zero in Hz. apply N.eqb_eq in Hz.
  pose proof Hz as Hz'. rewrite ComponentFacts.to_N_byte_succ in Hz'.
  pose proof (Byte.to_N_bounded b).
  assert (Hb : Byte.to_N b = 255%N).
  { destruct (N.eq_dec (Byte.to_N b) 255) as [E|E]; auto.
    rewrite N.mod_small in Hz' by lia. lia. }
  split.
  - rewrite <- Hr. f_equal. now apply to_N_inj.
  - rewrite Hr'. f_equal. now apply to_N_inj.
Qed.

(** Without carry out of the first byte, no component of the same length
    lies between a component and its increment. *)
Lemma increment_next (c : Component.t) :
  snd (Component.increment c) = false ->
  forall d : Component.t, length d = length c ->
  list_compare Component.byte_compare c d <> Gt ->
  list_compare Component.byte_compare d (fst (Component.increment c)) = Lt ->
  d = c.
Proof.
  induction c as [|b r IH]; simpl; [discriminate|].
  pose proof (increment_overflow r) as Hov.
  destruct (Component.increment r) as [r' o]; simpl in *.
  destruct o; simpl; intros Hz [|e s] Hl; simpl in Hl; try discriminate;
    simpl.
  - destruct Hov as [Hr Hr']; auto.
    unfold Component.is_zero in Hz. apply N.eqb_neq in Hz.
    rewrite ComponentFacts.to_N_byte_succ in Hz.
    pose proof (Byte.to_N_bounded b).
    assert (Hb : Byte.to_N (Component.byte_succ b) = (Byte.to_N b + 1)%N).
    { rewrite ComponentFacts.to_N_byte_succ.
      destruct (N.eq_dec (Byte.to_N b) 255) as [E|E].
      - rewrite E in Hz. now compute in Hz.
      - apply N.mod_small. lia. }
    unfold Component.byte_compare at 1 3. rewrite Hb.
    destruct (N.compare_spec (Byte.to_N b) (Byte.to_N e)) as [E1|L1|G1];
      intros H1; try (now elim H1).
    + destruct (N.compare_spec (Byte.to_N e) (Byte.to_N b + 1))
        as [E2|L2|G2]; try lia.
      intros _. apply to_N_inj in E1. subst e. f_equal.
      apply bytes_compare_eq.
      pose proof (ones_greatest (length r) s ltac:(lia)) as Hs.
      rewrite <- Hr in Hs.
      rewrite bytes_compare_antisym in H1.
      destruct (list_compare Component.byte_compare s r); simpl in *;
        congruence.
    + destruct (N.compare_spec (Byte.to_N e) (Byte.to_N b + 1))
        as [E2|L2|G2]; try lia; try discriminate.
      intros H2. rewrite Hr' in H2.
      apply zeros_least in H2; [contradiction|lia].
  - unfold Component.byte_compare at 1 3.
    destruct (N.compare_spec (Byte.to_N b) (Byte.to_N e)) as [E1|L1|G1];
      intros H1; try (now elim H1).
    + rewrite E1, N.compare_refl. intros H2.
      apply to_N_inj in E1. subst e. f_equal. apply IH; auto.
    + destruct (N.compare_spec (Byte.to_N e) (Byte.to_N b)) as [E2|L2|G2];
        try lia; discriminate.
Qed.

(** A component has no component between itself and its successor. *)
Lemma getSuccessor_next (c d : Component.t) :
  Component.compare c d <> Gt ->
  Component.compare d (Component.getSuccessor c) = Lt ->
  d = c.
Proof.
  unfold Component.compare, Component.getSuccessor.
  pose proof (ComponentFacts.increment_length c) as HL.
  pose proof (increment_overflow c) as Hov.
  pose proof (increment_next c) as Hnext.
  destruct (Component.increment c) as [c' o]; simpl in *.
  destruct o.
  - destruct Hov as [Hc Hc']; auto.
    rewrite length_app, HL. simpl.
    destruct (Nat.compare_spec (length c) (length d)) as [E1|L1|G1];
      intros H1; try (now elim H1).
    + destruct (Nat.compare_spec (length d) (length c + 1)) as [E2|L2|G2];
        try lia; try discriminate.
      intros _.
      apply bytes_compare_eq.
      pose proof (ones_greatest (length c) d ltac:(lia)) as Hs.
      rewrite <- Hc in Hs.
      rewrite bytes_compare_antisym in H1.
      destruct (list_compare Component.byte_compare d c); simpl in *;
        congruence.
    + destruct (Nat.compare_spec (length d) (length c + 1)) as [E2|L2|G2];
        try lia; try discriminate.
      intros H2. rewrite Hc' in H2.
      replace (repeat x00 (length c) ++ [x00])
        with (repeat x00 (S (length c))) in H2
        by (simpl; apply repeat_cons).
      apply zeros_least in H2; [contradiction|lia].
  - rewrite HL.
    destruct (Nat.compare_spec (length c) (length d)) as [E1|L1|G1];
      intros H1; try (now elim H1).
    + rewrite <- E1, Nat.compare_refl. intros H2. apply Hnext; auto.
    + destruct (Nat.compare_spec (length d) (length c)) as [E2|L2|G2];
        try lia; discriminate.
Qed.

(** The names from a name up to its successor are the names under it. *)
Lemma below_getSuccessor_prefix (q x : Name.t) :
  q <> [] ->
  Name.compare x q <> Lt -> Name.compare x (Name.getSuccessor q) = Lt ->
  Name.isPrefixOf q x = true.
Proof.
  intros Hq. destruct (exists_last Hq) as (p & c & ->).
  rewrite NameFacts.getSuccessor_snoc. intros H1 H2.
  assert (Pp : Name.isPrefixOf p x = true).
  { apply (NameFacts.prefix_interval p x (p ++ [Component.getSuccessor c])).
    - apply (NameFacts.le_trans _ (p ++ [c])).
      + apply NameFacts.prefix_le, NameFacts.isPrefixOf_app.
      + intros C. apply NameFacts.gt_lt in C. auto.
    - rewrite H2. discriminate.
    - apply NameFacts.isPrefixOf_app. }
  apply NameFacts.isPrefixOf_iff in Pp as [s ->].
  rewrite NameFacts.compare_app in H1, H2.
  destruct s as [|d s]; [now elim H1|].
  unfold Name.compare in H1, H2. simpl in H1, H2.
  assert (d = c).
  { apply getSuccessor_next.
    - rewrite ComponentFacts.component_compare_antisym.
      destruct (Component.compare d c); simpl; congruence.
    - destruct (Component.compare d (Component.getSuccessor c)); auto.
      now destruct s. }
  subst d. apply NameFacts.isPrefixOf_iff. exists s.
  now rewrite <- app_assoc.
Qed.

(** Cutting names to a length keeps their order. *)
Lemma firstn_mono (k : nat) :
  forall a b : Name.t,
  Name.compare a b <> Gt ->
  Name.compare (firstn k a) (firstn k b) <> Gt.
Proof.
  unfold Name.compare.
  induction k as [|k IH]; intros a b H; simpl; [discriminate|].
  destruct a as [|x a]; [destruct b; discriminate|].
  destruct b as [|y b]; [now elim H|].
  simpl in *. destruct (Component.compare x y); auto.
Qed.

(** ** Tombstones under the iterator, and windows of [find_if] *)

Lemma skipDeleted_from_ge (s : list Entry.t) :
  forall i : nat, (i <= Index.skipDeleted_from s i <= i + length s)%nat.
Proof.
  induction s as [|e r IH]; intros i; simpl; [lia|].
  destruct (status_eqb (Entry.getStatus e) DELETED); [|lia].
  specialize (IH (S i)). lia.
Qed.

Lemma skipDeleted_ge (l : SkipList.t) (i : nat) :
  (i <= Index.skipDeleted l i)%nat.
Proof. apply skipDeleted_from_ge. Qed.

Lemma skipDeleted_le_length (l : SkipList.t) (i : nat) :
  (i <= length l)%nat -> (Index.skipDeleted l i <= length l)%nat.
Proof.
  intros Hi. unfold Index.skipDeleted.
  pose proof (skipDeleted_from_ge (skipn i l) i) as H.
  rewrite length_skipn in H. lia.
Qed.

Lemma skipDeleted_from_skipped (s : list Entry.t) :
  forall (i k : nat) (x : Entry.t),
  (i + k < Index.skipDeleted_from s i)%nat -> nth_error s k = Some x ->
  Entry.isDeleted x = true.
Proof.
  induction s as [|e r IH]; intros i k x; simpl; [lia|].
  destruct (status_eqb (Entry.getStatus e) DELETED) eqn:D; [|lia].
  destruct k as [|k]; simpl.
  - intros _ H. inversion H; subst. exact D.
  - intros Hk. apply (IH (S i)). lia.
Qed.

(** The entries that the iterator steps over are DELETED. *)
Lemma skipDeleted_skipped (l : SkipList.t) (i j : nat) (x : Entry.t) :
  (i <= j < Index.skipDeleted l i)%nat -> nth_error l j = Some x ->
  Entry.isDeleted x = true.
Proof.
  intros Hj Hx. unfold Index.skipDeleted in Hj.
  apply (skipDeleted_from_skipped (skipn i l) i (j - i)); [lia|].
  rewrite nth_error_skipn. now replace (i + (j - i))%nat with j by lia.
Qed.

Lemma skipDeleted_at_live (l : SkipList.t) (i : nat) (x : Entry.t) :
  nth_error l i = Some x -> Entry.isDeleted x = false ->
  Index.skipDeleted l i = i.
Proof.
  intros Hx Lx. pose proof (skipDeleted_le_live l i i x (le_n i) Hx Lx). lia.
Qed.

Lemma skipDeleted_at_end (l : SkipList.t) (i : nat) :
  nth_error l i = None -> Index.skipDeleted l i = i.
Proof.
  intros H. unfold Index.skipDeleted. now rewrite (deref_end l i H).
Qed.

(** What [find_if] has seen when it returns: the predicate was false on
    the entries before the position returned, and true at that position
    unless it is [last]. *)
Lemma find_if_from_seen (pred : Entry.t -> M bool) (s : list Entry.t) :
  forall first last m : nat,
  Index.find_if_from pred s first last = Ret m ->
  (first <= m)%nat /\ ((first <= last)%nat -> (m <= last)%nat) /\
  (forall k x, (first + k < m)%nat -> nth_error s k = Some x ->
               pred x = Ret false) /\
  (m <> last -> exists e, nth_error s (m - first) = Some e
                          /\ pred e = Ret true).
Proof.
  induction s as [|x r IH]; intros first last m; simpl.
  - destruct (Nat.eqb_spec first last) as [E|E]; [|discriminate].
    intros H. inversion H. subst.
    repeat split; auto; try lia; intros C; now elim C.
  - destruct (Nat.eqb_spec first last) as [E|E].
    { intros H. inversion H. subst.
      repeat split; auto; try lia; intros C; now elim C. }
    destruct (pred x) as [b|u] eqn:P; simpl; [|discriminate].
    destruct b.
    + intros H. inversion H; subst m. repeat split; auto; try lia.
      intros _. exists x. rewrite Nat.sub_diag. auto.
    + intros H. destruct (IH _ _ _ H) as (H1 & H2 & H3 & H4).
      repeat split; try lia.
      * intros [|k] y Hk Hy; simpl in Hy.
        -- congruence.
        -- apply (H3 k); auto. lia.
      * intros Hne. destruct (H4 Hne) as (e & He & Pe). exists e.
        replace (m - first)%nat with (S (m - S first)) by lia. auto.
Qed.

Lemma find_if_seen (pred : Entry.t -> M bool) (l : SkipList.t)
    (first last m : nat) :
  Index.find_if pred l first last = Ret m ->
  (first <= m)%nat /\ ((first <= last)%nat -> (m <= last)%nat) /\
  (forall j x, (first <= j < m)%nat -> nth_error l j = Some x ->
               pred x = Ret false) /\
  (m <> last -> exists e, nth_error l m = Some e /\ pred e = Ret true).
Proof.
  unfold Index.find_if. intros H.
  destruct (find_if_from_seen _ _ _ _ _ H) as (H1 & H2 & H3 & H4).
  repeat split; auto.
  - intros j x Hj Hx. apply (H3 (j - first)%nat); [lia|].
    rewrite nth_error_skipn. now replace (first + (j - first))%nat with j by lia.
  - intros Hne. destruct (H4 Hne) as (e & He & Pe). exists e.
    rewrite nth_error_skipn in He.
    now replace (first + (m - first))%nat with m in He by lia.
Qed.

(** [find_if] on a window whose entries before position [m] fail the
    predicate and whose entry at [m] passes it. *)
Lemma find_if_hits (pred : Entry.t -> M bool) (l : SkipList.t)
    (last m : nat) (e : Entry.t) :
  (m < last)%nat -> nth_error l m = Some e -> pred e = Ret true ->
  forall n first : nat, (m = first + n)%nat ->
  (forall j x, (first <= j < m)%nat -> nth_error l j = Some x ->
               pred x = Ret false) ->
  Index.find_if pred l first last = Ret m.
Proof.
  intros Hm He Pe. unfold Index.find_if.
  induction n as [|n IH]; intros first Hn Hbefore.
  - replace first with m by lia.
    destruct (deref_skipn l m e He) as [r ->]. simpl.
    destruct (Nat.eqb_spec m last); [lia|]. now rewrite Pe.
  - destruct (nth_error l first) as [x|] eqn:Hx.
    2:{ apply nth_error_None in Hx.
        assert (m < length l)%nat by (apply nth_error_Some; congruence). lia. }
    destruct (deref_skipn l first x Hx) as [r Hr].
    pose proof Hr as Hr'. apply skipn_cons_inv in Hr' as [_ Hr'].
    rewrite Hr. simpl.
    destruct (Nat.eqb_spec first last); [lia|].
    rewrite (Hbefore first x) by (auto; lia). simpl.
    rewrite <- Hr'. apply IH; [lia|].
    intros j y Hj. apply Hbefore. lia.
Qed.

(** [find_if] on a window whose entries all fail the predicate. *)
Lemma find_if_misses (pred : Entry.t -> M bool) (l : SkipList.t)
    (last : nat) :
  (last <= length l)%nat ->
  forall n first : nat, (last = first + n)%nat ->
  (forall j x, (first <= j < last)%nat -> nth_error l j = Some x ->
               pred x = Ret false) ->
  Index.find_if pred l first last = Ret last.
Proof.
  intros Hl. unfold Index.find_if.
  induction n as [|n IH]; intros first Hn Hall.
  - replace first with last by lia. apply find_if_from_here.
  - destruct (nth_error l first) as [x|] eqn:Hx;
      [|apply nth_error_None in Hx; lia].
    destruct (deref_skipn l first x Hx) as [r Hr].
    pose proof Hr as Hr'. apply skipn_cons_inv in Hr' as [_ Hr'].
    rewrite Hr. simpl.
    destruct (Nat.eqb_spec first last); [lia|].
    rewrite (Hall first x) by (auto; lia). simpl.
    rewrite <- Hr'. apply IH; [lia|].
    intros j y Hj. apply Hall. lia.
Qed.

(** ** The rightmost child, on every container in canonical order *)

Section FirstOfRightmostChild.

Context {ext : External}.

Variable interest : Interest.t.

Lemma matches_defined (e : Entry.t) :
  Spec.readsAbsentHash interest e = false ->
  Index.matchesSimpleSelectors interest (Index.publisherHash interest) e
  = Ret (Spec.satisfies interest e).
Proof.
  intros H. rewrite matches_outcome. unfold Spec.readsAbsentHash in H.
  now rewrite H.
Qed.

Lemma matches_false (e : Entry.t) :
  Index.matchesSimpleSelectors interest (Index.publisherHash interest) e
  = Ret false ->
  Spec.satisfies interest e = false.
Proof.
  rewrite matches_outcome.
  destruct (Spec.reachesPublisherFilter interest e
            && negb (keyLocator_empty
                       (Interest.getPublisherPublicKeyLocator interest))
            && match Entry.getKeyLocatorHash e with
               | None => true
               | Some _ => false
               end); [discriminate|].
  congruence.
Qed.

Lemma satisfies_reads_hash (e : Entry.t) :
  Spec.satisfies interest e = true ->
  Spec.readsAbsentHash interest e = false.
Proof.
  unfold Spec.satisfies, Spec.readsAbsentHash, Spec.reachesPublisherFilter.
  destruct (keyLocator_empty (Interest.getPublisherPublicKeyLocator interest));
    simpl.
  - intros _. now rewrite andb_false_r.
  - destruct (Entry.getKeyLocatorHash e).
    + intros _. now rewrite andb_false_r.
    + rewrite andb_false_r. discriminate.
Qed.

Lemma deleted_not_satisfies (x : Entry.t) :
  Entry.isDeleted x = true -> Spec.satisfies interest x = false.
Proof.
  intros D. destruct (Spec.satisfies interest x) eqn:Sx; auto.
  apply satisfies_live in Sx. congruence.
Qed.

Lemma outside_not_satisfies (x : Entry.t) :
  Name.isPrefixOf (Interest.getName interest) (Entry.getName x) = false ->
  Spec.satisfies interest x = false.
Proof.
  intros P. destruct (Spec.satisfies interest x) eqn:Sx; auto.
  apply satisfies_descendant in Sx. congruence.
Qed.

Lemma childOf_le (x : Entry.t) :
  Name.compare (Spec.childOf interest x) (Entry.getName x) <> Gt.
Proof. apply firstn_le. Qed.

Lemma childOf_mono (x y : Entry.t) :
  Name.compare (Entry.getName x) (Entry.getName y) <> Gt ->
  Name.compare (Spec.childOf interest x) (Spec.childOf interest y) <> Gt.
Proof. apply firstn_mono. Qed.

(** Such an entry exists as soon as some entry satisfies the interest. *)
Lemma firstOfRightmostChild_exists :
  forall l : SkipList.t, sorted l ->
  (exists e, In e l /\ Spec.satisfies interest e = true) ->
  exists r, Spec.firstOfRightmostChild interest l r.
Proof.
  unfold Spec.firstOfRightmostChild.
  induction l as [|e0 rest IH]; intros Hs (e & He & Se); [destruct He|].
  apply sorted_cons in Hs as [Hlt Hs].
  destruct (existsb (Spec.satisfies interest) rest) eqn:Ex.
  - apply existsb_exists in Ex.
    destruct (IH Hs Ex) as (r & Hr & Sr & Ha & Hb).
    destruct (Spec.satisfies interest e0
              && Name.equals (Spec.childOf interest e0)
                   (Spec.childOf interest r)) eqn:C.
    + apply andb_true_iff in C as [S0 C]. apply NameFacts.equals_true in C.
      exists e0. repeat split; auto; [now left| |].
      * intros x [<-|Hx] Sx.
        -- rewrite NameFacts.compare_refl. discriminate.
        -- rewrite C. now apply Ha.
      * intros x [<-|Hx] Sx _.
        -- rewrite NameFacts.compare_refl. discriminate.
        -- rewrite (Hlt x Hx). discriminate.
    + exists r. repeat split; auto; [now right| |].
      * intros x [<-|Hx] Sx; [|now apply Ha].
        apply childOf_mono. rewrite (Hlt r Hr). discriminate.
      * intros x [<-|Hx] Sx Ec; [|now apply Hb].
        rewrite Sx, Ec, NameFacts.equals_refl in C. discriminate.
  - assert (Hnone : forall x, In x rest -> Spec.satisfies interest x = false).
    { intros x Hx. destruct (Spec.satisfies interest x) eqn:Sx; auto.
      rewrite <- Ex. symmetry. apply existsb_exists. eauto. }
    destruct He as [<-|He]; [|rewrite (Hnone e He) in Se; discriminate].
    exists e0. repeat split; auto; [now left| |].
    + intros x [<-|Hx] Sx.
      * rewrite NameFacts.compare_refl. discriminate.
      * rewrite (Hnone x Hx) in Sx. discriminate.
    + intros x [<-|Hx] Sx _.
      * rewrite NameFacts.compare_refl. discriminate.
      * rewrite (Hnone x Hx) in Sx. discriminate.
Qed.

Variable l : SkipList.t.

Hypothesis Hs : sorted l.

(** The positions from the lower bound of the query name to the end of
    its window hold the entries under the name, and no position after
    them does. *)
Lemma window_descendant (j : nat) (x : Entry.t) :
  (lower_bound (Interest.getName interest) l <= j)%nat ->
  (j < (if (Name.size (Interest.getName interest) =? 0)%nat then end_ l
        else lower_bound (Name.getSuccessor (Interest.getName interest)) l))%nat ->
  nth_error l j = Some x ->
  Name.isPrefixOf (Interest.getName interest) (Entry.getName x) = true.
Proof.
  intros Hlo Hhi Hx.
  destruct (Nat.eqb_spec (Name.size (Interest.getName interest)) 0) as [Z0|Z0].
  - destruct (Interest.getName interest); [reflexivity|discriminate].
  - apply below_getSuccessor_prefix.
    + intros E. apply Z0. now rewrite E.
    + now apply (lower_bound_after _ l Hs j x).
    + now apply (lower_bound_before _ l j x).
Qed.

Lemma beyond_window (j : nat) (x : Entry.t) :
  ((if (Name.size (Interest.getName interest) =? 0)%nat then end_ l
    else lower_bound (Name.getSuccessor (Interest.getName interest)) l)
   <= j)%nat ->
  nth_error l j = Some x ->
  Name.isPrefixOf (Interest.getName interest) (Entry.getName x) = false.
Proof.
  intros Hj Hx.
  destruct (Nat.eqb_spec (Name.size (Interest.getName interest)) 0) as [Z0|Z0].
  - apply nth_error_None in Hj. unfold end_ in Hj. congruence.
  - destruct (Name.isPrefixOf (Interest.getName interest) (Entry.getName x))
      eqn:P; auto.
    exfalso. apply (lower_bound_after _ l Hs j x Hj Hx).
    apply NameFacts.prefix_lt_getSuccessor; auto.
    intros E. apply Z0. now rewrite E.
Qed.

Lemma window_end_le :
  ((if (Name.size (Interest.getName interest) =? 0)%nat then end_ l
    else lower_bound (Name.getSuccessor (Interest.getName interest)) l)
   <= length l)%nat.
Proof.
  destruct (Name.size (Interest.getName interest) =? 0)%nat;
    unfold end_; auto.
  apply lower_bound_le.
Qed.

(** The entries from the start of the child subtree of [p] up to [p] lie
    in that subtree. *)
Lemma subtree_positions (prev j : nat) (p x : Entry.t) :
  nth_error l prev = Some p -> nth_error l j = Some x ->
  (lower_bound (Spec.childOf interest p) l <= j <= prev)%nat ->
  Spec.childOf interest x = Spec.childOf interest p.
Proof.
  unfold Spec.childOf. intros Hp Hx Hj. apply child_interval.
  - apply not_gt_le. apply (lower_bound_after _ l Hs j x); auto. lia.
  - apply (sorted_nth_le l j prev); auto. lia.
Qed.

Lemma subtree_start_le (prev : nat) (p : Entry.t) :
  nth_error l prev = Some p ->
  (lower_bound (Spec.childOf interest p) l <= prev)%nat.
Proof.
  intros Hp. apply (lower_bound_le_pos _ l prev p Hp).
  apply not_lt_ge, childOf_le.
Qed.

(** An entry before the start of a child subtree lies in a lesser one. *)
Lemma before_subtree (j : nat) (x p : Entry.t) :
  nth_error l j = Some x ->
  (j < lower_bound (Spec.childOf interest p) l)%nat ->
  Name.compare (Spec.childOf interest x) (Spec.childOf interest p) = Lt.
Proof.
  intros Hx Hj.
  apply (NameFacts.le_lt_trans _ (Entry.getName x)); [apply childOf_le|].
  now apply (lower_bound_before _ l j x).
Qed.

(** The loop, whenever it returns: no entry from [last] on satisfies the
    interest, and none before the boundary does. *)
Lemma rightmost_loop_result (boundary : nat) (b : Entry.t) :
  nth_error l boundary = Some b ->
  (forall j x, (j < boundary)%nat -> nth_error l j = Some x ->
               Spec.satisfies interest x = false) ->
  forall (fuel last : nat) (result : Z * Name.t),
  (last <= length l)%nat ->
  (forall x, nth_error l last = Some x -> Entry.isDeleted x = false) ->
  (forall j x, (last <= j)%nat -> nth_error l j = Some x ->
               Spec.satisfies interest x = false) ->
  Index.rightmost_loop fuel interest (Index.publisherHash interest) l
    boundary last = Some (Ret result) ->
  Spec.rightmostResult interest l result.
Proof.
  intros Hb Hbelow. unfold Spec.rightmostResult, Spec.firstOfRightmostChild.
  induction fuel as [|fuel IH]; intros last result Hlen Hlast Hbeyond;
    [discriminate|].
  rewrite rightmost_loop_S.
  destruct last as [|prev]; [discriminate|].
  unfold Index.rightmost_turn, deref.
  destruct (nth_error l prev) as [p|] eqn:Hp; [|discriminate].
  destruct ((prev =? boundary)%nat
            && negb (status_eqb (Entry.getStatus p) DELETED)) eqn:C.
  - (* the window is the boundary entry alone *)
    apply andb_true_iff in C as [C _]. apply Nat.eqb_eq in C. subst prev.
    assert (p = b) by congruence. subst p.
    assert (Honly : forall x, In x l -> Spec.satisfies interest x = true ->
                              x = b).
    { intros x Hx Sx. destruct (In_nth_error _ _ Hx) as [j Hj].
      destruct (Nat.lt_trichotomy j boundary) as [L|[E|G]].
      - rewrite (Hbelow j x L Hj) in Sx. discriminate.
      - subst j. congruence.
      - rewrite (Hbeyond j x) in Sx; [discriminate|lia|auto]. }
    destruct (Index.matchesSimpleSelectors interest
                (Index.publisherHash interest) b) as [[|]|u] eqn:P; simpl;
      intros H; inversion H; subst result.
    + right. exists b. split; [|reflexivity].
      repeat split.
      * eapply nth_error_In; eauto.
      * now apply matches_true.
      * intros x Hx Sx. rewrite (Honly x Hx Sx), NameFacts.compare_refl.
        discriminate.
      * intros x Hx Sx _. rewrite (Honly x Hx Sx), NameFacts.compare_refl.
        discriminate.
    + left. split; auto. intros x Hx.
      destruct (Spec.satisfies interest x) eqn:Sx; auto.
      rewrite (Honly x Hx Sx) in Sx. apply matches_false in P. congruence.
  - rewrite childOf_getPrefix.
    pose proof (subtree_start_le prev p Hp) as Hstart.
    pose proof (skipDeleted_ge l (lower_bound (Spec.childOf interest p) l))
      as Hge.
    assert (Hle : (Index.skipDeleted l
                     (lower_bound (Spec.childOf interest p) l) <= S prev)%nat).
    { destruct (nth_error l (S prev)) as [x|] eqn:Hx.
      - apply (skipDeleted_le_live l _ (S prev) x); auto; lia.
      - apply nth_error_None in Hx.
        assert (length l = S prev) by lia.
        replace (S prev) with (length l) by lia.
        apply skipDeleted_le_length. lia. }
    pose proof (fun j x => skipDeleted_skipped l
                  (lower_bound (Spec.childOf interest p) l) j x) as Hdead.
    pose proof (skipDeleted_live l
                  (lower_bound (Spec.childOf interest p) l)) as Hfl.
    revert Hge Hle Hdead Hfl.
    generalize (Index.skipDeleted l
                  (lower_bound (Spec.childOf interest p) l)) as first.
    intros first Hge Hle Hdead Hfl.
    destruct (Index.find_if
                (Index.matchesSimpleSelectors interest
                   (Index.publisherHash interest)) l first (S prev))
      as [m|u] eqn:F; simpl; [|discriminate].
    destruct (find_if_seen _ _ _ _ _ F) as (H1 & H2 & H3 & H4).
    specialize (H2 Hle).
    destruct (Nat.eqb_spec m (S prev)) as [E|E]; simpl.
    + (* nothing in this window: it becomes the end of the next one *)
      subst m. apply IH; try lia.
      * intros x Hx. now apply (Hfl x).
      * intros j x Hj Hx.
        destruct (Nat.le_gt_cases (S prev) j) as [Hout|Hin].
        -- now apply (Hbeyond j x).
        -- apply matches_false, (H3 j x); auto.
    + destruct (H4 E) as (e & He & Pe). rewrite He.
      intros H. inversion H; subst result.
      right. exists e. split; [|reflexivity].
      assert (Hce : Spec.childOf interest e = Spec.childOf interest p).
      { apply (subtree_positions prev m p e); auto. lia. }
      assert (Hpos : forall j x, nth_error l j = Some x ->
                Spec.satisfies interest x = true ->
                (j < lower_bound (Spec.childOf interest p) l)%nat
                \/ (m <= j <= prev)%nat).
      { intros j x Hx Sx.
        destruct (Nat.le_gt_cases (S prev) j) as [Hout|Hin].
        { rewrite (Hbeyond j x Hout Hx) in Sx. discriminate. }
        destruct (Nat.le_gt_cases m j) as [Hmj|Hmj]; [right; lia|].
        destruct (Nat.le_gt_cases first j) as [Hfj|Hfj].
        { rewrite (matches_false x (H3 j x (conj Hfj Hmj) Hx)) in Sx.
          discriminate. }
        destruct (Nat.le_gt_cases (lower_bound (Spec.childOf interest p) l) j)
          as [Hsj|Hsj]; [|now left].
        rewrite (deleted_not_satisfies x (Hdead j x (conj Hsj Hfj) Hx)) in Sx.
        discriminate. }
      repeat split.
      * eapply nth_error_In; eauto.
      * now apply matches_true.
      * intros x Hx Sx. destruct (In_nth_error _ _ Hx) as [j Hj].
        rewrite Hce.
        destruct (Hpos j x Hj Sx) as [Hlt|Hin].
        -- rewrite (before_subtree j x p Hj Hlt). discriminate.
        -- rewrite (subtree_positions prev j p x Hp Hj) by lia.
           rewrite NameFacts.compare_refl. discriminate.
      * intros x Hx Sx Ec. destruct (In_nth_error _ _ Hx) as [j Hj].
        destruct (Hpos j x Hj Sx) as [Hlt|Hin].
        -- pose proof (before_subtree j x p Hj Hlt) as C'.
           rewrite Ec, Hce in C'. now apply NameFacts.lt_irrefl in C'.
        -- apply (sorted_nth_le l m j); auto. lia.
Qed.

(** What find returns for the rightmost child is the first match of the
    rightmost child. *)
Lemma find_rightmost_result (fuel : nat) (ix : Index.t)
    (result : Z * Name.t) :
  Index.m_skipList ix = l ->
  (0 < Interest.getChildSelector interest)%Z ->
  Index.find fuel interest ix = Some (Ret result) ->
  Spec.rightmostResult interest l result.
Proof.
  intros El Hc. unfold Index.find, Index.selectChild. rewrite El.
  rewrite (proj2 (Z.leb_gt _ _) Hc). unfold deref.
  assert (Hsat : forall j x, nth_error l j = Some x ->
            Spec.satisfies interest x = true ->
            (Index.skipDeleted l (lower_bound (Interest.getName interest) l)
             <= j)%nat /\ (j < length l)%nat).
  { intros j x Hx Sx. split; [|apply nth_error_Some; congruence].
    apply (skipDeleted_le_live l _ j x); auto.
    - apply (lower_bound_le_pos _ l j x Hx).
      apply not_lt_ge, NameFacts.prefix_le. now apply satisfies_descendant.
    - now apply (satisfies_live interest). }
  assert (Hnone : (forall j x, nth_error l j = Some x ->
                      Spec.satisfies interest x = true -> False) ->
                  Spec.rightmostResult interest l Index.notFound).
  { intros H. left. split; auto. intros x Hx.
    destruct (Spec.satisfies interest x) eqn:Sx; auto.
    destruct (In_nth_error _ _ Hx) as [j Hj]. elim (H j x Hj Sx). }
  pose proof (skipDeleted_ge l (lower_bound (Interest.getName interest) l))
    as Hge.
  destruct (nth_error l (lower_bound (Interest.getName interest) l)) eqn:B0.
  2:{ intros H. inversion H. apply Hnone. intros j x Hx Sx.
      apply nth_error_None in B0. destruct (Hsat j x Hx Sx). lia. }
  destruct (nth_error l
              (Index.skipDeleted l
                 (lower_bound (Interest.getName interest) l)))
    as [b|] eqn:B.
  2:{ intros H. inversion H. apply Hnone. intros j x Hx Sx.
      apply nth_error_None in B. destruct (Hsat j x Hx Sx). lia. }
  destruct (Name.isPrefixOf (Interest.getName interest) (Entry.getName b))
    eqn:Pb; simpl.
  2:{ intros H. inversion H. apply Hnone. intros j x Hx Sx.
      destruct (Hsat j x Hx Sx) as [Hj _].
      assert (P : Name.isPrefixOf (Interest.getName interest)
                    (Entry.getName b) = true); [|congruence].
      apply (NameFacts.prefix_interval _ _ (Entry.getName x)).
      - apply not_gt_le. now apply (lower_bound_after _ l Hs _ b Hge).
      - now apply (sorted_nth_le l _ j b x Hs Hj).
      - now apply satisfies_descendant. }
  apply (rightmost_loop_result _ b B).
  - intros j x Hj Hx.
    destruct (Nat.le_gt_cases (lower_bound (Interest.getName interest) l) j)
      as [Hin|Hout].
    + apply deleted_not_satisfies.
      now apply (skipDeleted_skipped l _ j x (conj Hin Hj)).
    + apply outside_not_satisfies, NameFacts.lt_not_prefix.
      now apply (lower_bound_before _ l j x).
  - apply skipDeleted_le_length, window_end_le.
  - intros x Hx. eapply skipDeleted_live. exact Hx.
  - intros j x Hj Hx. apply outside_not_satisfies.
    apply (beyond_window j x); auto.
    eapply Nat.le_trans; [apply skipDeleted_ge|exact Hj].
Qed.

(** The loop over the child subtrees after the entry [t] at position [m],
    when each starts with a live entry and none of their entries passes
    the predicate: the windows are these subtrees, from the last one
    down, and the loop comes to the turn on the subtree of [t]. *)
Lemma loop_scans_later_children (boundary m stop : nat) (t : Entry.t)
    (result : Z * Name.t) :
  nth_error l m = Some t -> (boundary <= m)%nat -> (stop <= length l)%nat ->
  (forall prev p, (m <= prev < stop)%nat -> nth_error l prev = Some p ->
     Spec.childOf interest p = Spec.childOf interest t ->
     Index.rightmost_turn interest (Index.publisherHash interest) l
       boundary (S prev) = Ret (inl result)) ->
  (forall j x, (m < j < stop)%nat -> nth_error l j = Some x ->
     Spec.childOf interest x <> Spec.childOf interest t ->
     Index.matchesSimpleSelectors interest (Index.publisherHash interest) x
     = Ret false) ->
  (forall j y, (m < j < stop)%nat -> nth_error l j = Some y ->
     Spec.childOf interest y <> Spec.childOf interest t ->
     j = lower_bound (Spec.childOf interest y) l ->
     Entry.isDeleted y = false) ->
  forall fuel last : nat,
  (m < last <= stop)%nat -> (last <= fuel)%nat ->
  Index.rightmost_loop fuel interest (Index.publisherHash interest) l
    boundary last = Some (Ret result).
Proof.
  intros Ht Hbm Hstop Hfinal Hright Hlive.
  induction fuel as [|fuel IH]; intros last Hl Hf; [lia|].
  destruct last as [|prev]; [lia|].
  rewrite rightmost_loop_S.
  destruct (nth_error l prev) as [p|] eqn:Hp;
    [|apply nth_error_None in Hp; lia].
  destruct (Name.equals (Spec.childOf interest p) (Spec.childOf interest t))
    eqn:E.
  { apply NameFacts.equals_true in E. rewrite (Hfinal prev p); auto. lia. }
  assert (Hne : Spec.childOf interest p <> Spec.childOf interest t).
  { intros C. apply NameFacts.equals_true in C. congruence. }
  assert (Hmp : (m < prev)%nat).
  { destruct (Nat.eq_dec m prev) as [->|]; [|lia].
    elim Hne. congruence. }
  pose proof (subtree_start_le prev p Hp) as Hstart.
  assert (Hms : (m < lower_bound (Spec.childOf interest p) l)%nat).
  { destruct (Nat.le_gt_cases (lower_bound (Spec.childOf interest p) l) m)
      as [Hin|]; auto.
    elim Hne. symmetry. apply (subtree_positions prev m p t); auto. lia. }
  destruct (nth_error l (lower_bound (Spec.childOf interest p) l))
    as [y|] eqn:Hy; [|apply nth_error_None in Hy; lia].
  assert (Hcy : Spec.childOf interest y = Spec.childOf interest p).
  { apply (subtree_positions prev
             (lower_bound (Spec.childOf interest p) l) p y Hp Hy). lia. }
  assert (Ly : Entry.isDeleted y = false).
  { apply (Hlive (lower_bound (Spec.childOf interest p) l) y); auto;
      [lia|congruence|now rewrite Hcy]. }
  unfold Index.rightmost_turn, deref. rewrite Hp.
  destruct (Nat.eqb_spec prev boundary); [lia|].
  simpl andb. cbv iota. rewrite childOf_getPrefix.
  rewrite (skipDeleted_at_live l _ y Hy Ly).
  rewrite (find_if_misses _ l (S prev))
    with (n := (S prev - lower_bound (Spec.childOf interest p) l)%nat);
    try lia.
  - simpl. rewrite Nat.eqb_refl. simpl. apply IH; lia.
  - intros j x Hj Hx. apply (Hright j x); auto; [lia|].
    rewrite (subtree_positions prev j p x Hp Hx); auto. lia.
Qed.

(** The first entry of a later child subtree is not DELETED. *)
Lemma later_child_starts_live (m j : nat) (t y : Entry.t) :
  Spec.laterChildrenStartLive interest l t ->
  nth_error l m = Some t -> nth_error l j = Some y ->
  (m < j)%nat ->
  Name.isPrefixOf (Interest.getName interest) (Entry.getName y) = true ->
  Spec.childOf interest y <> Spec.childOf interest t ->
  j = lower_bound (Spec.childOf interest y) l ->
  Entry.isDeleted y = false.
Proof.
  intros Hlater Ht Hy Hmj Py Hne Hj.
  apply Hlater; auto.
  - eapply nth_error_In; eauto.
  - now apply (sorted_nth l Hs m j).
  - intros z Hz Ec. destruct (In_nth_error _ _ Hz) as [k Hk].
    destruct (Nat.le_gt_cases j k) as [Hjk|Hkj].
    + now apply (sorted_nth_le l j k).
    + exfalso. rewrite Hj in Hkj.
      pose proof (before_subtree k z y Hk Hkj) as C.
      rewrite Ec in C. now apply NameFacts.lt_irrefl in C.
Qed.

(** With the entry that ends the window not DELETED, [last] starts at the
    end of the window. *)
Lemma window_end_stays :
  Spec.windowEndsLive interest l ->
  Index.skipDeleted l
    (if (Name.size (Interest.getName interest) =? 0)%nat then end_ l
     else lower_bound (Name.getSuccessor (Interest.getName interest)) l)
  = (if (Name.size (Interest.getName interest) =? 0)%nat then end_ l
     else lower_bound (Name.getSuccessor (Interest.getName interest)) l).
Proof.
  intros Hend.
  destruct (Nat.eqb_spec (Name.size (Interest.getName interest)) 0) as [Z0|Z0].
  { apply skipDeleted_at_end. apply nth_error_None. unfold end_. lia. }
  destruct (nth_error l
              (lower_bound (Name.getSuccessor (Interest.getName interest)) l))
    as [y|] eqn:Hy; [|now apply skipDeleted_at_end].
  apply (skipDeleted_at_live l _ y Hy).
  apply Hend.
  - eapply nth_error_In; eauto.
  - intros E. apply Z0. now rewrite E.
  - now apply (lower_bound_after _ l Hs _ y (le_n _)).
  - intros z Hz Cz. destruct (In_nth_error _ _ Hz) as [k Hk].
    apply (sorted_nth_le l
             (lower_bound (Name.getSuccessor (Interest.getName interest)) l)
             k y z Hs); auto.
    now apply (lower_bound_le_pos _ l k z).
Qed.

(** A live entry under the query name lies in the window, at or after the
    boundary, and the boundary entry is under the query name. *)
Lemma live_descendant_in_window (m : nat) (t : Entry.t) :
  nth_error l m = Some t -> Entry.isDeleted t = false ->
  Name.isPrefixOf (Interest.getName interest) (Entry.getName t) = true ->
  (lower_bound (Interest.getName interest) l
   <= Index.skipDeleted l (lower_bound (Interest.getName interest) l)
   <= m)%nat
  /\ (m < (if (Name.size (Interest.getName interest) =? 0)%nat then end_ l
           else lower_bound (Name.getSuccessor (Interest.getName interest)) l))%nat
  /\ exists b,
       nth_error l (Index.skipDeleted l
                      (lower_bound (Interest.getName interest) l)) = Some b
       /\ Entry.isDeleted b = false
       /\ Name.isPrefixOf (Interest.getName interest) (Entry.getName b) = true.
Proof.
  intros Ht Lt Pt.
  assert (Hlo : (lower_bound (Interest.getName interest) l <= m)%nat).
  { apply (lower_bound_le_pos _ l m t Ht).
    apply not_lt_ge, NameFacts.prefix_le, Pt. }
  pose proof (skipDeleted_le_live l _ m t Hlo Ht Lt) as Hb.
  assert (Hm : (m < length l)%nat) by (apply nth_error_Some; congruence).
  split; [exact Hb|]. split.
  - destruct (Nat.eqb_spec (Name.size (Interest.getName interest)) 0)
      as [Z0|Z0]; [exact Hm|].
    apply (lower_bound_gt_pos _ l m t Hs Ht).
    apply NameFacts.prefix_lt_getSuccessor; auto.
    intros E. apply Z0. now rewrite E.
  - destruct (nth_error l
                (Index.skipDeleted l
                   (lower_bound (Interest.getName interest) l)))
      as [b|] eqn:B; [|apply nth_error_None in B; lia].
    exists b. split; [reflexivity|]. split.
    + eapply skipDeleted_live. exact B.
    + apply (NameFacts.prefix_interval _ _ (Entry.getName t)); auto.
      * apply not_gt_le.
        apply (lower_bound_after _ l Hs
                 (Index.skipDeleted l
                    (lower_bound (Interest.getName interest) l)) b); auto.
        lia.
      * apply (sorted_nth_le l
                 (Index.skipDeleted l
                    (lower_bound (Interest.getName interest) l)) m b t Hs);
          auto.
        lia.
Qed.

(** find, once the boundary entry is known to be under the query name, is
    the loop on the window. *)
Lemma find_enters_loop (fuel : nat) (ix : Index.t) (b : Entry.t) :
  Index.m_skipList ix = l ->
  (0 < Interest.getChildSelector interest)%Z ->
  nth_error l (Index.skipDeleted l
                 (lower_bound (Interest.getName interest) l)) = Some b ->
  Name.isPrefixOf (Interest.getName interest) (Entry.getName b) = true ->
  Spec.windowEndsLive interest l ->
  Index.find fuel interest ix
  = Index.rightmost_loop fuel interest (Index.publisherHash interest) l
      (Index.skipDeleted l (lower_bound (Interest.getName interest) l))
      (if (Name.size (Interest.getName interest) =? 0)%nat then end_ l
       else lower_bound (Name.getSuccessor (Interest.getName interest)) l).
Proof.
  intros El Hc B Pb Hend. unfold Index.find, Index.selectChild. rewrite El.
  rewrite (proj2 (Z.leb_gt _ _) Hc). unfold deref.
  pose proof (skipDeleted_ge l (lower_bound (Interest.getName interest) l))
    as Hge.
  destruct (nth_error l (lower_bound (Interest.getName interest) l)) eqn:B0.
  2:{ apply nth_error_None in B0.
      assert (Index.skipDeleted l
                (lower_bound (Interest.getName interest) l) < length l)%nat
        by (apply nth_error_Some; congruence).
      lia. }
  rewrite B, Pb. simpl negb. cbv iota.
  now rewrite (window_end_stays Hend).
Qed.

(** The turn on the child subtree of the first match [r] of the
    rightmost child returns [r]. *)
Lemma turn_returns_first (m prev : nat) (r p : Entry.t) :
  Spec.firstOfRightmostChild interest l r ->
  (forall x, In x l -> Spec.scannedBefore interest r x ->
             Spec.readsAbsentHash interest x = false) ->
  nth_error l m = Some r -> nth_error l prev = Some p -> (m <= prev)%nat ->
  (Index.skipDeleted l (lower_bound (Interest.getName interest) l) <= m)%nat ->
  Spec.childOf interest p = Spec.childOf interest r ->
  Index.rightmost_turn interest (Index.publisherHash interest) l
    (Index.skipDeleted l (lower_bound (Interest.getName interest) l))
    (S prev)
  = Ret (inl (Index.answer r)).
Proof.
  intros (Hr & Sr & Ha & Hb) Hread Hm Hp Hmp Hbm Hc.
  assert (Pr : Index.matchesSimpleSelectors interest
                 (Index.publisherHash interest) r = Ret true).
  { rewrite matches_defined; [now rewrite Sr|].
    now apply satisfies_reads_hash. }
  unfold Index.rightmost_turn, deref. rewrite Hp.
  destruct ((prev =? Index.skipDeleted l
                       (lower_bound (Interest.getName interest) l))%nat
            && negb (status_eqb (Entry.getStatus p) DELETED)) eqn:C.
  - apply andb_true_iff in C as [C _]. apply Nat.eqb_eq in C.
    assert (m = prev) by lia. subst m.
    assert (p = r) by congruence. subst p. now rewrite Pr.
  - rewrite childOf_getPrefix, Hc.
    assert (Hsm : (lower_bound (Spec.childOf interest r) l <= m)%nat)
      by now apply subtree_start_le.
    pose proof (skipDeleted_le_live l _ m r Hsm Hm
                  (satisfies_live interest r Sr)) as Hfirst.
    revert Hfirst.
    generalize (Index.skipDeleted l
                  (lower_bound (Spec.childOf interest r) l)) as first.
    intros first Hfirst.
    rewrite (find_if_hits _ l (S prev) m r) with (n := (m - first)%nat);
      auto; try lia.
    + simpl. destruct (Nat.eqb_spec m (S prev)); [lia|]. simpl.
      now rewrite Hm.
    + intros j x Hj Hx.
      assert (Hcx : Spec.childOf interest x = Spec.childOf interest r).
      { rewrite <- Hc. apply (subtree_positions prev j p x Hp Hx).
        rewrite Hc. lia. }
      assert (Hlt : Name.compare (Entry.getName x) (Entry.getName r) = Lt).
      { apply (sorted_nth l Hs j m); auto. lia. }
      rewrite matches_defined.
      * destruct (Spec.satisfies interest x) eqn:Sx; auto.
        exfalso. apply (Hb x (nth_error_In _ _ Hx) Sx Hcx).
        now apply NameFacts.gt_lt.
      * apply Hread; [eapply nth_error_In; eauto|]. left. auto.
Qed.

End FirstOfRightmostChild.

(** C1, as amended.  On a container in canonical order, for a query with a
    positive child selector:
    - whatever find returns is the not-found pair, and then no entry
      satisfies the interest, or the first match of the rightmost child:
      the entry least in canonical order among the satisfying entries of
      the greatest child subtree that holds a satisfying entry (not the
      greatest satisfying entry);
    - such an entry exists as soon as some entry satisfies the interest;
    - find returns the not-found pair when no live entry is under the
      query name;
    - find returns the first match [r] of the rightmost child, given a
      turn of the loop per entry, when the entry that ends the window (the
      first one at or after the successor of the query name, if any) is
      not DELETED, every child subtree under the query name after that of
      [r] starts with an entry that is not DELETED, and no entry that the
      windows hold before [r] makes the publisher filter read an absent
      hash;
    - find returns the not-found pair, given a turn of the loop per entry,
      when no entry satisfies the interest, no entry comes after the least
      live entry [b] under the query name in its child subtree, the entry
      that ends the window is not DELETED, every child subtree under the
      query name after that of [b] starts with an entry that is not
      DELETED, and no entry makes the publisher filter read an absent
      hash. *)
Theorem C1_rightmost_amended {ext : External} (fuel : nat)
    (interest : Interest.t) (ix : Index.t) :
  sorted (Index.m_skipList ix) ->
  (0 < Interest.getChildSelector interest)%Z ->
  (forall result, Index.find fuel interest ix = Some (Ret result) ->
     Spec.rightmostResult interest (Index.m_skipList ix) result) /\
  (forall e, In e (Index.m_skipList ix) ->
     Spec.satisfies interest e = true ->
     exists r, Spec.firstOfRightmostChild interest (Index.m_skipList ix) r) /\
  ((forall x, In x (Index.m_skipList ix) ->
              Spec.liveDescendant (Interest.getName interest) x = false) ->
   Index.find fuel interest ix = Some (Ret Index.notFound)) /\
  (forall r, Spec.firstOfRightmostChild interest (Index.m_skipList ix) r ->
     Spec.windowEndsLive interest (Index.m_skipList ix) ->
     Spec.laterChildrenStartLive interest (Index.m_skipList ix) r ->
     (forall x, In x (Index.m_skipList ix) ->
                Spec.scannedBefore interest r x ->
                Spec.readsAbsentHash interest x = false) ->
     (length (Index.m_skipList ix) <= fuel)%nat ->
     Index.find fuel interest ix = Some (Ret (Index.answer r))) /\
  (forall b, In b (Index.m_skipList ix) ->
     Spec.liveDescendant (Interest.getName interest) b = true ->
     (forall x, In x (Index.m_skipList ix) ->
                Spec.liveDescendant (Interest.getName interest) x = true ->
                Name.compare (Entry.getName b) (Entry.getName x) <> Gt) ->
     (forall x, In x (Index.m_skipList ix) ->
                Spec.satisfies interest x = false) ->
     (forall x, In x (Index.m_skipList ix) ->
                Spec.childOf interest x = Spec.childOf interest b ->
                Name.compare (Entry.getName x) (Entry.getName b) <> Gt) ->
     Spec.windowEndsLive interest (Index.m_skipList ix) ->
     Spec.laterChildrenStartLive interest (Index.m_skipList ix) b ->
     (forall x, In x (Index.m_skipList ix) ->
                Spec.readsAbsentHash interest x = false) ->
     (length (Index.m_skipList ix) <= fuel)%nat ->
     Index.find fuel interest ix = Some (Ret Index.notFound)).
Proof.
  intros Hs Hc.
  split; [|split; [|split; [|split]]].
  - intros result. now apply find_rightmost_result.
  - intros e He Se. apply firstOfRightmostChild_exists; eauto.
  - intros Hnone. unfold Index.find, Index.selectChild.
    rewrite (proj2 (Z.leb_gt _ _) Hc).
    destruct (deref (Index.m_skipList ix)
                (lower_bound (Interest.getName interest)
                   (Index.m_skipList ix))); auto.
    destruct (deref (Index.m_skipList ix)
                (Index.skipDeleted (Index.m_skipList ix)
                   (lower_bound (Interest.getName interest)
                      (Index.m_skipList ix)))) as [b|] eqn:B; auto.
    destruct (Name.isPrefixOf (Interest.getName interest) (Entry.getName b))
      eqn:P; auto.
    pose proof (skipDeleted_live _ _ _ B) as Lb.
    apply nth_error_In in B. specialize (Hnone b B).
    unfold Spec.liveDescendant in Hnone.
    rewrite Lb, P in Hnone. discriminate.
  - intros r Hfirst Hend Hlater Hread Hfuel.
    pose proof Hfirst as (Hr & Sr & Ha & Hb).
    destruct (In_nth_error _ _ Hr) as [m Hm].
    destruct (live_descendant_in_window interest _ Hs m r Hm
                (satisfies_live interest r Sr)
                (satisfies_descendant interest r Sr))
      as (Hbnd & Hwin & b & B & Lb & Pb).
    rewrite (find_enters_loop interest _ Hs fuel ix b eq_refl Hc B Pb Hend).
    pose proof (window_end_le interest (Index.m_skipList ix)) as Hstop.
    set (boundary := Index.skipDeleted (Index.m_skipList ix)
                       (lower_bound (Interest.getName interest)
                          (Index.m_skipList ix))) in *.
    set (stop := if (Name.size (Interest.getName interest) =? 0)%nat
                 then end_ (Index.m_skipList ix)
                 else lower_bound
                        (Name.getSuccessor (Interest.getName interest))
                        (Index.m_skipList ix)) in *.
    apply (loop_scans_later_children interest _ Hs boundary m stop r); auto;
      try lia.
    + intros prev p Hprev Hp Hcp.
      apply (turn_returns_first interest _ Hs m prev r p); auto; lia.
    + intros j x Hj Hx Hne.
      assert (Hrx : Name.compare (Entry.getName r) (Entry.getName x) = Lt).
      { apply (sorted_nth _ Hs m j); auto. lia. }
      rewrite matches_defined.
      * destruct (Spec.satisfies interest x) eqn:Sx; auto.
        elim Hne. apply NameFacts.le_antisym.
        -- apply Ha; auto. eapply nth_error_In; eauto.
        -- apply childOf_mono. rewrite Hrx. discriminate.
      * apply Hread; [eapply nth_error_In; eauto|]. right. auto.
    + intros j y Hj Hy Hne Hjs.
      apply (later_child_starts_live interest _ Hs m j r y); auto; try lia.
      apply (window_descendant interest _ Hs j y); auto; lia.
  - intros b Hin Lb Hleast Hnone Halone Hend Hlater Hread Hfuel.
    destruct (In_nth_error _ _ Hin) as [jb Hjb].
    unfold Spec.liveDescendant in Lb.
    apply andb_true_iff in Lb as [Lb Pb]. apply negb_true_iff in Lb.
    destruct (live_descendant_in_window interest _ Hs jb b Hjb Lb Pb)
      as (Hbnd & Hwin & b' & B & Lb' & Pb').
    assert (b' = b).
    { apply (sorted_name_inj _ Hs);
        [eapply nth_error_In; eauto|auto|].
      apply NameFacts.le_antisym.
      - apply (sorted_nth_le (Index.m_skipList ix)
                 (Index.skipDeleted (Index.m_skipList ix)
                    (lower_bound (Interest.getName interest)
                       (Index.m_skipList ix))) jb); auto.
        lia.
      - apply Hleast; [eapply nth_error_In; eauto|].
        unfold Spec.liveDescendant. now rewrite Lb', Pb'. }
    subst b'.
    rewrite (find_enters_loop interest _ Hs fuel ix b eq_refl Hc B Pb Hend).
    pose proof (window_end_le interest (Index.m_skipList ix)) as Hstop.
    set (boundary := Index.skipDeleted (Index.m_skipList ix)
                       (lower_bound (Interest.getName interest)
                          (Index.m_skipList ix))) in *.
    set (stop := if (Name.size (Interest.getName interest) =? 0)%nat
                 then end_ (Index.m_skipList ix)
                 else lower_bound
                        (Name.getSuccessor (Interest.getName interest))
                        (Index.m_skipList ix)) in *.
    apply (loop_scans_later_children interest _ Hs boundary boundary stop b);
      auto; try lia.
    + intros prev p Hprev Hp Hcp.
      assert (prev = boundary).
      { destruct (Nat.eq_dec prev boundary) as [|Hne]; auto.
        exfalso. apply (Halone p (nth_error_In _ _ Hp) Hcp).
        apply NameFacts.gt_lt.
        apply (sorted_nth _ Hs boundary prev); auto. lia. }
      subst prev. assert (p = b) by congruence. subst p.
      unfold Index.rightmost_turn, deref. rewrite B, Nat.eqb_refl.
      unfold Entry.isDeleted in Lb. rewrite Lb. simpl.
      rewrite matches_defined by auto. now rewrite Hnone.
    + intros j x Hj Hx Hne.
      rewrite matches_defined by (apply Hread; eapply nth_error_In; eauto).
      rewrite Hnone; auto. eapply nth_error_In; eauto.
    + intros j y Hj Hy Hne Hjs.
      apply (later_child_starts_live interest _ Hs boundary j b y); auto;
        try lia.
      apply (window_descendant interest _ Hs j y); auto; lia.
Qed.

(** C1 on the index that holds /a/1/x and /a/1/y; on the index that holds
    the tombstone of /a and /a/b; on the index that holds /0 without hash
    and the signed /a/1, for the publisher of /a/1; on the index that
    holds /a/1, /a/2 and /a/3, for an interest that asks for five
    components below /a; and on the empty index. *)
Lemma C1_rightmost_amended_witness :
  Index.find 2 Scenario.rightmost Scenario.one_subtree
    = Some (Ret (1%Z, Scenario.a1x)) /\
  Index.find 2 Scenario.rightmost Scenario.erased_parent
    = Some (Ret (2%Z, Scenario.ab)) /\
  Index.find 2 Scenario.rightmost_by_publisher Scenario.unsigned_outside
    = Some (Ret (2%Z, Scenario.a1)) /\
  Index.find 3 Scenario.rightmost_deep Scenario.three_children
    = Some (Ret Index.notFound) /\
  Index.find 0 Scenario.rightmost (Index.Index 10) = Some (Ret Index.notFound).
Proof.
  split; [|split; [|split; [|split]]].
  - destruct (@C1_rightmost_amended plain 2 Scenario.rightmost
                Scenario.one_subtree eq_refl eq_refl) as (_ & _ & _ & H & _).
    apply (H (Index.Entry_of_Hash Scenario.a1x None 1)).
    + repeat split.
      * left. reflexivity.
      * intros x [<-|[<-|[]]] _; discriminate.
      * intros x [<-|[<-|[]]] _ _; discriminate.
    + intros y [<-|[<-|[]]] _ _ _; reflexivity.
    + intros y [<-|[<-|[]]] _ _ _ _; reflexivity.
    + intros x [<-|[<-|[]]] _; reflexivity.
    + simpl. lia.
  - destruct (@C1_rightmost_amended plain 2 Scenario.rightmost
                Scenario.erased_parent eq_refl eq_refl) as (_ & _ & _ & H & _).
    apply (H (Index.Entry_of_Hash Scenario.ab None 2)).
    + repeat split.
      * right. left. reflexivity.
      * intros x [<-|[<-|[]]] _; discriminate.
      * intros x [<-|[<-|[]]] Sx _; discriminate.
    + intros y [<-|[<-|[]]] _ Hy _; [exfalso; apply Hy|]; reflexivity.
    + intros y [<-|[<-|[]]] _ Hy _ _; [discriminate|reflexivity].
    + intros x [<-|[<-|[]]] _; reflexivity.
    + simpl. lia.
  - destruct (@C1_rightmost_amended plain 2 Scenario.rightmost_by_publisher
                Scenario.unsigned_outside eq_refl eq_refl)
      as (_ & _ & _ & H & _).
    apply (H (Index.Entry_of_Data Scenario.signed_a1 2)).
    + repeat split.
      * right. left. reflexivity.
      * intros x [<-|[<-|[]]] _; discriminate.
      * intros x [<-|[<-|[]]] Sx _; discriminate.
    + intros y [<-|[<-|[]]] _ _ _; reflexivity.
    + intros y [<-|[<-|[]]] _ _ _ _; reflexivity.
    + intros x [<-|[<-|[]]] _; reflexivity.
    + simpl. lia.
  - destruct (@C1_rightmost_amended plain 3 Scenario.rightmost_deep
                Scenario.three_children eq_refl eq_refl)
      as (_ & _ & _ & _ & H).
    apply (H (Index.Entry_of_Hash Scenario.a1 None 1)).
    + left. reflexivity.
    + reflexivity.
    + intros x [<-|[<-|[<-|[]]]] _; discriminate.
    + intros x [<-|[<-|[<-|[]]]]; reflexivity.
    + intros x [<-|[<-|[<-|[]]]] Hc; try discriminate.
    + intros y [<-|[<-|[<-|[]]]] _ _ _; reflexivity.
    + intros y [<-|[<-|[<-|[]]]] _ _ _ _; reflexivity.
    + intros x [<-|[<-|[<-|[]]]]; reflexivity.
    + simpl. lia.
  - destruct (@C1_rightmost_amended plain 0 Scenario.rightmost (Index.Index 10)
                eq_refl eq_refl) as (_ & _ & H & _).
    apply H. intros x [].
Defined.
